(** * neumusic: the Friday album digest and the Spotify release monitor

    A shallow embedding of [neumusic_friday_specific.py] (class
    [AlbumReleaseEmailer]) and [neumusic_spotify_specific.py] (class
    [SpotifyReleaseMonitor]), with the properties of their date-window
    extraction, deduplication, catalog lookup and notified-release ledger.

    Conventions of the embedding:
    - Python [str] is [string]; text is taken to be ASCII, so [lower] and
      [strip] act on the ASCII letters and the ASCII white space only.
    - a [datetime.date] is its proleptic Gregorian ordinal (a [Z], day 1 is
      0001-01-01) and [timedelta(days=k)] is the addition of [k];
    - an aware [datetime] is the number of microseconds since
      [datetime.min] in UTC (a [Z]);
    - a Python [dict] whose iteration order is observed is an association
      list in insertion order; the ledger [known_releases], whose order is
      never observed, is a [gmap];
    - [exit()] raises [SystemExit], which no [except Exception] handler of
      the program catches. *)

From Stdlib Require Import ZArith Ascii Lia Bool.
From Stdlib Require String.
From stdpp Require Import base option list sorting gmap strings pretty.

Local Open Scope Z_scope.

(** ** Python string operations used by the two programs *)
Module PyStr.

(** [str.isspace] on one ASCII character. *)
Definition isspace (c : ascii) : bool :=
  let n := nat_of_ascii c in
  ((9 <=? n)%nat && (n <=? 13)%nat) || ((28 <=? n)%nat && (n <=? 32)%nat).

Definition lower_char (c : ascii) : ascii :=
  let n := nat_of_ascii c in
  if ((65 <=? n)%nat && (n <=? 90)%nat)%bool then ascii_of_nat (n + 32) else c.

(** [s.lower()] *)
Fixpoint lower (s : string) : string :=
  match s with
  | EmptyString => EmptyString
  | String c s' => String (lower_char c) (lower s')
  end.

Fixpoint lstrip (s : string) : string :=
  match s with
  | EmptyString => EmptyString
  | String c s' => if isspace c then lstrip s' else s
  end.

Fixpoint rstrip (s : string) : string :=
  match s with
  | EmptyString => EmptyString
  | String c s' =>
      match rstrip s' with
      | EmptyString => if isspace c then EmptyString else String c EmptyString
      | r => String c r
      end
  end.

(** [s.strip()] *)
Definition strip (s : string) : string := rstrip (lstrip s).

Definition eqb (s t : string) : bool := bool_decide (s = t).

(** [s.startswith(p)] *)
Definition startswith (p s : string) : bool := String.prefix p s.

Fixpoint rev_string (s : string) : string :=
  match s with
  | EmptyString => EmptyString
  | String c s' => rev_string s' +:+ String c EmptyString
  end.

(** [s.endswith(p)] *)
Definition endswith (p s : string) : bool :=
  String.prefix (rev_string p) (rev_string s).

(** [s.replace(old, new)] for a non-empty [old]: occurrences are found
    from the left and do not overlap. [skip] counts the characters of a
    matched occurrence that are still to be dropped. *)
Fixpoint replace_go (old new : string) (skip : nat) (s : string) : string :=
  match s with
  | EmptyString => EmptyString
  | String c s' =>
      match skip with
      | S k => replace_go old new k s'
      | O =>
          if String.prefix old s
          then new +:+ replace_go old new (String.length old - 1) s'
          else String c (replace_go old new 0 s')
      end
  end.

Definition replace (old new s : string) : string := replace_go old new 0 s.

(** [s.split(sep)] for a non-empty [sep]; [cur] is the segment being
    read. *)
Fixpoint split_go (sep : string) (skip : nat) (cur : string) (s : string)
  : list string :=
  match s with
  | EmptyString => [cur]
  | String c s' =>
      match skip with
      | S k => split_go sep k cur s'
      | O =>
          if String.prefix sep s
          then cur :: split_go sep (String.length sep - 1) EmptyString s'
          else split_go sep 0 (cur +:+ String c EmptyString) s'
      end
  end.

Definition split (sep s : string) : list string :=
  split_go sep 0 EmptyString s.

(** [sep.join(l)] *)
Fixpoint join (sep : string) (l : list string) : string :=
  match l with
  | [] => EmptyString
  | [x] => x
  | x :: rest => x +:+ sep +:+ join sep rest
  end.

(** A number printed with at least two characters, padded on the left
    with [pad] (the [%m], [%d] and [%e] fields of [strftime]). *)
Definition pad2 (pad : string) (n : Z) : string :=
  if n <? 10 then pad +:+ pretty n else pretty n.

End PyStr.

(** ** [datetime.date]: ordinals, fields and [strftime] *)
Module Calendar.

Definition is_leap (year : Z) : bool :=
  (year mod 4 =? 0) && (negb (year mod 100 =? 0) || (year mod 400 =? 0)).

Definition days_before_year (year : Z) : Z :=
  let y := year - 1 in y * 365 + y / 4 - y / 100 + y / 400.

Definition days_in_month_table (month : Z) : Z :=
  match month with
  | 1 => 31 | 2 => 28 | 3 => 31 | 4 => 30 | 5 => 31 | 6 => 30
  | 7 => 31 | 8 => 31 | 9 => 30 | 10 => 31 | 11 => 30 | 12 => 31
  | _ => 0
  end.

Definition days_before_month_table (month : Z) : Z :=
  match month with
  | 1 => 0 | 2 => 31 | 3 => 59 | 4 => 90 | 5 => 120 | 6 => 151
  | 7 => 181 | 8 => 212 | 9 => 243 | 10 => 273 | 11 => 304 | 12 => 334
  | _ => 0
  end.

Definition days_in_month (year month : Z) : Z :=
  if (month =? 2) && is_leap year then 29 else days_in_month_table month.

Definition days_before_month (year month : Z) : Z :=
  days_before_month_table month
  + (if (2 <? month) && is_leap year then 1 else 0).

(** [_ymd2ord] *)
Definition ymd2ord (year month day : Z) : Z :=
  days_before_year year + days_before_month year month + day.

Definition DI400Y : Z := 146097.
Definition DI100Y : Z := 36524.
Definition DI4Y : Z := 1461.

(** The end of [_ord2ymd]: month and day of the [n]-th day (from 0) of
    a year. The month is first estimated, too large by one at times, and
    then set right. *)
Definition month_day (n : Z) (leapyear : bool) : Z * Z :=
  let month := Z.shiftr (n + 50) 5 in
  let preceding :=
    days_before_month_table month
    + (if (2 <? month) && leapyear then 1 else 0) in
  if n <? preceding
  then
    let month := month - 1 in
    let preceding :=
      preceding
      - (days_in_month_table month
         + (if (month =? 2) && leapyear then 1 else 0)) in
    (month, n - preceding + 1)
  else (month, n - preceding + 1).

(** [_ord2ymd] *)
Definition ord2ymd (ordinal : Z) : Z * Z * Z :=
  let n := ordinal - 1 in
  let n400 := n / DI400Y in
  let n := n mod DI400Y in
  let year := n400 * 400 + 1 in
  let n100 := n / DI100Y in
  let n := n mod DI100Y in
  let n4 := n / DI4Y in
  let n := n mod DI4Y in
  let n1 := n / 365 in
  let n := n mod 365 in
  let year := year + n100 * 100 + n4 * 4 + n1 in
  if (n1 =? 4) || (n100 =? 4) then (year - 1, 12, 31)
  else
    let leapyear := (n1 =? 3) && (negb (n4 =? 24) || (n100 =? 3)) in
    (year, fst (month_day n leapyear), snd (month_day n leapyear)).

Definition year (d : Z) : Z := fst (fst (ord2ymd d)).
Definition month (d : Z) : Z := snd (fst (ord2ymd d)).
Definition day (d : Z) : Z := snd (ord2ymd d).

(** [%B] in the C locale *)
Definition month_name (m : Z) : string :=
  match m with
  | 1 => "January" | 2 => "February" | 3 => "March" | 4 => "April"
  | 5 => "May" | 6 => "June" | 7 => "July" | 8 => "August"
  | 9 => "September" | 10 => "October" | 11 => "November"
  | 12 => "December" | _ => ""
  end.

(** [d.strftime('%Y-%m-%d')] *)
Definition strftime_Y_m_d (d : Z) : string :=
  pretty (year d) +:+ "-" +:+ PyStr.pad2 "0" (month d)
    +:+ "-" +:+ PyStr.pad2 "0" (day d).

(** [d.strftime('%e %B %Y')]: [%e] is the day of the month padded with
    a space to two characters. *)
Definition strftime_e_B_Y (d : Z) : string :=
  PyStr.pad2 " " (day d) +:+ " " +:+ month_name (month d)
    +:+ " " +:+ pretty (year d).

(** [d.strftime('%B %Y')] *)
Definition strftime_B_Y (d : Z) : string :=
  month_name (month d) +:+ " " +:+ pretty (year d).

(** [d.strftime('||%m/||%d')] *)
Definition strftime_bars_m_d (d : Z) : string :=
  "||" +:+ PyStr.pad2 "0" (month d) +:+ "/||" +:+ PyStr.pad2 "0" (day d).

(** [d.strftime('%B||%d')] *)
Definition strftime_B_bars_d (d : Z) : string :=
  month_name (month d) +:+ "||" +:+ PyStr.pad2 "0" (day d).

(** [.replace('||0','||').replace('||','')]: drops the leading zero of
    the fields marked with [||]. *)
Definition unpad (s : string) : string :=
  PyStr.replace "||" "" (PyStr.replace "||0" "||" s).

Definition digit (c : ascii) : option Z :=
  let n := nat_of_ascii c in
  if ((48 <=? n)%nat && (n <=? 57)%nat)%bool
  then Some (Z.of_nat n - 48) else None.

Definition microseconds_per_day : Z := 86400000000.

(** [datetime.strptime(s, '%Y-%m-%d').replace(tzinfo=timezone.utc)] on
    the ten-character form [YYYY-MM-DD], which is how the catalog writes
    a date of day precision: the midnight that starts the day, or [None]
    where Python raises [ValueError]. (Python also reads months and days
    written with one digit; the programs are stated over any parser and
    use this one on concrete inputs only.) *)
Definition strptime_Y_m_d (s : string) : option Z :=
  match s with
  | String y1 (String y2 (String y3 (String y4 (String "-"
      (String m1 (String m2 (String "-"
        (String d1 (String d2 EmptyString))))))))) =>
      match digit y1, digit y2, digit y3, digit y4,
            digit m1, digit m2, digit d1, digit d2 with
      | Some a, Some b, Some c, Some d, Some e, Some f, Some g, Some h =>
          let y := 1000 * a + 100 * b + 10 * c + d in
          let m := 10 * e + f in
          let dd := 10 * g + h in
          if (1 <=? y) && (1 <=? m) && (m <=? 12)
             && (1 <=? dd) && (dd <=? days_in_month y m)
          then Some ((ymd2ord y m dd - 1) * microseconds_per_day)
          else None
      | _, _, _, _, _, _, _, _ => None
      end
  | _ => None
  end.

(** [d.weekday()]: Monday is 0 and Sunday is 6. *)
Definition weekday (d : Z) : Z := (d + 6) mod 7.

(** The check of [month_day] on one day of the year. *)
Definition month_day_ok (leapyear : bool) (n : Z) : bool :=
  let m := fst (month_day n leapyear) in
  let d := snd (month_day n leapyear) in
  (1 <=? m) && (m <=? 12) && (1 <=? d) && (d <=? 31)
  && (days_before_month_table m
      + (if (2 <? m) && leapyear then 1 else 0) + d =? n + 1).

(** The two-character rendering of [a] differs from that of any other
    number below 32. *)
Definition pad2_distinct (a : Z) : bool :=
  forallb (fun b => implb (bool_decide (PyStr.pad2 "0" a = PyStr.pad2 "0" b))
                      (a =? b)) (seqZ 0 32).

(** The strings without the sign [-]. *)
Fixpoint no_dash (s : string) : Prop :=
  match s with
  | EmptyString => True
  | String c s' => c <> "-"%char /\ no_dash s'
  end.

(** The strings without white space. *)
Fixpoint no_space (s : string) : Prop :=
  match s with
  | EmptyString => True
  | String c s' => PyStr.isspace c = false /\ no_space s'
  end.

(** The check of the renderings without padding on one month and one
    day: [||%m/||%d] and [%B||%d] after the two [replace], and [%e]
    after [lstrip]. *)
Definition formats_ok (m d : Z) : bool :=
  bool_decide (unpad ("||" +:+ PyStr.pad2 "0" m +:+ "/||" +:+ PyStr.pad2 "0" d)
               = pretty m +:+ "/" +:+ pretty d)
  && bool_decide (unpad (month_name m +:+ "||" +:+ PyStr.pad2 "0" d)
                  = month_name m +:+ pretty d)
  && bool_decide (PyStr.lstrip (PyStr.pad2 " " d +:+ " " +:+ month_name m)
                  = pretty d +:+ " " +:+ month_name m).

End Calendar.


(** ** The Spotify release monitor ([neumusic_spotify_specific.py]) *)
Module Monitor.

(** An album object of the catalog, with the fields the monitor reads. *)
Record album := {
  al_id : string;
  al_name : string;
  al_album_type : string;
  al_release_date : string;
  al_release_date_precision : string;
  al_url : string
}.

(** The dictionaries that [get_artist_releases] appends. *)
Record release := {
  r_id : string;
  r_name : string;
  r_type : string;
  r_release_date : string;
  r_url : string
}.

(** A value of [data["known_releases"]]. *)
Record known_release := {
  k_artist_id : string;
  k_artist_name : string;
  k_name : string;
  k_type : string;
  k_release_date : string;
  k_url : string
}.

(** A value of [data["artists"]]; [last_check] is the parsed ISO
    timestamp, [None] for a [None] (or empty) entry. *)
Record artist_info := {
  name : string;
  last_check : option Z
}.

Record data := {
  artists : list (string * artist_info);
  known_releases : gmap string known_release;
  last_artist_update : option Z
}.

(** The paged answer of [sp.artist_albums] followed by [sp.next]: a
    finite chain of pages in which a later request may raise. *)
Inductive page :=
| PageLast (items : list album)
| PageThen (items : list album) (rest : page)
| PageThenRaises (items : list album).

(** [all_albums] after the [while albums['next']] loop, [None] when a
    call raised. *)
Fixpoint all_albums (p : page) : option (list album) :=
  match p with
  | PageLast items => Some items
  | PageThen items rest =>
      match all_albums rest with
      | Some more => Some (items ++ more)
      | None => None
      end
  | PageThenRaises _ => None
  end.

Definition release_of (a : album) : release :=
  {| r_id := al_id a; r_name := al_name a; r_type := al_album_type a;
     r_release_date := al_release_date a; r_url := al_url a |}.

Definition release_key (artist_id : string) (r : release) : string :=
  artist_id +:+ "_" +:+ r_id r.

Definition record_of (artist_id : string) (info : artist_info) (r : release)
  : known_release :=
  {| k_artist_id := artist_id; k_artist_name := name info;
     k_name := r_name r; k_type := r_type r;
     k_release_date := r_release_date r; k_url := r_url r |}.

(** [release_key not in self.data["known_releases"]], negated. *)
Definition is_known (key : string) (known : gmap string known_release) : bool :=
  bool_decide (is_Some (known !! key)).

(** [self.data["known_releases"][release_key] = {...}] *)
Definition record_release (artist_id : string) (info : artist_info)
    (r : release) (known : gmap string known_release)
  : gmap string known_release :=
  <[release_key artist_id r := record_of artist_id info r]> known.

(** The batch [releases_to_send_emails_for]: artist id to artist name and
    releases, in insertion order. *)
Abbreviation batch := (list (string * (string * list release))).

(** A date test of [check_for_new_releases] as it is made: the index of
    the first of its two clock readings, the entry of the artist and the
    release. *)
Abbreviation check := (nat * (string * artist_info) * release)%type.

Definition batch_add (artist_id : string) (info : artist_info) (r : release)
    (b : batch) : batch :=
  let b' :=
    if bool_decide (artist_id ∈ fmap fst b) then b
    else b ++ [(artist_id, (name info, []))] in
  fmap (fun e : string * (string * list release) =>
         if bool_decide (fst e = artist_id)
         then (fst e, (fst (snd e), snd (snd e) ++ [r]))
         else e) b'.

(** [self.data["artists"][artist_id]['last_check'] = t] *)
Definition set_last_check (artist_id : string) (t : Z)
    (l : list (string * artist_info)) : list (string * artist_info) :=
  fmap (fun e : string * artist_info =>
         if bool_decide (fst e = artist_id)
         then (fst e, {| name := name (snd e); last_check := Some t |})
         else e) l.

(** The sort key of [check_for_new_releases]: the last check, or
    [datetime.min] (zero microseconds) for an artist never checked. *)
Definition sort_key (e : string * artist_info) : Z :=
  match last_check (snd e) with
  | Some t => t
  | None => 0
  end.

(** [sorted(items, key=...)]. Python's sort is stable, and the stable
    sorted arrangement of a list is unique ([stable_sort_unique] below),
    so it is given here by stable insertion. *)
Fixpoint insert_by_key (x : string * artist_info)
    (l : list (string * artist_info)) : list (string * artist_info) :=
  match l with
  | [] => [x]
  | y :: l' =>
      if sort_key x <=? sort_key y then x :: y :: l'
      else y :: insert_by_key x l'
  end.

Definition sorted_artists (l : list (string * artist_info))
  : list (string * artist_info) :=
  foldr insert_by_key [] l.

(** The order of the sort keys, and the entries that carry a given
    key. *)
Definition key_le (a b : string * artist_info) : Prop :=
  sort_key a <= sort_key b.

Definition has_key_value (k : Z) (e : string * artist_info) : Prop :=
  sort_key e = k.

#[global] Instance has_key_value_dec k e : Decision (has_key_value k e).
Proof. unfold has_key_value. apply _. Defined.

Section Pass.

(** The collaborators of one pass. *)
Variable strptime : string -> option Z.
(** [sp.artist_albums(artist_id, ...)], [None] when the call raises. *)
Variable sp_artist_albums : string -> option page.
(** The date of the [n]-th [datetime.now()] of the pass. *)
Variable clock : nat -> Z.

(** The [for album in all_albums] loop. A date that does not parse
    raises inside the [try]: the loop is left and the releases appended
    so far are returned. *)
Fixpoint select_releases (since_date : option Z) (albums : list album)
  : list release :=
  match albums with
  | [] => []
  | a :: rest =>
      if negb (PyStr.eqb (al_release_date_precision a) "day")
      then select_releases since_date rest
      else
        match strptime (al_release_date a) with
        | None => []
        | Some release_datetime =>
            if match since_date with
               | None => true
               | Some since => since <? release_datetime
               end
            then release_of a :: select_releases since_date rest
            else select_releases since_date rest
        end
  end.

Definition get_artist_releases (artist_id : string)
    (since_date : option Z) : list release :=
  match sp_artist_albums artist_id with
  | None => []
  | Some first =>
      match all_albums first with
      | None => []
      | Some albums => select_releases since_date albums
      end
  end.

(** The entries that [get_artist_releases] is to keep: of day precision
    and, when [since_date] is given, dated strictly after it. *)
Definition selected (since_date : option Z) (a : album) : bool :=
  PyStr.eqb (al_release_date_precision a) "day"
  && match since_date with
     | None => true
     | Some since =>
         match strptime (al_release_date a) with
         | Some release_datetime => since <? release_datetime
         | None => false
         end
     end.

(** What the pass carries from one release to the next. *)
Record pass_state := {
  ps_artists : list (string * artist_info);
  ps_known : gmap string known_release;
  ps_batch : batch;
  ps_ticks : nat
}.

(** The body of [for release in releases]. The two [datetime.now()]
    calls are made only when the key is not in the ledger. *)
Definition process_release (artist_id : string) (info : artist_info)
    (s : pass_state) (r : release) : pass_state :=
  if is_known (release_key artist_id r) (ps_known s) then s
  else
    let today := Calendar.strftime_Y_m_d (clock (ps_ticks s)) in
    let yesterday :=
      Calendar.strftime_Y_m_d (clock (S (ps_ticks s)) + (-1)) in
    if PyStr.eqb (r_release_date r) today
       || PyStr.eqb (r_release_date r) yesterday
    then {| ps_artists := ps_artists s;
            ps_known := record_release artist_id info r (ps_known s);
            ps_batch := batch_add artist_id info r (ps_batch s);
            ps_ticks := S (S (ps_ticks s)) |}
    else {| ps_artists := ps_artists s;
            ps_known := ps_known s;
            ps_batch := ps_batch s;
            ps_ticks := S (S (ps_ticks s)) |}.

(** The body of [for artist_id, artist_info in sorted_artists]. The
    state is written to its file by [save_data] after each artist; the
    file itself is not part of the model. *)
Definition check_artist (current_time : Z) (s : pass_state)
    (e : string * artist_info) : pass_state :=
  let releases := get_artist_releases (fst e) (last_check (snd e)) in
  let s' := fold_left (process_release (fst e) (snd e)) releases s in
  {| ps_artists := set_last_check (fst e) current_time (ps_artists s');
     ps_known := ps_known s';
     ps_batch := ps_batch s';
     ps_ticks := ps_ticks s' |}.

Definition run_pass (current_time : Z) (d : data) : pass_state :=
  fold_left (check_artist current_time) (sorted_artists (artists d))
    {| ps_artists := artists d; ps_known := known_releases d;
       ps_batch := []; ps_ticks := O |}.

(** The result of [check_for_new_releases]: the new state and the
    batches handed to [send_email_notification]. *)
Record pass_result := {
  new_data : data;
  sent : list batch
}.

Definition check_for_new_releases (current_time : Z) (d : data)
  : pass_result :=
  let s := run_pass current_time d in
  {| new_data := {| artists := ps_artists s;
                    known_releases := ps_known s;
                    last_artist_update := last_artist_update d |};
     sent := if (0 <? length (ps_batch s))%nat then [ps_batch s] else [] |}.

(** [run_initial_scan]: every release of every artist goes to the
    ledger, nothing is sent. [utc_now n] is the time read after the
    [n]-th artist. *)
Definition scan_artist (utc_now : nat -> Z)
    (s : list (string * artist_info) * gmap string known_release * nat)
    (e : string * artist_info)
  : list (string * artist_info) * gmap string known_release * nat :=
  let '(arts, known, n) := s in
  let releases := get_artist_releases (fst e) None in
  let known' :=
    fold_left (fun k r => record_release (fst e) (snd e) r k)
      releases known in
  (set_last_check (fst e) (utc_now n) arts, known', S n).

Definition run_initial_scan (utc_now : nat -> Z) (d : data) : pass_result :=
  let '(arts, known, _) :=
    fold_left (scan_artist utc_now) (artists d)
      (artists d, known_releases d, O) in
  {| new_data := {| artists := arts; known_releases := known;
                    last_artist_update := last_artist_update d |};
     sent := [] |}.

(** The date tests of line 235 that the loop over the releases of one
    artist makes from the state [s] on: one for each release whose key is
    not in the ledger when its turn comes, with the index of the first of
    its two clock readings. *)
Fixpoint release_checks (artist_id : string) (info : artist_info)
    (s : pass_state) (releases : list release) : list check :=
  match releases with
  | [] => []
  | r :: rest =>
      (if is_known (release_key artist_id r) (ps_known s) then []
       else [(ps_ticks s, (artist_id, info), r)])
        ++ release_checks artist_id info (process_release artist_id info s r)
             rest
  end.

(** The date tests made for the artists [es], from the state [s] on. *)
Fixpoint artist_checks (current_time : Z) (s : pass_state)
    (es : list (string * artist_info)) : list check :=
  match es with
  | [] => []
  | e :: rest =>
      release_checks (fst e) (snd e) s
        (get_artist_releases (fst e) (last_check (snd e)))
        ++ artist_checks current_time (check_artist current_time s e) rest
  end.

(** The date tests of a pass, in the order in which they are made. *)
Definition pass_checks (current_time : Z) (d : data) : list check :=
  artist_checks current_time
    {| ps_artists := artists d; ps_known := known_releases d;
       ps_batch := []; ps_ticks := O |}
    (sorted_artists (artists d)).

End Pass.

(** The releases of a batch, each with the artist it is listed under. *)
Definition batch_pairs (b : batch) : list (string * release) :=
  b ≫= (fun e => (fun r => (fst e, r)) <$> snd (snd e)).

(** The date test of line 235 at the check whose two clock readings are
    the [n]-th and the one after it: the date is the rendering of the
    first reading, or that of the day before the second. *)
Definition fresh_date (clock : nat -> Z) (n : nat) (date : string) : Prop :=
  date = Calendar.strftime_Y_m_d (clock n)
  \/ date = Calendar.strftime_Y_m_d (clock (S n) + (-1)).

(** What holds of the state of a pass that started from the ledger
    [known0]. *)
Record pass_inv (known0 : gmap string known_release)
    (s : pass_state) : Prop := {
  inv_kept : forall k v, known0 !! k = Some v -> ps_known s !! k = Some v;
  inv_batch : forall a r, (a, r) ∈ batch_pairs (ps_batch s) ->
    known0 !! release_key a r = None
    /\ is_Some (ps_known s !! release_key a r);
  inv_nonempty : forall e, e ∈ ps_batch s -> snd (snd e) <> []
}.

(** What a stretch of a pass, from the state [s] to the state [s'] and
    with the date tests [log], has added: the batch and the ledger of
    [s'] hold what those of [s] held and, besides, exactly the releases
    whose date test succeeded at their own check. *)
Definition accounts (clock : nat -> Z) (s s' : pass_state)
    (log : list check) : Prop :=
  (forall a r, (a, r) ∈ batch_pairs (ps_batch s')
     <-> (a, r) ∈ batch_pairs (ps_batch s)
         \/ exists n info, (n, (a, info), r) ∈ log
                           /\ fresh_date clock n (r_release_date r))
  /\ (forall k v, ps_known s' !! k = Some v
        <-> ps_known s !! k = Some v
            \/ exists n e r, (n, e, r) ∈ log
                  /\ fresh_date clock n (r_release_date r)
                  /\ k = release_key (fst e) r
                  /\ v = record_of (fst e) (snd e) r).

(** *** A sample state and catalog for 2025-06-27 *)

Definition sample_album (id date precision : string) : album :=
  {| al_id := id; al_name := "Release " +:+ id; al_album_type := "album";
     al_release_date := date; al_release_date_precision := precision;
     al_url := "https://open.spotify.com/album/" +:+ id |}.

Definition sample_listing : list album :=
  [ sample_album "a1" "2025-06-27" "day";
    sample_album "a2" "2019" "year";
    sample_album "a3" "2025-06-20" "day" ].

(** The listing of one artist comes in two pages; the call for any other
    artist raises. *)
Definition sample_catalog (artist_id : string) : option page :=
  if PyStr.eqb artist_id "drake"
  then Some (PageThen [sample_album "a1" "2025-06-27" "day"]
               (PageLast [sample_album "a2" "2019" "year";
                          sample_album "a3" "2025-06-20" "day"]))
  else None.

(** Midnight of 2025-06-25, in microseconds since [datetime.min]. *)
Definition sample_since : Z :=
  (Calendar.ymd2ord 2025 6 25 - 1) * Calendar.microseconds_per_day.

Definition sample_data : data :=
  {| artists :=
       [ ("lorde", {| name := "Lorde"; last_check := Some sample_since |});
         ("drake", {| name := "Drake"; last_check := None |}) ];
     known_releases := ∅;
     last_artist_update := None |}.

(** A pass that crosses midnight: the first two readings of the clock
    fall on 2025-06-27, the later ones on 2025-06-28. *)
Definition midnight_clock (n : nat) : Z :=
  if (n <? 2)%nat then Calendar.ymd2ord 2025 6 27
  else Calendar.ymd2ord 2025 6 28.

Definition midnight_catalog (artist_id : string) : option page :=
  if PyStr.eqb artist_id "drake"
  then Some (PageLast [sample_album "a1" "2025-06-27" "day";
                       sample_album "a4" "2025-06-26" "day"])
  else None.

(** *** The list of artists and the start of the monitor *)

(** The structure that [load_data] creates when there is no file. *)
Definition fresh_data : data :=
  {| artists := []; known_releases := ∅; last_artist_update := None |}.

(** The body of the loop of [update_artist_list]: an artist whose id is
    not tracked yet is added at the end, never checked. *)
Definition add_artist (arts : list (string * artist_info))
    (a : string * string) : list (string * artist_info) :=
  if bool_decide (fst a ∈ fst <$> arts) then arts
  else arts ++ [(fst a, {| name := snd a; last_check := None |})].

(** [update_artist_list]. [all_artists] lists the pairs of id and name of
    the set [top_artists.union(playlist_artists)] in the order in which
    the loop meets them, an order that Python leaves open. *)
Definition update_artist_list (all_artists : list (string * string))
    (current_time : Z) (d : data) : data :=
  {| artists := fold_left add_artist all_artists (artists d);
     known_releases := known_releases d;
     last_artist_update := Some current_time |}.

(** [not any(artist['last_check'] for artist in ...)] of [run_monitor]. *)
Definition first_run (d : data) : bool :=
  negb (existsb (fun e : string * artist_info =>
                   bool_decide (is_Some (last_check (snd e)))) (artists d)).

(** [run_monitor] from its start to the end of the first pass of its
    loop, when nothing raises: the first scan when no artist was ever
    checked, then, [loop_num] being 0, the update of the list, then the
    pass. *)
Definition run_monitor_first_round (strptime : string -> option Z)
    (sp_artist_albums : string -> option page) (clock : nat -> Z)
    (utc_now : nat -> Z) (all_artists : list (string * string))
    (update_time current_time : Z) (d : data) : pass_result :=
  let d1 :=
    if first_run d
    then new_data (run_initial_scan strptime sp_artist_albums utc_now d)
    else d in
  check_for_new_releases strptime sp_artist_albums clock current_time
    (update_artist_list all_artists update_time d1).

(** The keys under which the releases of a batch are recorded. *)
Definition batch_keys (b : batch) : list string :=
  (fun p : string * release => release_key (fst p) (snd p)) <$> batch_pairs b.

(** Each artist and each key of the batch is there once, and the keys
    are in the ledger. *)
Definition batch_inv (s : pass_state) : Prop :=
  NoDup (fst <$> ps_batch s)
  /\ NoDup (batch_keys (ps_batch s))
  /\ (forall k, k ∈ batch_keys (ps_batch s) -> is_Some (ps_known s !! k)).

(** The entry of [artists] after its check. *)
Definition stamped (t : Z) (e : string * artist_info) : string * artist_info :=
  (fst e, {| name := name (snd e); last_check := Some t |}).

(** *** The artists to follow *)

(** A paged answer of the catalog as [sp.next] walks it: a finite chain
    of pages in which a later request may raise. *)
Inductive paged (A : Type) :=
| PagedLast (items : list A)
| PagedThen (items : list A) (rest : paged A)
| PagedThenRaises (items : list A).
Arguments PagedLast {A} items.
Arguments PagedThen {A} items rest.
Arguments PagedThenRaises {A} items.

(** The items of all the pages, [None] when a request raises. *)
Fixpoint all_items {A : Type} (p : paged A) : option (list A) :=
  match p with
  | PagedLast items => Some items
  | PagedThen items rest =>
      match all_items rest with
      | Some more => Some (items ++ more)
      | None => None
      end
  | PagedThenRaises _ => None
  end.

(** The items of the pages that were received. *)
Fixpoint received {A : Type} (p : paged A) : list A :=
  match p with
  | PagedLast items => items
  | PagedThen items rest => items ++ received rest
  | PagedThenRaises items => items
  end.

Record playlist := {
  pl_id : string;
  pl_name : string
}.

Definition named (playlist_name : string) (pl : playlist) : bool :=
  PyStr.eqb (pl_name pl) playlist_name.

(** The [while playlists] loop of [get_artists_from_playlist]: the first
    page is searched, and the next page is asked for only when the
    playlist is not on it. [None] when a request raises, [Some None]
    when no page is left. *)
Fixpoint find_playlist (playlist_name : string) (playlists : paged playlist)
  : option (option playlist) :=
  match playlists with
  | PagedLast items => Some (List.find (named playlist_name) items)
  | PagedThen items rest =>
      match List.find (named playlist_name) items with
      | Some target_playlist => Some (Some target_playlist)
      | None => find_playlist playlist_name rest
      end
  | PagedThenRaises items =>
      match List.find (named playlist_name) items with
      | Some target_playlist => Some (Some target_playlist)
      | None => None
      end
  end.

(** What one item of a playlist adds: the pairs of id and name of the
    artists of its track, nothing for an item whose track is null. *)
Definition item_artists (item : option (list (string * string)))
  : list (string * string) :=
  default [] item.

(** The [while tracks] loop. *)
Fixpoint playlist_artists (tracks : paged (option (list (string * string))))
    (artists : gset (string * string)) : option (gset (string * string)) :=
  match tracks with
  | PagedLast items => Some (artists ∪ list_to_set (items ≫= item_artists))
  | PagedThen items rest =>
      playlist_artists rest (artists ∪ list_to_set (items ≫= item_artists))
  | PagedThenRaises _ => None
  end.

(** [get_artists_from_playlist]: the set it returns, [None] when a call
    of the catalog raises. [current_user_playlists] is the answer of
    [sp.current_user_playlists()] and [playlist_tracks id] that of
    [sp.playlist_tracks(id)], [None] when the first request raises. *)
Definition get_artists_from_playlist
    (current_user_playlists : option (paged playlist))
    (playlist_tracks : string -> option (paged (option (list (string * string)))))
    (playlist_name : string) : option (gset (string * string)) :=
  match current_user_playlists with
  | None => None
  | Some playlists =>
      match find_playlist playlist_name playlists with
      | None => None
      | Some None => Some ∅
      | Some (Some target_playlist) =>
          match playlist_tracks (pl_id target_playlist) with
          | Some tracks => playlist_artists tracks ∅
          | None => None
          end
      end
  end.

Definition time_ranges : list string :=
  ["short_term"; "medium_term"; "long_term"].

(** The body of the loop of [get_top_artists] over the time ranges:
    the top artists of the range, then the artists of its top tracks. *)
Definition add_top_of_range
    (current_user_top_artists : string -> option (paged (string * string)))
    (current_user_top_tracks : string -> option (paged (list (string * string))))
    (artists : option (gset (string * string))) (time_range : string)
  : option (gset (string * string)) :=
  match artists with
  | None => None
  | Some artists =>
      match current_user_top_artists time_range ≫= all_items with
      | None => None
      | Some all_artists =>
          match current_user_top_tracks time_range ≫= all_items with
          | None => None
          | Some all_tracks =>
              Some (artists ∪ list_to_set all_artists
                      ∪ list_to_set (concat all_tracks))
          end
      end
  end.

(** [get_top_artists], [None] when a call of the catalog raises. *)
Definition get_top_artists
    (current_user_top_artists : string -> option (paged (string * string)))
    (current_user_top_tracks : string -> option (paged (list (string * string))))
  : option (gset (string * string)) :=
  fold_left
    (add_top_of_range current_user_top_artists current_user_top_tracks)
    time_ranges (Some ∅).

End Monitor.

(** ** The Friday album digest ([neumusic_friday_specific.py]) *)
Module Friday.

(** The dictionary built by [get_tomorrow_date], with the entries the
    scrapers and the catalog search read. *)
Record target_date := {
  date_obj : Z;
  month_year : string;
  metacritic_format : string;
  genius_format : string;
  wikipedia_format : string;
  spotify_format : string;
  year : Z
}.

Definition get_tomorrow_date (today : Z) : target_date :=
  let tomorrow := today + 1 in
  {| date_obj := tomorrow;
     month_year := Calendar.strftime_B_Y tomorrow;
     metacritic_format := PyStr.strip (Calendar.strftime_e_B_Y tomorrow);
     genius_format := Calendar.unpad (Calendar.strftime_bars_m_d tomorrow);
     wikipedia_format := Calendar.unpad (Calendar.strftime_B_bars_d tomorrow);
     spotify_format := Calendar.strftime_Y_m_d tomorrow;
     year := Calendar.year tomorrow |}.

(** A function that either returns or leaves through [exit()]. *)
Inductive outcome (A : Type) :=
| Returns (a : A)
| SystemExit.
Arguments Returns {A} a.
Arguments SystemExit {A}.

(** The test on the text of a date marker: [Some true] when the window
    opens, [None] for [break], otherwise the flag is kept. *)
Definition see_marker (window_start window_end text : string)
    (date_active : bool) : option bool :=
  if PyStr.eqb text window_start then Some true
  else if PyStr.eqb text window_end then None
  else Some date_active.

(** *** Metacritic *)

(** A [tr] of the release table: the text of its [th], of its
    [artistName] cell and of its [albumTitle] cell, where present. *)
Record mc_row := {
  mc_th : option string;
  mc_artist : option string;
  mc_album : option string
}.

Definition metacritic_window_end (td : target_date) : string :=
  Calendar.strftime_e_B_Y (date_obj td + 7).

(** A row without [th] raises inside the inner [try] and is passed. *)
Definition metacritic_marker (td : target_date) (item : mc_row)
    (date_active : bool) : option bool :=
  match mc_th item with
  | Some t =>
      see_marker (metacritic_format td) (metacritic_window_end td)
        (PyStr.strip t) date_active
  | None => Some date_active
  end.

(** A row that lacks one of the two cells raises and is logged. *)
Definition metacritic_entry (item : mc_row) : list (string * string) :=
  match mc_artist item, mc_album item with
  | Some artist, Some album => [(PyStr.strip artist, PyStr.strip album)]
  | _, _ => []
  end.

(** The [for item in album_items] loop: what is appended to
    [found_albums] from [items] on. *)
Fixpoint metacritic_rows (td : target_date) (items : list mc_row)
    (date_active : bool) : list (string * string) :=
  match items with
  | [] => []
  | item :: rest =>
      match metacritic_marker td item date_active with
      | None => []
      | Some active =>
          (if active then metacritic_entry item else [])
            ++ metacritic_rows td rest active
      end
  end.

(** [page] is the list of rows of the table, [None] when the request or
    the search for the table raises. *)
Definition scrape_metacritic (td : target_date)
    (page : option (list mc_row)) : outcome (list (string * string)) :=
  match page with
  | None => SystemExit
  | Some items =>
      match metacritic_rows td items false with
      | [] => SystemExit
      | found => Returns found
      end
  end.

(** *** Genius *)

Inductive tag := TagB | TagA.

Record g_item := {
  g_name : tag;
  g_text : string
}.

Definition genius_window_end (td : target_date) : string :=
  Calendar.unpad (Calendar.strftime_bars_m_d (date_obj td + 7)).

(** [item.text.strip().split(' - ')[:-1]], then the first segment and
    the others joined; [None] when [album_info[0]] raises. *)
Definition genius_entry (text : string) : option (string * string) :=
  match removelast (PyStr.split " - " (PyStr.strip text)) with
  | [] => None
  | artist :: rest => Some (artist, PyStr.join " - " rest)
  end.

Fixpoint genius_items (td : target_date) (items : list g_item)
    (date_active : bool) : list (string * string) :=
  match items with
  | [] => []
  | item :: rest =>
      match g_name item with
      | TagB =>
          match see_marker (genius_format td) (genius_window_end td)
                  (PyStr.strip (g_text item)) date_active with
          | None => []
          | Some active => genius_items td rest active
          end
      | TagA =>
          (if date_active
           then match genius_entry (g_text item) with
                | Some e => [e]
                | None => []
                end
           else [])
            ++ genius_items td rest date_active
      end
  end.

Definition scrape_genius (td : target_date)
    (page : option (list g_item)) : outcome (list (string * string)) :=
  match page with
  | None => SystemExit
  | Some items =>
      match genius_items td items false with
      | [] => SystemExit
      | found => Returns found
      end
  end.

(** *** Wikipedia *)

Record wiki_row := {
  w_th : option string;
  w_tds : list string
}.

Record wiki_table := {
  w_caption : option string;
  w_rows : list wiki_row
}.

Definition wikipedia_window_end (td : target_date) : string :=
  Calendar.unpad (Calendar.strftime_B_bars_d (date_obj td + 7)).

(** The rows of one table. The cells are read outside the inner [try]:
    a row with fewer than two cells raises and ends the table. *)
Fixpoint wikipedia_rows (td : target_date) (rows : list wiki_row)
    (date_active : bool) : list (string * string) :=
  match rows with
  | [] => []
  | row :: rest =>
      match
        match w_th row with
        | Some t =>
            see_marker (wikipedia_format td) (wikipedia_window_end td)
              (PyStr.strip t) date_active
        | None => Some date_active
        end
      with
      | None => []
      | Some true =>
          match w_tds row with
          | artist :: album :: _ =>
              (PyStr.strip artist, PyStr.strip album)
                :: wikipedia_rows td rest true
          | _ => []
          end
      | Some false => wikipedia_rows td rest false
      end
  end.

Definition wikipedia_table (td : target_date) (t : wiki_table)
  : list (string * string) :=
  match w_caption t with
  | Some c =>
      if PyStr.endswith (month_year td) (PyStr.strip c)
      then wikipedia_rows td (w_rows t) false
      else []
  | None => []
  end.

Definition scrape_wikipedia (td : target_date)
    (page : option (list wiki_table)) : outcome (list (string * string)) :=
  match page with
  | None => SystemExit
  | Some tables =>
      match concat (fmap (wikipedia_table td) tables) with
      | [] => SystemExit
      | found => Returns found
      end
  end.

(** *** The catalog *)

(** An album object of the search answer. *)
Record sp_album := {
  uri : string;
  total_tracks : Z;
  images : list string;
  spotify_url : string;
  release_date : string
}.

(** The dictionary returned by [search_spotify_album]. *)
Record spotify_info := {
  si_uri : string;
  si_tracks : Z;
  si_image_url : option string;
  si_spotify_url : string
}.

(** What [get_artist_info] returns. *)
Record artist_details := {
  genres : list string;
  followers : Z;
  popular_works : list string;
  artist_url : string
}.

(** Everything outside the program that one run reads: the three pages
    ([None] when fetching raises), [spotify.search(q, type='album',
    limit)] ([None] when it raises), [get_artist_info], which absorbs its
    own errors, and whether the mail server accepts the message. *)
Record world := {
  metacritic_page : option (list mc_row);
  genius_page : option (list g_item);
  wikipedia_page : option (list wiki_table);
  spotify_search : string -> nat -> option (list sp_album);
  get_artist_info : string -> artist_details;
  smtp_ok : bool
}.

(** [max(l, key=lambda x: x['total_tracks'])] on [best :: l]: the first
    album with the largest count. *)
Fixpoint max_total_tracks (best : sp_album) (l : list sp_album) : sp_album :=
  match l with
  | [] => best
  | x :: rest =>
      if total_tracks best <? total_tracks x
      then max_total_tracks x rest
      else max_total_tracks best rest
  end.

Definition accepted_date (td : target_date) (a : sp_album) : bool :=
  PyStr.eqb (release_date a) (spotify_format td)
  || PyStr.eqb (release_date a) (Calendar.strftime_Y_m_d (date_obj td + (-1))).

Definition info_of (best : sp_album) : spotify_info :=
  {| si_uri := uri best;
     si_tracks := total_tracks best;
     si_image_url := head (images best);
     si_spotify_url := spotify_url best |}.

Definition precise_query (artist album : string) : string :=
  "artist:" +:+ artist +:+ " album:" +:+ album.

Definition broad_query (artist album : string) : string :=
  artist +:+ " " +:+ album.

(** The answer that the date filter works on: the precise one, or the
    broad one when the precise one is empty; [None] when a call raises. *)
Definition candidates (w : world) (artist album : string)
  : option (list sp_album) :=
  match spotify_search w (precise_query artist album) 50%nat with
  | None => None
  | Some [] => spotify_search w (broad_query artist album) 50%nat
  | Some albums => Some albums
  end.

Definition search_spotify_album (w : world) (artist album : string)
    (td : target_date) : option spotify_info :=
  match candidates w artist album with
  | None => None
  | Some albums =>
      match filter (fun a => accepted_date td a = true) albums with
      | [] => None
      | first :: others => Some (info_of (max_total_tracks first others))
      end
  end.

(** *** The collection [self.albums] *)

Abbreviation akey := (string * string)%type.

Record entry := {
  sources : list string;
  spotify_info_of : option spotify_info;
  artist_info_of : option artist_details
}.

Abbreviation albums_t := (list (akey * entry)).

Definition has_key (key : akey) (albums : albums_t) : bool :=
  bool_decide (key ∈ fmap fst albums).

(** [del self.albums[key]] *)
Definition del (key : akey) (albums : albums_t) : albums_t :=
  filter (fun e => fst e <> key) albums.

(** The body of [for artist, album in albums_list]. *)
Definition add_mention (source_name : string) (albums : albums_t)
    (key : akey) : albums_t :=
  let albums' :=
    if has_key key albums then albums
    else albums ++ [(key, {| sources := []; spotify_info_of := None;
                             artist_info_of := None |})] in
  fmap (fun e : akey * entry =>
         if bool_decide (fst e = key)
         then (fst e, {| sources := sources (snd e) ++ [source_name];
                         spotify_info_of := spotify_info_of (snd e);
                         artist_info_of := artist_info_of (snd e) |})
         else e) albums'.

(** The loop over [sources_data]. *)
Definition process_sources
    (sources_data : list (string * list (string * string))) : albums_t :=
  fold_left
    (fun albums sd => fold_left (add_mention (fst sd)) (snd sd) albums)
    sources_data [].

Definition normalized (key : akey) : akey :=
  (PyStr.strip (PyStr.lower (fst key)), PyStr.strip (PyStr.lower (snd key))).

(** [info.get('tracks', 0) if info else 0] *)
Definition tracks_of (info : option spotify_info) : Z :=
  match info with
  | Some i => si_tracks i
  | None => 0
  end.

(** The body of the loop of [deduplicate_albums], on the collection and
    [seen_combinations] (normalized key to original key and
    [spotify_info]). *)
Definition dedup_step
    (s : albums_t * gmap akey (akey * option spotify_info))
    (item : akey * entry)
  : albums_t * gmap akey (akey * option spotify_info) :=
  let '(albums, seen) := s in
  let key := normalized (fst item) in
  match seen !! key with
  | Some existing =>
      let existing_tracks := tracks_of (snd existing) in
      let current_tracks := tracks_of (spotify_info_of (snd item)) in
      if existing_tracks <? current_tracks
      then (del (fst existing) albums,
            <[key := (fst item, spotify_info_of (snd item))]> seen)
      else (del (fst item) albums, seen)
  | None =>
      (albums, <[key := (fst item, spotify_info_of (snd item))]> seen)
  end.

(** The loop runs over [list(self.albums.items())], a copy made before
    anything is deleted. *)
Definition deduplicate_albums (albums : albums_t) : albums_t :=
  fst (fold_left dedup_step albums (albums, ∅)).

(** The loop that fills [spotify_info] and [artist_info]. *)
Definition enrich (w : world) (td : target_date) (albums : albums_t)
  : albums_t :=
  fmap (fun e : akey * entry =>
         (fst e,
          {| sources := sources (snd e);
             spotify_info_of :=
               search_spotify_album w (fst (fst e)) (snd (fst e)) td;
             artist_info_of := Some (get_artist_info w (fst (fst e))) |}))
    albums.

Definition bind {A B : Type} (o : outcome A) (f : A -> outcome B)
  : outcome B :=
  match o with
  | Returns a => f a
  | SystemExit => SystemExit
  end.

(** The three scrapers, called in this order while the list
    [sources_data] is built. *)
Definition scrape_all (w : world) (td : target_date)
  : outcome (list (string * list (string * string))) :=
  bind (scrape_metacritic td (metacritic_page w)) (fun m =>
  bind (scrape_genius td (genius_page w)) (fun g =>
  bind (scrape_wikipedia td (wikipedia_page w)) (fun k =>
  Returns [("Metacritic", m); ("Genius", g); ("Wikipedia", k)]))).

(** [collect_albums]: the final [self.albums], or [SystemExit]. *)
Definition collect_albums (w : world) (today : Z) : outcome albums_t :=
  let td := get_tomorrow_date today in
  bind (scrape_all w td) (fun sources_data =>
  Returns (enrich w td (deduplicate_albums (process_sources sources_data)))).

(** [run_once]: the collections handed to [send_email] (through the
    message composed from them) and the value returned. [run_once] reads
    the date once more for the heading of the message; the composition of
    the message is not part of the model. *)
Definition run_once (w : world) (today : Z) : list albums_t * outcome bool :=
  match collect_albums w today with
  | Returns albums => ([albums], Returns (smtp_ok w))
  | SystemExit => ([], SystemExit)
  end.

(** *** Vocabulary for the properties *)

Definition tracks (e : akey * entry) : Z := tracks_of (spotify_info_of (snd e)).

(** The entry that stands for the normalized key [nk] after the loop of
    [deduplicate_albums] has seen a list of entries: a later entry of the
    class replaces it when its count is strictly greater. *)
Definition champ_step (nk : akey) (c : option (akey * entry))
    (e : akey * entry) : option (akey * entry) :=
  if bool_decide (normalized (fst e) = nk)
  then match c with
       | None => Some e
       | Some b => if tracks b <? tracks e then Some e else Some b
       end
  else c.

Definition champ (nk : akey) (l : albums_t) : option (akey * entry) :=
  fold_left (champ_step nk) l None.

Definition survives (l : albums_t) (e : akey * entry) : Prop :=
  fst <$> champ (normalized (fst e)) l = Some (fst e).

#[global] Instance survives_dec l e : Decision (survives l e).
Proof. unfold survives. apply _. Defined.

Definition seen_entry (b : akey * entry) : akey * option spotify_info :=
  (fst b, spotify_info_of (snd b)).

(** The mentions of all sources, in the order in which [collect_albums]
    reads them, each with the name of its source. *)
Definition mentions (sources_data : list (string * list (string * string)))
  : list (string * akey) :=
  sources_data ≫= (fun sd => (fun key => (fst sd, key)) <$> snd sd).

Definition same_class (nk : akey) (key : akey) : Prop := normalized key = nk.

(** The collection after the mentions [ms] have been read. *)
Definition collect (ms : list (string * akey)) : albums_t :=
  fold_left (fun albums m => add_mention (fst m) albums (snd m)) ms [].


#[global] Instance same_class_dec nk key : Decision (same_class nk key).
Proof. unfold same_class. apply _. Defined.

(** The entries of a stretch of Genius items that lies in the window. *)
Definition genius_entries (body : list g_item) : list (string * string) :=
  body ≫= (fun item =>
    match g_name item with
    | TagA => match genius_entry (g_text item) with
              | Some e => [e]
              | None => []
              end
    | TagB => []
    end).

(** The entries of a stretch of Metacritic rows that lies in the
    window. *)
Definition metacritic_entries (body : list mc_row) : list (string * string) :=
  body ≫= metacritic_entry.


(** *** Sample pages for the night of 2025-06-26 *)

Definition thursday : Z := Calendar.ymd2ord 2025 6 26.

Definition row_date (text : string) : mc_row :=
  {| mc_th := Some text; mc_artist := None; mc_album := None |}.

Definition row_album (artist album : string) : mc_row :=
  {| mc_th := None; mc_artist := Some artist; mc_album := Some album |}.

Definition genius_sample : list g_item :=
  [ {| g_name := TagB; g_text := "6/20" |};
    {| g_name := TagA; g_text := "Old Act - Last Week - Album" |};
    {| g_name := TagB; g_text := "6/27" |};
    {| g_name := TagA; g_text := "drake - Iceman - Album" |};
    {| g_name := TagB; g_text := "7/4" |};
    {| g_name := TagA; g_text := "Late Act - Next Week - Album" |} ].

Definition wikipedia_sample : list wiki_table :=
  [ {| w_caption := Some "List of albums released in June 2025";
       w_rows :=
         [ {| w_th := Some "June27"; w_tds := ["Drake"; "Iceman"] |};
           {| w_th := None; w_tds := ["Lorde"; "Virgin"] |} ] |} ].

Definition album_of (tracks_ : Z) (date url : string) : sp_album :=
  {| uri := "spotify:album:" +:+ url; total_tracks := tracks_;
     images := []; spotify_url := url; release_date := date |}.

(** The catalog knows the two spellings as two releases. *)
Definition search_sample (q : string) (limit : nat) : option (list sp_album) :=
  if PyStr.eqb q "artist:Drake album:Iceman"
  then Some [album_of 10 "2025-06-27" "standard"]
  else if PyStr.eqb q "artist:drake album:Iceman"
  then Some [album_of 12 "2025-06-27" "deluxe"]
  else Some [].

Definition no_details (artist : string) : artist_details :=
  {| genres := ["Unknown"]; followers := 0; popular_works := [];
     artist_url := "" |}.

Definition world_of (mc : option (list mc_row)) : world :=
  {| metacritic_page := mc;
     genius_page := Some genius_sample;
     wikipedia_page := Some wikipedia_sample;
     spotify_search := search_sample;
     get_artist_info := no_details;
     smtp_ok := true |}.

(** Metacritic lists the album under the target date. *)
Definition world_two_spellings : world :=
  world_of (Some [row_date "27 June 2025"; row_album "Drake" "Iceman"]).


(** Metacritic lists the target date, then the Friday after it. *)
Definition metacritic_two_weeks : list mc_row :=
  [ row_date "27 June 2025"; row_album "Drake" "Iceman";
    row_date "4 July 2025"; row_album "Late Act" "Next Week" ].

(** *** The schedule *)

(** A naive [datetime]: the ordinal of its day and the microseconds since
    midnight. *)
Record datetime := {
  dt_date : Z;
  dt_time : Z
}.

Definition dt_ltb (a b : datetime) : bool :=
  (dt_date a <? dt_date b)
  || ((dt_date a =? dt_date b) && (dt_time a <? dt_time b)).

Definition time_23_05 : Z := (23 * 3600 + 5 * 60) * 1000000.

(** [a.replace(hour=23, minute=5, second=0, microsecond=0)] *)
Definition replace_23_05 (a : datetime) : datetime :=
  {| dt_date := dt_date a; dt_time := time_23_05 |}.

(** [a + datetime.timedelta(days=k)] *)
Definition add_days (a : datetime) (k : Z) : datetime :=
  {| dt_date := dt_date a + k; dt_time := dt_time a |}.

(** [(a - b)] in microseconds. *)
Definition dt_diff (a b : datetime) : Z :=
  (dt_date a - dt_date b) * Calendar.microseconds_per_day
  + (dt_time a - dt_time b).

Definition get_next_thursday_11_05_pm (now : datetime) : datetime :=
  let days_until_thursday := (3 - Calendar.weekday (dt_date now)) mod 7 in
  let target_time := replace_23_05 now in
  let days_until_thursday :=
    if (days_until_thursday =? 0) && dt_ltb target_time now
    then 7 else days_until_thursday in
  if days_until_thursday =? 0 then target_time
  else replace_23_05 (add_days now days_until_thursday).

(** [wait_until_thursday]: the time to sleep, in microseconds, or [None]
    when it does not sleep. [now] is the time read by
    [get_next_thursday_11_05_pm], [now'] the time read after it. *)
Definition wait_until_thursday (now now' : datetime) : option Z :=
  let target_time := get_next_thursday_11_05_pm now in
  if dt_ltb now' target_time then Some (dt_diff target_time now') else None.

(** *** The artist *)

(** An artist object of the search answer, with what [get_artist_info]
    reads: [genres] and the total of [followers] may be missing. *)
Record sp_artist := {
  sa_id : string;
  sa_genres : option (list string);
  sa_followers : option Z;
  sa_url : string
}.

Definition default_details : artist_details :=
  {| genres := ["Unknown"]; followers := 0; popular_works := [];
     artist_url := "" |}.

(** The method [get_artist_info], for which the field [get_artist_info]
    of a [world] stands. [artist_search q limit] is
    [spotify.search(q, type='artist', limit)] and [artist_top_tracks id]
    gives the names of the tracks of [spotify.artist_top_tracks(id)];
    [None] when the call raises. *)
Definition get_artist_info_from
    (artist_search : string -> nat -> option (list sp_artist))
    (artist_top_tracks : string -> option (list string))
    (artist : string) : artist_details :=
  match artist_search ("artist:" +:+ artist) 1%nat with
  | Some (spotify_artist :: _) =>
      match artist_top_tracks (sa_id spotify_artist) with
      | Some top_tracks =>
          {| genres :=
               match default [] (sa_genres spotify_artist) with
               | [] => ["Unknown"]
               | g => take 3 g
               end;
             followers := default 0 (sa_followers spotify_artist);
             popular_works := take 3 top_tracks;
             artist_url := sa_url spotify_artist |}
      | None => default_details
      end
  | Some [] => default_details
  | None => default_details
  end.

(** *** More vocabulary *)



Definition dt_le (a b : datetime) : Prop :=
  dt_date a < dt_date b \/ (dt_date a = dt_date b /\ dt_time a <= dt_time b).

(** *** Samples for the schedule, Wikipedia and the collection *)

(** Wednesday 2025-06-25 at 10:00. *)
Definition wednesday_morning : datetime :=
  {| dt_date := Calendar.ymd2ord 2025 6 25;
     dt_time := 10 * 3600 * 1000000 |}.

(** Thursday 2025-06-26 at 23:06, a minute after the run. *)
Definition thursday_after_run : datetime :=
  {| dt_date := thursday; dt_time := (23 * 3600 + 6 * 60) * 1000000 |}.





End Friday.

(** * Properties of the calendar *)
Module CalendarFacts.
Import Calendar.

Lemma month_day_ok_all leapyear n :
  0 <= n <= 364 -> month_day_ok leapyear n = true.
Proof.
  intros Hn.
  assert (forallb (month_day_ok leapyear) (seqZ 0 365) = true) as Hall.
  { destruct leapyear; vm_compute; reflexivity. }
  rewrite forallb_forall in Hall. apply Hall.
  apply list_elem_of_In, elem_of_seqZ. lia.
Qed.

Lemma month_day_spec leapyear n :
  0 <= n <= 364 ->
  1 <= fst (month_day n leapyear) <= 12
  /\ 1 <= snd (month_day n leapyear) <= 31
  /\ days_before_month_table (fst (month_day n leapyear))
     + (if (2 <? fst (month_day n leapyear)) && leapyear then 1 else 0)
     + snd (month_day n leapyear) = n + 1.
Proof.
  intros Hn. pose proof (month_day_ok_all leapyear n Hn) as Hok.
  unfold month_day_ok in Hok.
  rewrite !andb_true_iff, !Z.leb_le, Z.eqb_eq in Hok. lia.
Qed.

(** ** Ordinals and their fields *)

Lemma is_leap_spec y :
  is_leap y = true <-> y mod 4 = 0 /\ (y mod 100 <> 0 \/ y mod 400 = 0).
Proof.
  unfold is_leap.
  rewrite andb_true_iff, orb_true_iff, negb_true_iff, !Z.eqb_eq, Z.eqb_neq.
  done.
Qed.

Lemma days_before_year_cycles n400 n100 n4 n1 :
  0 <= n100 <= 3 -> 0 <= n4 <= 24 -> 0 <= n1 <= 3 ->
  days_before_year (400 * n400 + 100 * n100 + 4 * n4 + n1 + 1)
  = 146097 * n400 + 36524 * n100 + 1461 * n4 + 365 * n1.
Proof.
  intros. unfold days_before_year.
  Z.to_euclidean_division_equations. lia.
Qed.

Lemma is_leap_cycles n400 n100 n4 n1 :
  0 <= n100 <= 3 -> 0 <= n4 <= 24 -> 0 <= n1 <= 3 ->
  is_leap (400 * n400 + 100 * n100 + 4 * n4 + n1 + 1)
  = (n1 =? 3) && (negb (n4 =? 24) || (n100 =? 3)).
Proof.
  intros. apply eq_true_iff_eq. rewrite is_leap_spec.
  rewrite andb_true_iff, orb_true_iff, negb_true_iff, !Z.eqb_eq, Z.eqb_neq.
  Z.to_euclidean_division_equations. lia.
Qed.

(** [_ymd2ord] undoes [_ord2ymd], and the fields are in range. *)
Lemma ord2ymd_inverse n :
  ymd2ord (year n) (month n) (day n) = n
  /\ 1 <= month n <= 12 /\ 1 <= day n <= 31
  /\ (1 <= n -> 1 <= year n).
Proof.
  unfold year, month, day, ord2ymd, DI400Y, DI100Y, DI4Y.
  set (n0 := n - 1).
  set (n400 := n0 / 146097). set (r400 := n0 mod 146097).
  set (n100 := r400 / 36524). set (r100 := r400 mod 36524).
  set (n4 := r100 / 1461). set (r4 := r100 mod 1461).
  set (n1 := r4 / 365). set (r1 := r4 mod 365).
  assert (n0 = 146097 * n400 + r400 /\ 0 <= r400 < 146097) as [E400 B400].
  { unfold n400, r400. split; [apply Z.div_mod|apply Z.mod_pos_bound]; lia. }
  assert (r400 = 36524 * n100 + r100 /\ 0 <= r100 < 36524) as [E100 B100].
  { unfold n100, r100. split; [apply Z.div_mod|apply Z.mod_pos_bound]; lia. }
  assert (r100 = 1461 * n4 + r4 /\ 0 <= r4 < 1461) as [E4 B4].
  { unfold n4, r4. split; [apply Z.div_mod|apply Z.mod_pos_bound]; lia. }
  assert (r4 = 365 * n1 + r1 /\ 0 <= r1 < 365) as [E1 B1].
  { unfold n1, r1. split; [apply Z.div_mod|apply Z.mod_pos_bound]; lia. }
  clearbody n400 r400 n100 r100 n4 r4 n1 r1.
  assert (0 <= n100 <= 4) by lia.
  assert (0 <= n4 <= 24) by lia.
  assert (0 <= n1 <= 4) by lia.
  assert (1 <= n -> 0 <= n400) as Hpos by (unfold n0 in *; lia).
  destruct (Z.eqb_spec n1 4) as [Hn1|Hn1]; simpl.
  - assert (n4 <= 23) by lia. assert (n100 <= 3) by lia.
    replace (n400 * 400 + 1 + n100 * 100 + n4 * 4 + n1 - 1)
      with (400 * n400 + 100 * n100 + 4 * n4 + 3 + 1) by lia.
    unfold ymd2ord, days_before_month.
    rewrite days_before_year_cycles, is_leap_cycles by lia. simpl.
    destruct (Z.eqb_spec n4 24); [lia|]. simpl. unfold n0 in *. lia.
  - destruct (Z.eqb_spec n100 4) as [Hn100|Hn100]; simpl.
    + replace (n400 * 400 + 1 + n100 * 100 + n4 * 4 + n1 - 1)
        with (400 * n400 + 100 * 3 + 4 * 24 + 3 + 1) by lia.
      unfold ymd2ord, days_before_month.
      rewrite days_before_year_cycles, is_leap_cycles by lia. simpl.
      unfold n0 in *. lia.
    + replace (n400 * 400 + 1 + n100 * 100 + n4 * 4 + n1)
        with (400 * n400 + 100 * n100 + 4 * n4 + n1 + 1) by lia.
      set (leapyear := (n1 =? 3) && (negb (n4 =? 24) || (n100 =? 3))).
      destruct (month_day_spec leapyear r1) as (Hm & Hd & Hsum); [lia|].
      unfold ymd2ord, days_before_month.
      rewrite days_before_year_cycles, is_leap_cycles by lia.
      fold leapyear. unfold n0 in *. lia.
Qed.

Lemma pretty_N_go_no_dash x s : no_dash s -> no_dash (pretty_N_go x s).
Proof.
  revert s. induction (N.lt_wf_0 x) as [x _ IH]; intros s Hs.
  destruct (decide (x = 0)%N) as [->|Hx].
  - by rewrite pretty_N_go_0.
  - rewrite pretty_N_go_step by lia.
    apply IH; [apply N.div_lt; lia|].
    split; [|done].
    unfold pretty_N_char. by repeat case_match.
Qed.

Lemma pretty_no_dash (y : Z) : 0 <= y -> no_dash (pretty y).
Proof.
  intros Hy. destruct y as [|p|p]; [by compute|..|lia].
  unfold pretty, pretty_Z, pretty, pretty_positive, pretty, pretty_N.
  case_decide; [done|]. by apply pretty_N_go_no_dash.
Qed.

Lemma no_dash_split s1 s2 r1 r2 :
  no_dash s1 -> no_dash s2 ->
  s1 +:+ String "-"%char r1 = s2 +:+ String "-"%char r2 -> s1 = s2 /\ r1 = r2.
Proof.
  revert s2. induction s1 as [|c1 s1 IH]; intros [|c2 s2] H1 H2 Heq;
    simpl in *.
  - by injection Heq as ->.
  - injection Heq as <- _. by destruct H2.
  - injection Heq as -> _. by destruct H1.
  - injection Heq as -> Heq. destruct H1, H2.
    destruct (IH s2) as [-> ->]; done.
Qed.

Lemma pad2_inj a b :
  0 <= a < 32 -> 0 <= b < 32 -> PyStr.pad2 "0" a = PyStr.pad2 "0" b -> a = b.
Proof.
  intros Ha Hb Heq.
  assert (forallb pad2_distinct (seqZ 0 32) = true) as Hall.
  { vm_compute. reflexivity. }
  rewrite forallb_forall in Hall.
  specialize (Hall a). unfold pad2_distinct in Hall.
  rewrite forallb_forall in Hall.
  assert (implb (bool_decide (PyStr.pad2 "0" a = PyStr.pad2 "0" b)) (a =? b)
          = true) as Himp.
  { apply Hall; apply list_elem_of_In, elem_of_seqZ; lia. }
  rewrite bool_decide_eq_true_2 in Himp by done. simpl in Himp.
  by apply Z.eqb_eq.
Qed.

Lemma pad2_no_dash a : 0 <= a -> no_dash (PyStr.pad2 "0" a).
Proof.
  intros Ha. unfold PyStr.pad2. destruct (a <? 10).
  - split; [done|]. by apply pretty_no_dash.
  - by apply pretty_no_dash.
Qed.

(** Two days (of year 1 or later) that [%Y-%m-%d] renders alike are the
    same day. *)
Lemma strftime_Y_m_d_inj d1 d2 :
  1 <= d1 -> 1 <= d2 ->
  strftime_Y_m_d d1 = strftime_Y_m_d d2 -> d1 = d2.
Proof.
  intros H1 H2 Heq.
  destruct (ord2ymd_inverse d1) as (E1 & Hm1 & Hd1 & Hy1).
  destruct (ord2ymd_inverse d2) as (E2 & Hm2 & Hd2 & Hy2).
  specialize (Hy1 H1). specialize (Hy2 H2).
  unfold strftime_Y_m_d in Heq.
  apply no_dash_split in Heq as [Hy Heq];
    [|apply pretty_no_dash; lia..].
  apply no_dash_split in Heq as [Hm Hd];
    [|apply pad2_no_dash; lia..].
  apply (inj pretty) in Hy.
  apply pad2_inj in Hm; [|lia..].
  apply pad2_inj in Hd; [|lia..].
  rewrite <- E1, <- E2. by rewrite Hy, Hm, Hd.
Qed.

End CalendarFacts.

(** * Properties of the release monitor *)
Module MonitorFacts.
Import Monitor.

Lemma fold_left_invariant {A B : Type} (P : A -> Prop) (f : A -> B -> A)
    (l : list B) (a : A) :
  P a -> (forall s x, x ∈ l -> P s -> P (f s x)) -> P (fold_left f l a).
Proof.
  revert a. induction l as [|x l IH]; intros a Ha Hf; simpl; [done|].
  apply IH.
  - apply Hf; [left|done].
  - intros s y Hy. apply Hf. by right.
Qed.

(** ** The ledger and the batch *)

Lemma is_known_spec key (known : gmap string known_release) :
  is_known key known = true <-> is_Some (known !! key).
Proof. unfold is_known. by rewrite bool_decide_eq_true. Qed.

Lemma is_known_false key (known : gmap string known_release) :
  is_known key known = false <-> known !! key = None.
Proof.
  unfold is_known. rewrite bool_decide_eq_false.
  by rewrite eq_None_not_Some.
Qed.

Lemma batch_pairs_map_add aid (r : release) (b : batch) a r' :
  (a, r') ∈ batch_pairs
    (fmap (fun e : string * (string * list release) =>
            if bool_decide (fst e = aid)
            then (fst e, (fst (snd e), snd (snd e) ++ [r]))
            else e) b)
  <-> (a, r') ∈ batch_pairs b \/ (a = aid /\ r' = r /\ aid ∈ fmap fst b).
Proof.
  unfold batch_pairs.
  induction b as [|[k [nm rs]] b IH].
  - simpl. split; [intros H; by apply elem_of_nil in H|].
    intros [H|(_ & _ & H)]; by apply elem_of_nil in H.
  - rewrite !fmap_cons, !bind_cons, !elem_of_app, IH, elem_of_cons.
    simpl. case_bool_decide as Hk; simpl.
    + subst k. rewrite fmap_app, elem_of_app. simpl.
      rewrite list_elem_of_singleton.
      split; intros H; intuition (simplify_eq; auto).
    + split; intros H; intuition (simplify_eq; auto).
Qed.

Lemma batch_pairs_app (b1 b2 : batch) :
  batch_pairs (b1 ++ b2) = batch_pairs b1 ++ batch_pairs b2.
Proof. unfold batch_pairs. apply bind_app. Qed.

Lemma batch_pairs_add aid info (r : release) (b : batch) a r' :
  (a, r') ∈ batch_pairs (batch_add aid info r b)
  <-> (a, r') ∈ batch_pairs b \/ (a = aid /\ r' = r).
Proof.
  unfold batch_add. rewrite batch_pairs_map_add.
  case_bool_decide as Hin.
  - naive_solver.
  - rewrite batch_pairs_app, fmap_app, !elem_of_app. simpl.
    unfold batch_pairs at 2. simpl.
    rewrite elem_of_nil, list_elem_of_singleton. naive_solver.
Qed.

Lemma batch_add_nonempty aid info (r : release) (b : batch) :
  (forall e, e ∈ b -> snd (snd e) <> []) ->
  forall e, e ∈ batch_add aid info r b -> snd (snd e) <> [].
Proof.
  intros Hb e Hin. unfold batch_add in Hin.
  apply list_elem_of_fmap in Hin as ([k [nm rs]] & -> & Hin). simpl.
  destruct (decide (k = aid)) as [->|Hk].
  - rewrite bool_decide_eq_true_2 by done. simpl.
    intros Heq. apply (f_equal length) in Heq.
    rewrite length_app in Heq. simpl in Heq. lia.
  - rewrite bool_decide_eq_false_2 by done.
    apply (Hb (k, (nm, rs))).
    case_bool_decide; [done|].
    apply elem_of_app in Hin as [Hin|Hin]; [done|].
    apply list_elem_of_singleton in Hin. simplify_eq/=.
Qed.

Section PassFacts.

Variable strptime : string -> option Z.
Variable sp_artist_albums : string -> option page.
Variable clock : nat -> Z.

Lemma process_release_known aid info (s : pass_state) r :
  is_known (release_key aid r) (ps_known s) = true ->
  process_release clock aid info s r = s.
Proof. intros H. unfold process_release. by rewrite H. Qed.

Lemma pass_inv_start known0 arts :
  pass_inv known0
    {| ps_artists := arts; ps_known := known0; ps_batch := []; ps_ticks := O |}.
Proof.
  split; simpl; auto.
  - intros a r H. by apply elem_of_nil in H.
  - intros e H. by apply elem_of_nil in H.
Qed.

Lemma pass_inv_process_release known0 aid info s r :
  pass_inv known0 s ->
  pass_inv known0 (process_release clock aid info s r).
Proof.
  intros [Hkept Hbatch Hne]. unfold process_release.
  destruct (is_known (release_key aid r) (ps_known s)) eqn:Hk;
    [by split|].
  apply is_known_false in Hk.
  destruct (PyStr.eqb (r_release_date r) _ || PyStr.eqb (r_release_date r) _)
    eqn:Hdate; [|by split].
  assert (known0 !! release_key aid r = None) as Hold.
  { destruct (known0 !! release_key aid r) as [v|] eqn:Hv; [|done].
    apply Hkept in Hv. congruence. }
  split; simpl; unfold record_release.
  - intros k v Hv.
    rewrite lookup_insert_ne; [by apply Hkept|].
    intros <-. congruence.
  - intros a r'. rewrite batch_pairs_add.
    intros [Hin|[-> ->]].
    + destruct (Hbatch _ _ Hin) as (H1 & H3).
      split; [done|].
      rewrite lookup_insert. by case_decide.
    + split; [done|].
      rewrite lookup_insert_eq. by eexists.
  - by apply batch_add_nonempty.
Qed.

Lemma pass_inv_check_artist known0 current_time s e :
  pass_inv known0 s ->
  pass_inv known0
    (check_artist strptime sp_artist_albums clock current_time s e).
Proof.
  intros Hs. unfold check_artist.
  set (s' := fold_left _ _ s).
  assert (pass_inv known0 s') as [H1 H3 H4].
  { apply fold_left_invariant; [done|].
    intros. by apply pass_inv_process_release. }
  by split.
Qed.

Lemma pass_inv_run_pass current_time d :
  pass_inv (known_releases d)
    (run_pass strptime sp_artist_albums clock current_time d).
Proof.
  unfold run_pass. apply fold_left_invariant.
  - apply pass_inv_start.
  - intros. by apply pass_inv_check_artist.
Qed.

(** C1. After a release is recorded its key is in the ledger; recording
    under a key that was just recorded leaves the size of the ledger as it
    is; a release whose key is in the ledger is passed over untouched by
    the loop over the releases; and no release of the batch of a pass had
    its key in the ledger when the pass started. *)
Theorem ledger_round_trip (artist_id : string) (info : artist_info)
    (r : release) (known : gmap string known_release) :
  is_known (release_key artist_id r) (record_release artist_id info r known)
    = true
  /\ (forall artist_id' info' r',
        release_key artist_id' r' = release_key artist_id r ->
        size (record_release artist_id' info' r'
                (record_release artist_id info r known))
        = size (record_release artist_id info r known))
  /\ (forall s : pass_state,
        is_known (release_key artist_id r) (ps_known s) = true ->
        process_release clock artist_id info s r = s)
  /\ (forall current_time d a r',
        (a, r') ∈ batch_pairs
          (ps_batch (run_pass strptime sp_artist_albums clock current_time d)) ->
        is_known (release_key a r') (known_releases d) = false).
Proof.
  repeat split.
  - apply is_known_spec. unfold record_release.
    rewrite lookup_insert_eq. by eexists.
  - intros artist_id' info' r' Hkey. unfold record_release.
    rewrite Hkey. apply map_size_insert_Some.
    rewrite lookup_insert_eq. by eexists.
  - intros s. apply process_release_known.
  - intros current_time d a r' Hin. apply is_known_false.
    by destruct (inv_batch _ _ (pass_inv_run_pass current_time d) _ _ Hin).
Qed.

(** ** What a pass adds *)

Lemma accounts_refl s : accounts clock s s [].
Proof.
  split; intros; (split; [by left|]).
  - intros [?|(n & info & Hin & _)]; [done|]. by apply elem_of_nil in Hin.
  - intros [?|(n & e & r & Hin & _)]; [done|]. by apply elem_of_nil in Hin.
Qed.

Lemma accounts_trans s1 s2 s3 log1 log2 :
  accounts clock s1 s2 log1 -> accounts clock s2 s3 log2 ->
  accounts clock s1 s3 (log1 ++ log2).
Proof.
  intros [B1 K1] [B2 K2]. split.
  - intros a r. rewrite B2, B1. split.
    + intros [[?|(n & info & Hin & Hf)]|(n & info & Hin & Hf)]; [by left|..];
        right; exists n, info; (split; [|done]); apply elem_of_app; auto.
    + intros [?|(n & info & Hin & Hf)]; [by left; left|].
      apply elem_of_app in Hin as [Hin|Hin];
        [left; right|right]; by exists n, info.
  - intros k v. rewrite K2, K1. split.
    + intros [[?|(n & e & r & Hin & Hf)]|(n & e & r & Hin & Hf)]; [by left|..];
        right; exists n, e, r; (split; [|done]); apply elem_of_app; auto.
    + intros [?|(n & e & r & Hin & Hf)]; [by left; left|].
      apply elem_of_app in Hin as [Hin|Hin];
        [left; right|right]; by exists n, e, r.
Qed.

(** A stretch that leaves batch and ledger as they are, and in which no
    date test succeeds, has added nothing. *)
Lemma accounts_same s s' log :
  ps_batch s' = ps_batch s -> ps_known s' = ps_known s ->
  (forall n e r, (n, e, r) ∈ log -> ~ fresh_date clock n (r_release_date r)) ->
  accounts clock s s' log.
Proof.
  intros Hb Hk Hnone. unfold accounts. rewrite Hb, Hk.
  split; intros; (split; [by left|]).
  - intros [?|(n & info & Hin & Hf)]; [done|]. by destruct (Hnone _ _ _ Hin).
  - intros [?|(n & e & r & Hin & Hf & _)]; [done|].
    by destruct (Hnone _ _ _ Hin).
Qed.

Lemma accounts_process_release aid info s r :
  accounts clock s (process_release clock aid info s r)
    (if is_known (release_key aid r) (ps_known s) then []
     else [(ps_ticks s, (aid, info), r)]).
Proof.
  unfold process_release.
  destruct (is_known (release_key aid r) (ps_known s)) eqn:Hk;
    [apply accounts_refl|].
  apply is_known_false in Hk.
  destruct (PyStr.eqb (r_release_date r) _ || PyStr.eqb (r_release_date r) _)
    eqn:Hdate.
  - assert (fresh_date clock (ps_ticks s) (r_release_date r)) as Hfresh.
    { apply orb_true_iff in Hdate as [Hd|Hd];
        apply bool_decide_eq_true in Hd; [by left|by right]. }
    split; simpl.
    + intros a r'. rewrite batch_pairs_add. split.
      * intros [?|[-> ->]]; [by left|]. right.
        exists (ps_ticks s), info. split; [|done].
        by apply list_elem_of_singleton.
      * intros [?|(n & info' & Hin & _)]; [by left|].
        apply list_elem_of_singleton in Hin. right. by simplify_eq.
    + intros k v. unfold record_release.
      destruct (decide (k = release_key aid r)) as [->|Hne].
      * rewrite lookup_insert_eq. split.
        -- intros [= <-]. right. exists (ps_ticks s), (aid, info), r.
           split; [by apply list_elem_of_singleton|done].
        -- intros [Hold|(n & e & r' & Hin & _ & _ & ->)]; [congruence|].
           apply list_elem_of_singleton in Hin. by simplify_eq.
      * rewrite lookup_insert_ne by done. split; [by left|].
        intros [?|(n & e & r' & Hin & _ & Hkey & _)]; [done|].
        apply list_elem_of_singleton in Hin. by simplify_eq.
  - apply accounts_same; [done..|].
    intros n e r' Hin. apply list_elem_of_singleton in Hin.
    injection Hin as -> _ ->.
    apply orb_false_iff in Hdate as [H1 H2].
    apply bool_decide_eq_false in H1, H2. by intros [?|?].
Qed.

Lemma accounts_releases aid info rs : forall s,
  accounts clock s (fold_left (process_release clock aid info) rs s)
    (release_checks clock aid info s rs).
Proof.
  induction rs as [|r rs IH]; intros s; [apply accounts_refl|].
  cbn [fold_left release_checks].
  eapply accounts_trans; [apply accounts_process_release|apply IH].
Qed.

Lemma accounts_check_artist current_time s e :
  accounts clock s
    (check_artist strptime sp_artist_albums clock current_time s e)
    (release_checks clock (fst e) (snd e) s
       (get_artist_releases strptime sp_artist_albums (fst e)
          (last_check (snd e)))).
Proof.
  destruct (accounts_releases (fst e) (snd e)
              (get_artist_releases strptime sp_artist_albums (fst e)
                 (last_check (snd e))) s) as [HB HK].
  by split.
Qed.

Lemma accounts_artists current_time es : forall s,
  accounts clock s
    (fold_left (check_artist strptime sp_artist_albums clock current_time)
       es s)
    (artist_checks strptime sp_artist_albums clock current_time s es).
Proof.
  induction es as [|e es IH]; intros s; [apply accounts_refl|].
  cbn [fold_left artist_checks].
  eapply accounts_trans; [apply accounts_check_artist|apply IH].
Qed.

(** The batch and the ledger after a pass: what the ledger held, and the
    releases whose date test succeeded at their own check. *)
Lemma run_pass_accounts current_time d :
  let s := run_pass strptime sp_artist_albums clock current_time d in
  let checks := pass_checks strptime sp_artist_albums clock current_time d in
  (forall a r, (a, r) ∈ batch_pairs (ps_batch s)
     <-> exists n info, (n, (a, info), r) ∈ checks
                        /\ fresh_date clock n (r_release_date r))
  /\ (forall k v, ps_known s !! k = Some v
        <-> known_releases d !! k = Some v
            \/ exists n e r, (n, e, r) ∈ checks
                  /\ fresh_date clock n (r_release_date r)
                  /\ k = release_key (fst e) r
                  /\ v = record_of (fst e) (snd e) r).
Proof.
  intros s checks.
  destruct (accounts_artists current_time (sorted_artists (artists d))
              {| ps_artists := artists d; ps_known := known_releases d;
                 ps_batch := []; ps_ticks := O |}) as [HB HK].
  split; [|exact HK].
  intros a r. unfold s, run_pass. rewrite HB. split; [|by right].
  intros [Hin|?]; [|done]. by apply elem_of_nil in Hin.
Qed.

(** ** The date tests and their clock readings *)

Lemma process_release_ticks aid info s r :
  ps_ticks (process_release clock aid info s r)
  = (ps_ticks s
     + 2 * length (if is_known (release_key aid r) (ps_known s) then []
                   else [(ps_ticks s, (aid, info), r)]))%nat.
Proof.
  unfold process_release.
  destruct (is_known _ _); simpl; [lia|].
  destruct (_ || _); simpl; lia.
Qed.

(** The [i]-th date test that a stretch makes reads the clock for the
    [2 i]-th and the [2 i + 1]-st time after the readings made before
    it. *)
Lemma release_checks_ticks aid info rs : forall s,
  (forall i c, release_checks clock aid info s rs !! i = Some c ->
     fst (fst c) = (ps_ticks s + 2 * i)%nat)
  /\ ps_ticks (fold_left (process_release clock aid info) rs s)
     = (ps_ticks s + 2 * length (release_checks clock aid info s rs))%nat.
Proof.
  induction rs as [|r rs IH]; intros s; cbn [fold_left release_checks].
  - split; [done|]. simpl. lia.
  - destruct (IH (process_release clock aid info s r)) as [Hi Ht].
    rewrite process_release_ticks in Hi, Ht.
    destruct (is_known (release_key aid r) (ps_known s)); simpl in *.
    + split; [|lia]. intros i c Hc. rewrite (Hi i c Hc). lia.
    + split; [|rewrite Ht; lia].
      intros [|i] c Hc; simpl in Hc.
      * injection Hc as <-. simpl. lia.
      * rewrite (Hi i c Hc). lia.
Qed.

Lemma artist_checks_ticks current_time es : forall s,
  (forall i c,
     artist_checks strptime sp_artist_albums clock current_time s es !! i
     = Some c -> fst (fst c) = (ps_ticks s + 2 * i)%nat)
  /\ ps_ticks (fold_left
                 (check_artist strptime sp_artist_albums clock current_time)
                 es s)
     = (ps_ticks s
        + 2 * length (artist_checks strptime sp_artist_albums clock
                        current_time s es))%nat.
Proof.
  induction es as [|e es IH]; intros s; cbn [fold_left artist_checks].
  - split; [done|]. simpl. lia.
  - set (rs := get_artist_releases strptime sp_artist_albums (fst e)
                 (last_check (snd e))).
    destruct (release_checks_ticks (fst e) (snd e) rs s) as [Hi1 Ht1].
    destruct (IH (check_artist strptime sp_artist_albums clock
                    current_time s e)) as [Hi2 Ht2].
    assert (ps_ticks (check_artist strptime sp_artist_albums clock
                        current_time s e)
            = (ps_ticks s
               + 2 * length (release_checks clock (fst e) (snd e) s rs))%nat)
      as Hmid by exact Ht1.
    rewrite Hmid in Hi2, Ht2. split.
    + intros i c Hc.
      destruct (decide (i < length (release_checks clock (fst e) (snd e)
                                      s rs))%nat) as [Hlt|Hge].
      * rewrite lookup_app_l in Hc by done. by apply Hi1.
      * rewrite lookup_app_r in Hc by lia.
        rewrite (Hi2 _ c Hc). lia.
    + rewrite Ht2, length_app. lia.
Qed.

(** A date test is made for an artist of the pass, on a release that the
    catalog lists for it since its last check, and on a key that the
    ledger did not hold when the pass started. *)
Lemma release_checks_listed known0 aid info rs : forall s n e r,
  pass_inv known0 s ->
  (n, e, r) ∈ release_checks clock aid info s rs ->
  e = (aid, info) /\ r ∈ rs /\ known0 !! release_key aid r = None.
Proof.
  induction rs as [|r0 rs IH]; intros s n e r Hinv Hin;
    cbn [release_checks] in Hin; [by apply elem_of_nil in Hin|].
  apply elem_of_app in Hin as [Hin|Hin].
  - destruct (is_known (release_key aid r0) (ps_known s)) eqn:Hk;
      [by apply elem_of_nil in Hin|].
    apply list_elem_of_singleton in Hin. injection Hin as -> -> ->.
    split; [done|]. split; [left|].
    apply is_known_false in Hk.
    destruct (known0 !! release_key aid r0) as [v|] eqn:Hv; [|done].
    apply (inv_kept _ _ Hinv) in Hv. congruence.
  - destruct (IH _ _ _ _ (pass_inv_process_release _ aid info s r0 Hinv) Hin)
      as (? & ? & ?).
    split; [done|]. split; [by right|done].
Qed.

Lemma artist_checks_listed known0 current_time es : forall s n e r,
  pass_inv known0 s ->
  (n, e, r) ∈ artist_checks strptime sp_artist_albums clock current_time s es ->
  e ∈ es
  /\ r ∈ get_artist_releases strptime sp_artist_albums (fst e)
           (last_check (snd e))
  /\ known0 !! release_key (fst e) r = None.
Proof.
  induction es as [|e0 es IH]; intros s n e r Hinv Hin;
    cbn [artist_checks] in Hin; [by apply elem_of_nil in Hin|].
  apply elem_of_app in Hin as [Hin|Hin].
  - destruct (release_checks_listed _ _ _ _ _ _ _ _ Hinv Hin)
      as (-> & ? & ?).
    destruct e0 as [aid info]. split; [left|done].
  - destruct (IH _ _ _ _ (pass_inv_check_artist _ current_time s e0 Hinv) Hin)
      as (? & ? & ?).
    split; [by right|done].
Qed.

Lemma elem_of_insert_by_key x l e :
  e ∈ insert_by_key x l <-> e = x \/ e ∈ l.
Proof.
  induction l as [|y l IH]; simpl.
  - rewrite list_elem_of_singleton. split; [by left|].
    intros [?|H]; [done|]. by apply elem_of_nil in H.
  - destruct (sort_key x <=? sort_key y).
    + by rewrite elem_of_cons.
    + rewrite !elem_of_cons, IH. tauto.
Qed.

Lemma elem_of_sorted_artists l e : e ∈ sorted_artists l <-> e ∈ l.
Proof.
  unfold sorted_artists. induction l as [|x l IH]; [done|].
  simpl. by rewrite elem_of_insert_by_key, elem_of_cons, IH.
Qed.

Lemma pass_checks_listed current_time d n e r :
  (n, e, r) ∈ pass_checks strptime sp_artist_albums clock current_time d ->
  e ∈ artists d
  /\ r ∈ get_artist_releases strptime sp_artist_albums (fst e)
           (last_check (snd e))
  /\ known_releases d !! release_key (fst e) r = None.
Proof.
  intros Hin.
  destruct (artist_checks_listed (known_releases d) current_time _ _ _ _ _
              (pass_inv_start _ _) Hin) as (He & ? & ?).
  split; [|done]. by apply elem_of_sorted_artists.
Qed.

Lemma append_cancel_l (p s1 s2 : string) : p +:+ s1 = p +:+ s2 -> s1 = s2.
Proof.
  induction p as [|c p IH]; [done|].
  intros Heq. apply IH. by injection Heq.
Qed.

(** A date that is dated before the eve of both readings of a check
    fails the date test of that check. *)
Lemma stale_date_not_fresh n d0 :
  1 <= d0 -> d0 < clock n + (-1) -> d0 < clock (S n) + (-1) ->
  ~ fresh_date clock n (Calendar.strftime_Y_m_d d0).
Proof.
  intros Hd0 H1 H2 [Heq|Heq];
    apply CalendarFacts.strftime_Y_m_d_inj in Heq; lia.
Qed.

(** C10. In a pass of [check_for_new_releases] the date test is made
    once for each release whose key the ledger does not hold when its turn
    comes, the [i]-th test of the pass on the [2 i]-th and the
    [2 i + 1]-st reading of the clock. A release is in the batch if and
    only if one of its own tests found its date to be the rendering of
    the first reading or that of the day before the second; the ledger
    after the pass holds what it held and, besides, exactly the records
    of these releases. So a release that fails the test at each of its
    own checks, as one dated before the eve of both readings does, is not
    in the batch and its record is not added to the ledger, even when a
    reading made for another release would have let it pass. *)
Theorem poll_pass_only_today_or_yesterday (current_time : Z) (d : data) :
  let s := run_pass strptime sp_artist_albums clock current_time d in
  let checks := pass_checks strptime sp_artist_albums clock current_time d in
  (forall n date,
     fresh_date clock n date
     <-> date = Calendar.strftime_Y_m_d (clock n)
         \/ date = Calendar.strftime_Y_m_d (clock (S n) + (-1)))
  /\ (forall n day, 1 <= day -> 1 <= clock n -> 1 <= clock (S n) + (-1) ->
        fresh_date clock n (Calendar.strftime_Y_m_d day)
        <-> day = clock n \/ day = clock (S n) + (-1))
  /\ (forall i c, checks !! i = Some c -> fst (fst c) = (2 * i)%nat)
  /\ (forall n e r, (n, e, r) ∈ checks ->
        e ∈ artists d
        /\ r ∈ get_artist_releases strptime sp_artist_albums (fst e)
                 (last_check (snd e))
        /\ known_releases d !! release_key (fst e) r = None)
  /\ (forall a r, (a, r) ∈ batch_pairs (ps_batch s)
        <-> exists n info, (n, (a, info), r) ∈ checks
                           /\ fresh_date clock n (r_release_date r))
  /\ (forall k v, ps_known s !! k = Some v
        <-> known_releases d !! k = Some v
            \/ exists n e r, (n, e, r) ∈ checks
                  /\ fresh_date clock n (r_release_date r)
                  /\ k = release_key (fst e) r
                  /\ v = record_of (fst e) (snd e) r)
  /\ (forall a r,
        (forall n info, (n, (a, info), r) ∈ checks ->
           ~ fresh_date clock n (r_release_date r)) ->
        ((a, r) ∉ batch_pairs (ps_batch s))
        /\ (forall info,
              known_releases d !! release_key a r
                <> Some (record_of a info r) ->
              ps_known s !! release_key a r <> Some (record_of a info r)))
  /\ (forall a r d0,
        r_release_date r = Calendar.strftime_Y_m_d d0 -> 1 <= d0 ->
        (forall n info, (n, (a, info), r) ∈ checks ->
           d0 < clock n + (-1) /\ d0 < clock (S n) + (-1)) ->
        ((a, r) ∉ batch_pairs (ps_batch s))
        /\ (forall info,
              known_releases d !! release_key a r
                <> Some (record_of a info r) ->
              ps_known s !! release_key a r <> Some (record_of a info r))).
Proof.
  intros s checks.
  destruct (run_pass_accounts current_time d) as [HB HK].
  fold s in HB, HK. fold checks in HB, HK.
  assert (forall a r,
            (forall n info, (n, (a, info), r) ∈ checks ->
               ~ fresh_date clock n (r_release_date r)) ->
            ((a, r) ∉ batch_pairs (ps_batch s))
            /\ (forall info,
                  known_releases d !! release_key a r
                    <> Some (record_of a info r) ->
                  ps_known s !! release_key a r
                    <> Some (record_of a info r)))
    as Hstale.
  { intros a r Hnone. split.
    - rewrite HB. intros (n & info & Hin & Hf). by apply (Hnone n info).
    - intros info Hold Hv. apply HK in Hv as [?|(n & e & r' & Hin & Hf & Hkey & Hrec)];
        [done|].
      destruct e as [a' info'], r as [i1 n1 t1 d1 u1], r' as [i2 n2 t2 d2 u2].
      unfold record_of in Hrec. simpl in Hrec.
      injection Hrec as <- _ <- <- <- <-.
      unfold release_key in Hkey. simpl in Hkey.
      do 2 apply append_cancel_l in Hkey. subst i2.
      by apply (Hnone n info'). }
  split; [done|]. split.
  { intros n day Hday H1 H2. unfold fresh_date. split.
    - intros [H|H]; apply CalendarFacts.strftime_Y_m_d_inj in H; try done;
        [by left|by right].
    - by intros [->| ->]; [left|right]. }
  split.
  { intros i c Hc.
    destruct (artist_checks_ticks current_time (sorted_artists (artists d))
                {| ps_artists := artists d; ps_known := known_releases d;
                   ps_batch := []; ps_ticks := O |}) as [Hi _].
    by rewrite (Hi i c Hc). }
  split; [intros n e r; apply pass_checks_listed|].
  split; [exact HB|]. split; [exact HK|]. split; [exact Hstale|].
  intros a r d0 Hdate Hd0 Hold. apply Hstale.
  intros n info Hin. rewrite Hdate.
  destruct (Hold n info Hin). by apply stale_date_not_fresh.
Qed.

(** A pass that crosses midnight: the release dated 26 June comes to its
    check when the clock shows 28 June, and is passed over, though the
    reading made for the release before it showed 27 June. *)
Lemma pass_across_midnight :
  batch_pairs
    (ps_batch (run_pass Calendar.strptime_Y_m_d midnight_catalog
                 midnight_clock 0 sample_data))
  = [("drake", release_of (sample_album "a1" "2025-06-27" "day"))]
  /\ pass_checks Calendar.strptime_Y_m_d midnight_catalog midnight_clock 0
       sample_data
     = [(0%nat, ("drake", {| name := "Drake"; last_check := None |}),
         release_of (sample_album "a1" "2025-06-27" "day"));
        (2%nat, ("drake", {| name := "Drake"; last_check := None |}),
         release_of (sample_album "a4" "2025-06-26" "day"))]
  /\ r_release_date (release_of (sample_album "a4" "2025-06-26" "day"))
     = Calendar.strftime_Y_m_d (midnight_clock 1 + (-1)).
Proof. split; [|split]; vm_compute; reflexivity. Qed.

(** The first scan has no such filter: whatever the catalog lists for an
    artist is in the ledger afterwards, and nothing is sent. *)
Lemma scan_artist_records utc_now arts known n e r :
  r ∈ get_artist_releases strptime sp_artist_albums (fst e) None ->
  is_Some
    (snd (fst (scan_artist strptime sp_artist_albums utc_now (arts, known, n) e))
       !! release_key (fst e) r).
Proof.
  simpl. generalize (get_artist_releases strptime sp_artist_albums e.1 None).
  intros l. revert known. induction l as [|x l IH]; intros known Hin.
  - by apply elem_of_nil in Hin.
  - simpl. apply elem_of_cons in Hin as [->|Hin]; [|by apply IH].
    clear IH. assert (is_Some (record_release e.1 e.2 x known
                                 !! release_key e.1 x)) as Hx.
    { unfold record_release. rewrite lookup_insert_eq. by eexists. }
    revert Hx. generalize (record_release e.1 e.2 x known).
    induction l as [|y l IH]; intros m Hm; simpl; [done|].
    apply IH. unfold record_release. rewrite lookup_insert.
    case_decide; [by eexists|done].
Qed.

Lemma scan_artist_grows utc_now s e k :
  is_Some (snd (fst s) !! k) ->
  is_Some (snd (fst (scan_artist strptime sp_artist_albums utc_now s e)) !! k).
Proof.
  destruct s as [[arts known] n]. simpl.
  generalize (get_artist_releases strptime sp_artist_albums e.1 None).
  intros l. revert known. induction l as [|y l IH]; intros m Hm; simpl; [done|].
  apply IH. unfold record_release. rewrite lookup_insert.
  case_decide; [by eexists|done].
Qed.

Lemma run_initial_scan_records_all utc_now d e r :
  e ∈ artists d ->
  r ∈ get_artist_releases strptime sp_artist_albums (fst e) None ->
  is_Some
    (known_releases
       (new_data (run_initial_scan strptime sp_artist_albums utc_now d))
     !! release_key (fst e) r)
  /\ sent (run_initial_scan strptime sp_artist_albums utc_now d) = [].
Proof.
  intros He Hr. unfold run_initial_scan.
  set (f := scan_artist strptime sp_artist_albums utc_now).
  assert (forall l s, e ∈ l ->
            is_Some (snd (fst (fold_left f l s)) !! release_key e.1 r)) as Hfold.
  { induction l as [|x l IH]; intros s Hin.
    - by apply elem_of_nil in Hin.
    - simpl. apply elem_of_cons in Hin as [<-|Hin]; [|by apply IH].
      apply fold_left_invariant.
      + destruct s as [[arts known] n]. by apply scan_artist_records.
      + intros. by apply scan_artist_grows. }
  specialize (Hfold (artists d) (artists d, known_releases d, O) He).
  destruct (fold_left f (artists d) (artists d, known_releases d, O))
    as [[arts known] n].
  by split.
Qed.

(** ** The release listing *)

Lemma select_releases_spec since_date albums :
  Forall (fun a => PyStr.eqb (al_release_date_precision a) "day" = true ->
                   is_Some (strptime (al_release_date a))) albums ->
  select_releases strptime since_date albums
  = release_of <$> filter (fun a => selected strptime since_date a = true) albums.
Proof.
  induction 1 as [|a albums Ha _ IH]; [done|].
  simpl.
  destruct (PyStr.eqb (al_release_date_precision a) "day") eqn:Hday; simpl.
  - destruct (Ha eq_refl) as [t Ht]. rewrite Ht.
    destruct (match since_date with
              | Some since => since <? t
              | None => true
              end) eqn:Hkeep.
    + rewrite filter_cons_True, fmap_cons, IH; [done|].
      unfold selected. rewrite Hday, Ht. by destruct since_date.
    + rewrite filter_cons_False, IH; [done|].
      unfold selected. rewrite Hday, Ht. destruct since_date; simpl; congruence.
  - rewrite filter_cons_False; [done|].
    unfold selected. by rewrite Hday.
Qed.

Lemma all_albums_pages pages last :
  all_albums (foldr PageThen (PageLast last) pages)
  = Some (concat pages ++ last).
Proof.
  induction pages as [|items pages IH]; [done|].
  simpl. rewrite IH. by rewrite <- app_assoc.
Qed.

Lemma all_albums_raises pages items :
  all_albums (foldr PageThen (PageThenRaises items) pages) = None.
Proof. induction pages as [|its pages IH]; [done|]. simpl. by rewrite IH. Qed.

(** At an entry of day precision whose date does not parse the loop is
    left: what comes after it is not read. *)
Lemma select_releases_truncated since_date before bad after :
  al_release_date_precision bad = "day" ->
  strptime (al_release_date bad) = None ->
  select_releases strptime since_date (before ++ bad :: after)
  = select_releases strptime since_date before.
Proof.
  intros Hday Hbad. induction before as [|a before IH]; simpl.
  - unfold PyStr.eqb. rewrite bool_decide_eq_true_2 by done. simpl.
    by rewrite Hbad.
  - destruct (negb (PyStr.eqb (al_release_date_precision a) "day")); [done|].
    destruct (strptime (al_release_date a)) as [t|]; [|done].
    by rewrite IH.
Qed.

Lemma selected_spec since_date a :
  selected strptime since_date a = true
  <-> al_release_date_precision a = "day"
      /\ (since_date = None
          \/ exists since t,
               since_date = Some since
               /\ strptime (al_release_date a) = Some t /\ since < t).
Proof.
  unfold selected, PyStr.eqb.
  rewrite andb_true_iff, bool_decide_eq_true.
  destruct since_date as [since|].
  - destruct (strptime (al_release_date a)) as [t|].
    + rewrite Z.ltb_lt. split.
      * intros [? ?]. split; [done|]. right. by exists since, t.
      * intros [? [?|(since' & t' & [= <-] & [= <-] & ?)]]; done.
    + split; [by intros [_ ?]|].
      intros [_ [?|(since' & t' & _ & ? & _)]]; done.
  - split; [intros [? _]; split; [done|by left]|]. by intros [? _].
Qed.

(** C6. The listing of an artist comes in pages. When every request
    answers, and the dates of the entries of day precision parse,
    [get_artist_releases] returns, from the entries of all the pages in
    their order, exactly those of day precision dated strictly after
    [since_date], all of day precision when [since_date] is absent, each
    with its id, name, type, date and link. At an entry of day precision
    whose date does not parse the listing is cut: the entries selected
    before it are returned. When a request raises, the first or one for a
    later page, the result is the empty list, and the pass only stamps the
    artist and goes on. *)
Theorem releases_listed_since (artist_id : string) (since_date : option Z) :
  (forall a,
     selected strptime since_date a = true
     <-> al_release_date_precision a = "day"
         /\ (since_date = None
             \/ exists since t,
                  since_date = Some since
                  /\ strptime (al_release_date a) = Some t /\ since < t))
  /\ (forall pages last,
        sp_artist_albums artist_id
        = Some (foldr PageThen (PageLast last) pages) ->
        (Forall (fun a => al_release_date_precision a = "day" ->
                          is_Some (strptime (al_release_date a)))
           (concat pages ++ last) ->
         get_artist_releases strptime sp_artist_albums artist_id since_date
         = (fun a => {| r_id := al_id a; r_name := al_name a;
                        r_type := al_album_type a;
                        r_release_date := al_release_date a;
                        r_url := al_url a |})
             <$> filter (fun a => selected strptime since_date a = true)
                   (concat pages ++ last))
        /\ (forall before bad after,
              concat pages ++ last = before ++ bad :: after ->
              Forall (fun a => al_release_date_precision a = "day" ->
                               is_Some (strptime (al_release_date a)))
                before ->
              al_release_date_precision bad = "day" ->
              strptime (al_release_date bad) = None ->
              get_artist_releases strptime sp_artist_albums artist_id
                since_date
              = (fun a => {| r_id := al_id a; r_name := al_name a;
                             r_type := al_album_type a;
                             r_release_date := al_release_date a;
                             r_url := al_url a |})
                  <$> filter (fun a => selected strptime since_date a = true)
                        before))
  /\ (sp_artist_albums artist_id = None
      \/ (exists pages items,
            sp_artist_albums artist_id
            = Some (foldr PageThen (PageThenRaises items) pages)) ->
      get_artist_releases strptime sp_artist_albums artist_id since_date = []
      /\ forall current_time s info,
           last_check info = since_date ->
           check_artist strptime sp_artist_albums clock current_time s
             (artist_id, info)
           = {| ps_artists :=
                  set_last_check artist_id current_time (ps_artists s);
                ps_known := ps_known s;
                ps_batch := ps_batch s;
                ps_ticks := ps_ticks s |}).
Proof.
  assert (forall albums : list album,
            Forall (fun a => al_release_date_precision a = "day" ->
                             is_Some (strptime (al_release_date a))) albums ->
            Forall (fun a =>
                      PyStr.eqb (al_release_date_precision a) "day" = true ->
                      is_Some (strptime (al_release_date a))) albums)
    as Hparse.
  { intros albums H. eapply Forall_impl; [exact H|].
    intros a Ha Hday. apply Ha. by apply bool_decide_eq_true in Hday. }
  split; [apply selected_spec|]. split.
  - intros pages last Hcall. unfold get_artist_releases.
    rewrite Hcall, all_albums_pages. split.
    + intros Hdates. by apply select_releases_spec, Hparse.
    + intros before bad after -> Hdates Hday Hbad.
      rewrite select_releases_truncated by done.
      by apply select_releases_spec, Hparse.
  - intros Hfail.
    assert (forall since,
              get_artist_releases strptime sp_artist_albums artist_id since = [])
      as Hnil.
    { intros since. unfold get_artist_releases.
      destruct Hfail as [->|(pages & items & ->)]; [done|].
      by rewrite all_albums_raises. }
    split; [apply Hnil|].
    intros current_time s info _. unfold check_artist. simpl.
    by rewrite Hnil.
Qed.

(** ** Sending *)

Lemma check_for_new_releases_sent current_time d b :
  b ∈ sent (check_for_new_releases strptime sp_artist_albums clock
              current_time d) ->
  b = ps_batch (run_pass strptime sp_artist_albums clock current_time d)
  /\ b <> [] /\ batch_pairs b <> [].
Proof.
  unfold check_for_new_releases. simpl.
  pose proof (pass_inv_run_pass current_time d) as [_ _ Hne].
  destruct (ps_batch (run_pass strptime sp_artist_albums clock current_time d))
    as [|e b'] eqn:Hb; simpl.
  - intros H. by apply elem_of_nil in H.
  - intros H. apply list_elem_of_singleton in H as ->.
    repeat split; [done|].
    specialize (Hne e (list_elem_of_here _ _)).
    unfold batch_pairs. rewrite bind_cons.
    destruct e as [k [nm rs]]. simpl in *.
    destruct rs; [done|]. done.
Qed.

Lemma check_for_new_releases_nothing_new current_time d :
  batch_pairs (ps_batch (run_pass strptime sp_artist_albums clock
                           current_time d)) = [] ->
  sent (check_for_new_releases strptime sp_artist_albums clock current_time d)
  = [].
Proof.
  intros Hnil. unfold check_for_new_releases. simpl.
  pose proof (pass_inv_run_pass current_time d) as [_ _ Hne].
  destruct (ps_batch (run_pass strptime sp_artist_albums clock current_time d))
    as [|e b'] eqn:Hb; [done|].
  specialize (Hne e (list_elem_of_here _ _)).
  unfold batch_pairs in Hnil. rewrite bind_cons in Hnil.
  destruct e as [k [nm rs]]. simpl in *. by destruct rs.
Qed.

End PassFacts.

(** ** The check order *)

Lemma insert_by_key_perm x l : insert_by_key x l ≡ₚ x :: l.
Proof.
  induction l as [|y l IH]; simpl; [done|].
  destruct (sort_key x <=? sort_key y); [done|].
  rewrite IH. apply Permutation_swap.
Qed.

Lemma sorted_artists_perm l : sorted_artists l ≡ₚ l.
Proof.
  induction l as [|x l IH]; simpl; [done|].
  rewrite insert_by_key_perm. by rewrite IH.
Qed.

Lemma insert_by_key_sorted x l :
  StronglySorted key_le l -> StronglySorted key_le (insert_by_key x l).
Proof.
  induction l as [|y l IH]; simpl; intros Hs.
  - repeat constructor.
  - apply StronglySorted_inv in Hs as [Hl Hy].
    destruct (Z.leb_spec (sort_key x) (sort_key y)) as [Hxy|Hxy].
    + constructor; [by constructor|].
      constructor; [exact Hxy|].
      eapply Forall_impl; [exact Hy|].
      unfold key_le. intros; simpl in *. lia.
    + constructor; [by apply IH|].
      rewrite insert_by_key_perm. constructor; [|done].
      unfold key_le. lia.
Qed.

Lemma sorted_artists_sorted l : StronglySorted key_le (sorted_artists l).
Proof.
  induction l as [|x l IH]; simpl; [constructor|].
  by apply insert_by_key_sorted.
Qed.

Lemma insert_by_key_filter k x l :
  filter (has_key_value k) (insert_by_key x l)
  = filter (has_key_value k) (x :: l).
Proof.
  induction l as [|y l IH]; simpl; [done|].
  destruct (Z.leb_spec (sort_key x) (sort_key y)) as [Hxy|Hxy]; [done|].
  rewrite (filter_cons _ y), IH, !(filter_cons _ x), (filter_cons _ y).
  unfold has_key_value.
  repeat case_decide; try done; lia.
Qed.

(** Entries with the same key keep the order they have in the
    dictionary. *)
Lemma sorted_artists_stable k l :
  filter (has_key_value k) (sorted_artists l) = filter (has_key_value k) l.
Proof.
  induction l as [|x l IH]; simpl; [done|].
  rewrite insert_by_key_filter, !filter_cons. by rewrite IH.
Qed.

Lemma sorted_all_filters_nil (l : list (string * artist_info)) :
  (forall k, filter (has_key_value k) l = []) -> l = [].
Proof.
  destruct l as [|y l]; [done|]. intros H.
  specialize (H (sort_key y)).
  rewrite filter_cons_True in H; done.
Qed.

(** A sorted list is determined by its sub-lists of equal keys: any
    stable sort returns what [sorted_artists] returns. *)
Lemma stable_sort_unique (l1 l2 : list (string * artist_info)) :
  StronglySorted key_le l1 -> StronglySorted key_le l2 ->
  (forall k, filter (has_key_value k) l1 = filter (has_key_value k) l2) ->
  l1 = l2.
Proof.
  revert l2. induction l1 as [|x l1 IH]; intros l2 H1 H2 Hf.
  - symmetry. apply sorted_all_filters_nil. intros k. by rewrite <- Hf.
  - destruct l2 as [|y l2].
    { apply sorted_all_filters_nil. intros k. by rewrite Hf. }
    apply StronglySorted_inv in H1 as [H1 Hx].
    apply StronglySorted_inv in H2 as [H2 Hy].
    assert (x = y) as ->.
    { destruct (decide (sort_key x = sort_key y)) as [Heq|Hne].
      - pose proof (Hf (sort_key x)) as Hk.
        rewrite !filter_cons_True in Hk by done. congruence.
      - assert (x ∈ y :: l2) as Hin2.
        { eapply (list_elem_of_filter (has_key_value (sort_key x))).
          rewrite <- Hf, filter_cons_True by done. left. }
        assert (y ∈ x :: l1) as Hin1.
        { eapply (list_elem_of_filter (has_key_value (sort_key y))).
          rewrite Hf, filter_cons_True by done. left. }
        apply elem_of_cons in Hin2 as [->|Hin2]; [done|].
        apply elem_of_cons in Hin1 as [->|Hin1]; [done|].
        rewrite Forall_forall in Hx, Hy.
        specialize (Hx _ Hin1). specialize (Hy _ Hin2).
        unfold key_le in *. lia. }
    f_equal. apply IH; [done..|].
    intros k. specialize (Hf k). rewrite !filter_cons in Hf.
    case_decide; congruence.
Qed.

Lemma sorted_artists_idem l : sorted_artists (sorted_artists l) = sorted_artists l.
Proof.
  apply stable_sort_unique; auto using sorted_artists_sorted.
  intros k. by rewrite !sorted_artists_stable.
Qed.

Lemma sorted_lookup_le (l : list (string * artist_info)) i j x y :
  StronglySorted key_le l -> (i < j)%nat ->
  l !! i = Some x -> l !! j = Some y -> key_le x y.
Proof.
  intros Hs Hij Hi Hj.
  assert (exists l1 l2, l = l1 ++ l2 /\ x ∈ l1 /\ y ∈ l2) as (l1 & l2 & -> & Hx & Hy).
  { exists (take j l), (drop j l). split; [by rewrite take_drop|]. split.
    - apply list_elem_of_lookup. exists i. by rewrite lookup_take_lt.
    - apply list_elem_of_lookup. exists 0%nat. rewrite lookup_drop.
      by rewrite Nat.add_0_r. }
  eapply StronglySorted_app_1_elem_of; eauto.
Qed.

(** C9. Whenever every recorded [last_check] is later than
    [datetime.min] (as every time the monitor writes is), the order in
    which [check_for_new_releases] visits the artists is a rearrangement
    of the tracked artists in which every artist never checked comes
    before every artist with a recorded check, the recorded checks
    ascend, artists with equal keys keep their dictionary order, and
    computing the order again, from the same state or from the order
    itself, gives the same sequence. *)
Theorem check_order_never_checked_first (d : data)
    (Hset : forall e t, e ∈ artists d -> last_check (snd e) = Some t -> 0 < t) :
  let order := sorted_artists (artists d) in
  order ≡ₚ artists d
  /\ (forall i j x y,
        order !! i = Some x -> order !! j = Some y ->
        last_check (snd x) = None -> is_Some (last_check (snd y)) ->
        (i < j)%nat)
  /\ (forall i j x y tx ty,
        (i < j)%nat -> order !! i = Some x -> order !! j = Some y ->
        last_check (snd x) = Some tx -> last_check (snd y) = Some ty ->
        tx <= ty)
  /\ (forall k, filter (has_key_value k) order
                = filter (has_key_value k) (artists d))
  /\ (forall d', artists d' = artists d ->
                 sorted_artists (artists d') = order)
  /\ sorted_artists order = order.
Proof.
  intros order. pose proof (sorted_artists_sorted (artists d)) as Hs.
  fold order in Hs. repeat split.
  - apply sorted_artists_perm.
  - intros i j x y Hi Hj Hx [t Hy].
    destruct (decide (i < j)%nat) as [|Hge]; [done|exfalso].
    assert (y ∈ artists d) as Hin.
    { rewrite <- (sorted_artists_perm (artists d)).
      apply list_elem_of_lookup. eauto. }
    pose proof (Hset _ _ Hin Hy) as Hpos.
    destruct (decide (i = j)) as [->|Hne]; [congruence|].
    assert (key_le y x) as Hle.
    { eapply (sorted_lookup_le order j i); eauto. lia. }
    unfold key_le, sort_key in Hle. rewrite Hx, Hy in Hle. lia.
  - intros i j x y tx ty Hij Hi Hj Hx Hy.
    pose proof (sorted_lookup_le order i j x y Hs Hij Hi Hj) as Hle.
    unfold key_le, sort_key in Hle. by rewrite Hx, Hy in Hle.
  - intros k. apply sorted_artists_stable.
  - intros d' ->. done.
  - apply sorted_artists_idem.
Qed.

(** ** The properties at the sample state *)

Lemma check_order_witness :
  (forall e t, e ∈ artists sample_data -> last_check (snd e) = Some t -> 0 < t)
  /\ fst <$> sorted_artists (artists sample_data) = ["drake"; "lorde"]
  /\ sorted_artists (artists sample_data) ≡ₚ artists sample_data.
Proof.
  assert (forall e t, e ∈ artists sample_data ->
            last_check (snd e) = Some t -> 0 < t) as Hset.
  { intros e t Hin Ht. simpl in Hin.
    apply elem_of_cons in Hin as [->|Hin].
    - simpl in Ht. injection Ht as <-. vm_compute. reflexivity.
    - apply list_elem_of_singleton in Hin as ->. discriminate. }
  split; [exact Hset|]. split; [vm_compute; reflexivity|].
  exact (proj1 (check_order_never_checked_first sample_data Hset)).
Defined.

Lemma releases_listed_since_witness :
  get_artist_releases Calendar.strptime_Y_m_d sample_catalog "drake"
    (Some sample_since)
  = [release_of (sample_album "a1" "2025-06-27" "day")]
  /\ get_artist_releases Calendar.strptime_Y_m_d sample_catalog "drake" None
     = [release_of (sample_album "a1" "2025-06-27" "day");
        release_of (sample_album "a3" "2025-06-20" "day")]
  /\ get_artist_releases Calendar.strptime_Y_m_d sample_catalog "lorde"
       (Some sample_since) = [].
Proof.
  assert (Forall (fun a => al_release_date_precision a = "day" ->
                    is_Some (Calendar.strptime_Y_m_d (al_release_date a)))
            (concat [[sample_album "a1" "2025-06-27" "day"]]
               ++ [sample_album "a2" "2019" "year";
                   sample_album "a3" "2025-06-20" "day"])) as Hdates.
  { apply Forall_cons; split; [intros _; vm_compute; by eexists|].
    apply Forall_cons; split; [intros H; vm_compute in H; discriminate|].
    apply Forall_cons; split; [intros _; vm_compute; by eexists|].
    apply Forall_nil. done. }
  split; [|split].
  - rewrite (proj1 (proj1 (proj2 (releases_listed_since
                Calendar.strptime_Y_m_d sample_catalog (fun _ => 0) "drake"
                (Some sample_since)))
              [[sample_album "a1" "2025-06-27" "day"]]
              [sample_album "a2" "2019" "year";
               sample_album "a3" "2025-06-20" "day"] eq_refl) Hdates).
    vm_compute. reflexivity.
  - rewrite (proj1 (proj1 (proj2 (releases_listed_since
                Calendar.strptime_Y_m_d sample_catalog (fun _ => 0) "drake"
                None))
              [[sample_album "a1" "2025-06-27" "day"]]
              [sample_album "a2" "2019" "year";
               sample_album "a3" "2025-06-20" "day"] eq_refl) Hdates).
    vm_compute. reflexivity.
  - apply (proj2 (proj2 (releases_listed_since Calendar.strptime_Y_m_d
                           sample_catalog (fun _ => 0) "lorde"
                           (Some sample_since)))).
    left. vm_compute. reflexivity.
Defined.

End MonitorFacts.


(** * Properties of the Friday digest *)
Module FridayFacts.
Import Friday.

(** ** Deduplication *)

Lemma filter_ext_elem {A : Type} (P Q : A -> Prop)
    `{!forall x, Decision (P x)} `{!forall x, Decision (Q x)} (l : list A) :
  (forall x, x ∈ l -> P x <-> Q x) -> filter P l = filter Q l.
Proof.
  induction l as [|x l IH]; intros Hext; [done|].
  rewrite !filter_cons.
  destruct (decide (P x)) as [HP|HP], (decide (Q x)) as [HQ|HQ].
  - f_equal. apply IH. intros y Hy. apply Hext. by right.
  - exfalso. apply HQ, Hext; [left|done].
  - exfalso. apply HP, Hext; [left|done].
  - apply IH. intros y Hy. apply Hext. by right.
Qed.

Lemma filter_none {A : Type} (P : A -> Prop)
    `{!forall x, Decision (P x)} (l : list A) :
  (forall x, x ∈ l -> ~ P x) -> filter P l = [].
Proof.
  induction l as [|x l IH]; intros Hnone; [done|].
  rewrite filter_cons_False; [|apply Hnone; left].
  apply IH. intros y Hy. apply Hnone. by right.
Qed.

Lemma del_not_in key (l : albums_t) : key ∉ fst <$> l -> del key l = l.
Proof.
  intros Hnot. unfold del. induction l as [|x l IH]; [done|].
  rewrite fmap_cons, not_elem_of_cons in Hnot. destruct Hnot as [Hx Hl].
  rewrite filter_cons_True by congruence. f_equal. by apply IH.
Qed.

Lemma del_app key (l1 l2 : albums_t) :
  del key (l1 ++ l2) = del key l1 ++ del key l2.
Proof. unfold del. apply filter_app. Qed.

Lemma del_cons_eq key v (l : albums_t) : del key ((key, v) :: l) = del key l.
Proof. unfold del. by rewrite filter_cons_False by (simpl; auto). Qed.

Lemma champ_snoc nk p x : champ nk (p ++ [x]) = champ_step nk (champ nk p) x.
Proof. unfold champ. by rewrite fold_left_app. Qed.

Lemma champ_step_other nk c x :
  normalized (fst x) <> nk -> champ_step nk c x = c.
Proof. intros H. unfold champ_step. by rewrite bool_decide_eq_false_2. Qed.

Lemma champ_Some nk l b :
  champ nk l = Some b -> b ∈ l /\ normalized (fst b) = nk.
Proof.
  revert b. induction l as [|x l IH] using rev_ind; intros b; [done|].
  rewrite champ_snoc. unfold champ_step.
  case_bool_decide as Hx.
  - destruct (champ nk l) as [c|] eqn:Hc.
    + destruct (tracks c <? tracks x); intros [= <-].
      * split; [|done]. apply elem_of_app. right. left.
      * destruct (IH _ eq_refl). split; [|done]. apply elem_of_app. by left.
    + intros [= <-]. split; [|done]. apply elem_of_app. right. left.
  - intros Hb. destruct (IH _ Hb). split; [|done]. apply elem_of_app. by left.
Qed.

Lemma champ_None nk l e :
  champ nk l = None -> e ∈ l -> normalized (fst e) <> nk.
Proof.
  induction l as [|x l IH] using rev_ind; intros Hc Hin.
  - by apply elem_of_nil in Hin.
  - rewrite champ_snoc in Hc. unfold champ_step in Hc.
    case_bool_decide as Hx.
    + destruct (champ nk l) as [c|]; [|done]. by destruct (tracks c <? tracks x).
    + apply elem_of_app in Hin as [Hin|Hin]; [by apply IH|].
      by apply list_elem_of_singleton in Hin as ->.
Qed.

Lemma champ_is_Some nk l e :
  e ∈ l -> normalized (fst e) = nk -> is_Some (champ nk l).
Proof.
  intros Hin Hnk. destruct (champ nk l) eqn:Hc; [by eexists|].
  by destruct (champ_None _ _ _ Hc Hin).
Qed.

(** The champion of a class is its first entry with the largest count:
    the entries of the class before it have strictly fewer tracks, those
    after it have no more. *)
Lemma champ_first_max nk l c :
  champ nk l = Some c ->
  exists l1 l2,
    l = l1 ++ c :: l2
    /\ normalized (fst c) = nk
    /\ Forall (fun e => normalized (fst e) = nk -> tracks e < tracks c) l1
    /\ Forall (fun e => normalized (fst e) = nk -> tracks e <= tracks c) l2.
Proof.
  revert c. induction l as [|x l IH] using rev_ind; intros c; [done|].
  rewrite champ_snoc. unfold champ_step.
  case_bool_decide as Hx.
  - destruct (champ nk l) as [b|] eqn:Hb.
    + destruct (IH b eq_refl) as (l1 & l2 & -> & Hnk & H1 & H2).
      destruct (Z.ltb_spec (tracks b) (tracks x)) as [Hlt|Hge]; intros [= <-].
      * exists (l1 ++ b :: l2), []. split; [done|]. split; [done|].
        split; [|constructor].
        apply Forall_app. split; [|constructor].
        -- eapply Forall_impl; [exact H1|]. simpl. intros e He Hn.
           specialize (He Hn). lia.
        -- lia.
        -- eapply Forall_impl; [exact H2|]. simpl. intros e He Hn.
           specialize (He Hn). lia.
      * exists l1, (l2 ++ [x]). split; [by rewrite <- app_assoc|].
        split; [done|]. split; [done|].
        apply Forall_app. split; [done|].
        constructor; [|constructor]. lia.
    + intros [= <-]. exists l, []. split; [done|]. split; [done|].
      split; [|constructor].
      apply Forall_forall. intros e He Hn. by destruct (champ_None _ _ _ Hb He).
  - intros Hc. destruct (IH c Hc) as (l1 & l2 & -> & Hnk & H1 & H2).
    exists l1, (l2 ++ [x]). split; [by rewrite <- app_assoc|].
    split; [done|]. split; [done|].
    apply Forall_app. split; [done|].
    constructor; [|constructor]. intros. done.
Qed.

Lemma same_key_same_entry (l : albums_t) e e' :
  NoDup (fst <$> l) -> e ∈ l -> e' ∈ l -> fst e = fst e' -> e = e'.
Proof.
  induction l as [|x l IH]; intros Hnd He He' Hk.
  - by apply elem_of_nil in He.
  - rewrite fmap_cons in Hnd. apply NoDup_cons in Hnd as [Hx Hnd].
    apply elem_of_cons in He as [->|He], He' as [->|He']; [done|..].
    + exfalso. apply Hx. rewrite Hk. by apply list_elem_of_fmap_2.
    + exfalso. apply Hx. rewrite <- Hk. by apply list_elem_of_fmap_2.
    + by apply IH.
Qed.

Lemma keys_filter_subset (P : akey * entry -> Prop)
    `{!forall x, Decision (P x)} (l : albums_t) k :
  k ∈ fst <$> filter P l -> k ∈ fst <$> l.
Proof.
  intros Hin. apply list_elem_of_fmap in Hin as (e & -> & He).
  apply list_elem_of_filter in He as [_ He]. by apply list_elem_of_fmap_2.
Qed.

Lemma survives_snoc_self_new p x :
  champ (normalized (fst x)) p = None -> survives (p ++ [x]) x.
Proof.
  intros Hc. unfold survives. rewrite champ_snoc, Hc. unfold champ_step.
  by rewrite bool_decide_eq_true_2.
Qed.

Lemma survives_snoc_other p x e :
  normalized (fst x) <> normalized (fst e) ->
  survives (p ++ [x]) e <-> survives p e.
Proof.
  intros Hne. unfold survives. by rewrite champ_snoc, champ_step_other.
Qed.

Lemma dedup_step_inv (p : albums_t) (x : akey * entry) (q : albums_t)
    (seen : gmap akey (akey * option spotify_info)) :
  NoDup (fst <$> (p ++ x :: q)) ->
  (forall nk, seen !! nk = seen_entry <$> champ nk p) ->
  exists seen',
    dedup_step (filter (survives p) p ++ x :: q, seen) x
    = (filter (survives (p ++ [x])) (p ++ [x]) ++ q, seen')
    /\ (forall nk, seen' !! nk = seen_entry <$> champ nk (p ++ [x])).
Proof.
  intros Hnd Hseen.
  rewrite fmap_app, fmap_cons in Hnd.
  apply NoDup_app in Hnd as (Hndp & Hpq & Hndq).
  apply NoDup_cons in Hndq as [Hxq Hndq].
  assert (fst x ∉ fst <$> p) as Hxp.
  { intros Hin. apply (Hpq _ Hin). left. }
  assert (forall e, e ∈ p -> fst e ∉ fst <$> q) as Hpq'.
  { intros e He Hin. apply (Hpq (fst e)); [by apply list_elem_of_fmap_2|].
    by right. }
  assert (forall e, e ∈ p -> fst e <> fst x) as Hpx.
  { intros e He Heq. apply Hxp. rewrite <- Heq. by apply list_elem_of_fmap_2. }
  unfold dedup_step. rewrite Hseen.
  destruct (champ (normalized (fst x)) p) as [b|] eqn:Hb; simpl.
  - destruct (champ_Some _ _ _ Hb) as [Hbin Hbn].
    change (tracks_of (spotify_info_of (snd b))) with (tracks b).
    change (tracks_of (spotify_info_of (snd x))) with (tracks x).
    destruct (Z.ltb_spec (tracks b) (tracks x)) as [Hlt|Hge].
    + exists (<[normalized (fst x) := seen_entry x]> seen). split.
      * f_equal. rewrite del_app, filter_app, <- app_assoc.
        rewrite (del_not_in (fst b) (x :: q)).
        2:{ rewrite fmap_cons, not_elem_of_cons. split; [by apply Hpx|].
            by apply Hpq'. }
        f_equal.
        -- unfold del. rewrite list_filter_filter.
           apply filter_ext_elem. intros e He.
           destruct (decide (normalized (fst e) = normalized (fst x)))
             as [Hc|Hc].
           ++ unfold survives. rewrite champ_snoc, Hc, Hb. unfold champ_step.
              rewrite bool_decide_eq_true_2 by done.
              destruct (Z.ltb_spec (tracks b) (tracks x)); [|lia]. simpl.
              split.
              ** intros [Hne [= Heq]]. congruence.
              ** intros [= Heq]. by destruct (Hpx _ He).
           ++ rewrite survives_snoc_other by congruence. split.
              ** by intros [_ ?].
              ** intros Hs. split; [|done]. intros Heq. apply Hc.
                 by rewrite Heq.
        -- rewrite filter_cons_True, filter_nil; [done|].
           unfold survives. rewrite champ_snoc, Hb. unfold champ_step.
           rewrite bool_decide_eq_true_2 by done.
           by destruct (Z.ltb_spec (tracks b) (tracks x)); [|lia].
      * intros nk. rewrite lookup_insert, champ_snoc. case_decide as Hnk.
        -- subst nk. rewrite Hb. unfold champ_step.
           rewrite bool_decide_eq_true_2 by done.
           by destruct (Z.ltb_spec (tracks b) (tracks x)); [|lia].
        -- rewrite champ_step_other by done. apply Hseen.
    + exists seen. split.
      * f_equal. rewrite del_app, filter_app, <- app_assoc.
        rewrite (del_not_in (fst x) (filter (survives p) p)).
        2:{ intros Hin. apply Hxp. by eapply keys_filter_subset. }
        destruct x as [k v]. rewrite del_cons_eq, del_not_in by done.
        f_equal.
        -- apply filter_ext_elem. intros e He.
           destruct (decide (normalized (fst e) = normalized k)) as [Hc|Hc].
           ++ unfold survives. rewrite champ_snoc, Hc. simpl in Hb.
              rewrite Hb. unfold champ_step.
              rewrite bool_decide_eq_true_2 by done.
              by destruct (Z.ltb_spec (tracks b) (tracks (k, v))); [lia|].
           ++ symmetry. apply survives_snoc_other. simpl. congruence.
        -- rewrite filter_cons_False, filter_nil; [done|].
           unfold survives. rewrite champ_snoc. simpl in *. rewrite Hb.
           unfold champ_step. rewrite bool_decide_eq_true_2 by done.
           destruct (Z.ltb_spec (tracks b) (tracks (k, v))); [lia|]. simpl.
           intros [= Heq]. by destruct (Hpx _ Hbin).
      * intros nk. rewrite champ_snoc, Hseen.
        destruct (decide (normalized (fst x) = nk)) as [<-|Hnk].
        -- rewrite Hb. unfold champ_step.
           rewrite bool_decide_eq_true_2 by done.
           by destruct (Z.ltb_spec (tracks b) (tracks x)); [lia|].
        -- by rewrite champ_step_other.
  - exists (<[normalized (fst x) := seen_entry x]> seen). split.
    + f_equal. rewrite filter_app, <- app_assoc. f_equal.
      * apply filter_ext_elem. intros e He. symmetry.
        apply survives_snoc_other. intros Heq. symmetry in Heq.
        by destruct (champ_None _ _ _ Hb He).
      * rewrite filter_cons_True, filter_nil; [done|].
        by apply survives_snoc_self_new.
    + intros nk. rewrite lookup_insert, champ_snoc. case_decide as Hnk.
      * subst nk. rewrite Hb. unfold champ_step.
        by rewrite bool_decide_eq_true_2.
      * rewrite champ_step_other by done. apply Hseen.
Qed.

Lemma dedup_fold (q : albums_t) :
  forall (p : albums_t) (seen : gmap akey (akey * option spotify_info)),
  NoDup (fst <$> (p ++ q)) ->
  (forall nk, seen !! nk = seen_entry <$> champ nk p) ->
  fst (fold_left dedup_step q (filter (survives p) p ++ q, seen))
  = filter (survives (p ++ q)) (p ++ q).
Proof.
  induction q as [|x q IH]; intros p seen Hnd Hseen.
  - simpl. by rewrite !app_nil_r.
  - cbn [fold_left].
    destruct (dedup_step_inv p x q seen Hnd Hseen) as (seen' & -> & Hseen').
    rewrite (IH (p ++ [x]) seen'); [|by rewrite <- app_assoc|done].
    by rewrite <- app_assoc.
Qed.

(** What [deduplicate_albums] keeps of a collection (whose keys, being
    those of a dictionary, are distinct): the champions of the classes, in
    the order they had. *)
Lemma deduplicate_albums_filter (albums : albums_t) :
  NoDup (fst <$> albums) ->
  deduplicate_albums albums = filter (survives albums) albums.
Proof.
  intros Hnd. unfold deduplicate_albums.
  apply (dedup_fold albums [] ∅); [done|].
  intros nk. by rewrite lookup_empty.
Qed.

Lemma deduplicate_albums_elem (albums : albums_t) e :
  NoDup (fst <$> albums) ->
  e ∈ deduplicate_albums albums
  <-> e ∈ albums /\ champ (normalized (fst e)) albums = Some e.
Proof.
  intros Hnd. rewrite deduplicate_albums_filter by done.
  rewrite list_elem_of_filter. unfold survives. split.
  - intros [Hs He]. split; [done|].
    destruct (champ (normalized (fst e)) albums) as [c|] eqn:Hc; [|done].
    simpl in Hs. injection Hs as Hs.
    destruct (champ_Some _ _ _ Hc) as [Hcin _].
    f_equal. by apply (same_key_same_entry albums).
  - intros [He Hc]. by rewrite Hc.
Qed.

(** The entry kept for a class is the first one of the class with the
    largest number of tracks. *)
Lemma deduplicate_albums_first_max (albums : albums_t) e :
  NoDup (fst <$> albums) ->
  e ∈ deduplicate_albums albums ->
  exists l1 l2,
    albums = l1 ++ e :: l2
    /\ Forall (fun e' => normalized (fst e') = normalized (fst e) ->
                         tracks e' < tracks e) l1
    /\ Forall (fun e' => normalized (fst e') = normalized (fst e) ->
                         tracks e' <= tracks e) l2.
Proof.
  intros Hnd He. apply deduplicate_albums_elem in He as [_ Hc]; [|done].
  destruct (champ_first_max _ _ _ Hc) as (l1 & l2 & ? & _ & ? & ?).
  by exists l1, l2.
Qed.

(** Every class of the collection keeps an entry. *)
Lemma deduplicate_albums_class_kept (albums : albums_t) e :
  NoDup (fst <$> albums) -> e ∈ albums ->
  exists c, c ∈ deduplicate_albums albums
            /\ normalized (fst c) = normalized (fst e).
Proof.
  intros Hnd He.
  destruct (champ_is_Some (normalized (fst e)) albums e He eq_refl) as [c Hc].
  destruct (champ_Some _ _ _ Hc) as [Hcin Hcn].
  exists c. split; [|done].
  apply deduplicate_albums_elem; [done|]. split; [done|]. by rewrite Hcn.
Qed.

(** No two entries that are kept have the same normalized key. *)
Lemma deduplicate_albums_classes_distinct (albums : albums_t) :
  NoDup (fst <$> albums) ->
  NoDup ((fun e => normalized (fst e)) <$> deduplicate_albums albums).
Proof.
  intros Hnd. apply NoDup_fmap_2_strong.
  - intros e e' He He' Hn.
    apply deduplicate_albums_elem in He as [_ Hc]; [|done].
    apply deduplicate_albums_elem in He' as [_ Hc']; [|done].
    rewrite Hn in Hc. congruence.
  - rewrite deduplicate_albums_filter by done.
    apply NoDup_filter. by eapply NoDup_fmap_1.
Qed.

(** Two entries of one class: the second is kept when it has strictly
    more tracks, the first otherwise. *)
Lemma deduplicate_albums_two (e1 e2 : akey * entry) :
  fst e1 <> fst e2 -> normalized (fst e1) = normalized (fst e2) ->
  deduplicate_albums [e1; e2]
  = if tracks e1 <? tracks e2 then [e2] else [e1].
Proof.
  intros Hne Hn. rewrite deduplicate_albums_filter.
  2:{ simpl. apply NoDup_cons. split; [|apply NoDup_singleton].
      by rewrite list_elem_of_singleton. }
  assert (champ (normalized (fst e2)) [e1; e2]
          = Some (if tracks e1 <? tracks e2 then e2 else e1)) as Hc.
  { unfold champ. simpl. unfold champ_step.
    rewrite !bool_decide_eq_true_2 by done.
    by destruct (tracks e1 <? tracks e2). }
  assert (forall e, survives [e1; e2] e
            <-> normalized (fst e) = normalized (fst e2)
                /\ fst (if tracks e1 <? tracks e2 then e2 else e1) = fst e \/
                normalized (fst e) <> normalized (fst e2)
                /\ survives [e1; e2] e) as Hs.
  { intros e. unfold survives.
    destruct (decide (normalized (fst e) = normalized (fst e2))) as [He|He].
    - rewrite He, Hc. simpl. split.
      + intros [= ?]. by left.
      + intros [[_ ?]|[? _]]; [by f_equal|done].
    - split; [by right|]. by intros [[? _]|[_ ?]]. }
  destruct (tracks e1 <? tracks e2).
  - rewrite filter_cons_False, filter_cons_True, filter_nil; [done|..].
    + apply Hs. by left.
    + rewrite Hs. intros [[_ ?]|[? _]]; congruence.
  - rewrite filter_cons_True, filter_cons_False, filter_nil; [done|..].
    + rewrite Hs. intros [[_ ?]|[? _]]; congruence.
    + apply Hs. by left.
Qed.

(** ** Reading the sources *)

Lemma process_sources_collect sources_data :
  process_sources sources_data = collect (mentions sources_data).
Proof.
  unfold process_sources, collect. generalize (@nil (akey * entry)).
  induction sources_data as [|[src l] sd IH]; intros albums; [done|].
  unfold mentions. rewrite bind_cons, fold_left_app. simpl.
  fold (mentions sd). rewrite <- IH. f_equal.
  clear. revert albums. induction l as [|k l IH]; intros albums; [done|].
  simpl. apply IH.
Qed.

Lemma collect_snoc ms m :
  collect (ms ++ [m]) = add_mention (fst m) (collect ms) (snd m).
Proof. unfold collect. by rewrite fold_left_app. Qed.

Lemma keys_add_mention src (albums : albums_t) key :
  fst <$> add_mention src albums key
  = (fst <$> albums) ++ (if has_key key albums then [] else [key]).
Proof.
  unfold add_mention. rewrite <- list_fmap_compose.
  rewrite (list_fmap_ext _ fst).
  2:{ intros i e _. simpl. by case_bool_decide. }
  destruct (has_key key albums); [by rewrite app_nil_r|].
  by rewrite fmap_app.
Qed.

Lemma has_key_spec key (albums : albums_t) :
  has_key key albums = true <-> key ∈ fst <$> albums.
Proof. unfold has_key. apply bool_decide_eq_true. Qed.

Lemma collect_keys_NoDup ms : NoDup (fst <$> collect ms).
Proof.
  induction ms as [|m ms IH] using rev_ind; [constructor|].
  rewrite collect_snoc, keys_add_mention.
  destruct (has_key (snd m) (collect ms)) eqn:Hk.
  - by rewrite app_nil_r.
  - apply NoDup_app. split; [done|]. split; [|apply NoDup_singleton].
    intros k Hin Hk'. apply list_elem_of_singleton in Hk' as ->.
    apply has_key_spec in Hin. congruence.
Qed.

Lemma collect_keys ms k : k ∈ fst <$> collect ms <-> k ∈ snd <$> ms.
Proof.
  revert k. induction ms as [|m ms IH] using rev_ind; intros k; [done|].
  rewrite collect_snoc, keys_add_mention, fmap_app, !elem_of_app, IH.
  simpl. rewrite list_elem_of_singleton.
  destruct (has_key (snd m) (collect ms)) eqn:Hk.
  - apply has_key_spec, IH in Hk. rewrite elem_of_nil.
    split; [intros [?|?]; [by left|done]|]. intros [? | ->]; by left.
  - by rewrite list_elem_of_singleton.
Qed.

Lemma collect_entry ms k e :
  (k, e) ∈ collect ms ->
  sources e = fst <$> filter (fun m : string * akey => snd m = k) ms
  /\ spotify_info_of e = None.
Proof.
  revert k e. induction ms as [|m ms IH] using rev_ind; intros k e Hin.
  - by apply elem_of_nil in Hin.
  - rewrite collect_snoc in Hin. unfold add_mention in Hin.
    apply list_elem_of_fmap in Hin as ([k0 e0] & Heq & Hin).
    rewrite filter_app, fmap_app.
    assert ((k0, e0) ∈ collect ms \/
            (has_key (snd m) (collect ms) = false /\ k0 = snd m
             /\ sources e0 = [] /\ spotify_info_of e0 = None)) as Hcase.
    { destruct (has_key (snd m) (collect ms)); [by left|].
      apply elem_of_app in Hin as [Hin|Hin]; [by left|].
      apply list_elem_of_singleton in Hin. right. by simplify_eq/=. }
    assert (sources e0
            = fst <$> filter (fun m0 : string * akey => snd m0 = k0) ms
            /\ spotify_info_of e0 = None) as [Hsrc Hinfo].
    { destruct Hcase as [Hold|(Hk & -> & -> & ->)]; [by apply IH|].
      split; [|done]. symmetry.
      rewrite filter_none; [done|].
      intros m' Hm' Hkey.
      assert (has_key (snd m) (collect ms) = true); [|congruence].
      apply has_key_spec, collect_keys. rewrite <- Hkey.
      by apply list_elem_of_fmap_2. }
    simpl in Heq. case_bool_decide as Hk; simplify_eq/=.
    + rewrite filter_cons_True, filter_nil by done. by rewrite Hsrc.
    + rewrite filter_cons_False, filter_nil by done.
      by rewrite app_nil_r.
Qed.

(** Before the catalog has been asked every count is zero, so the
    champion of a class is its first entry. *)
Lemma champ_unenriched nk (l : albums_t) :
  (forall e, e ∈ l -> spotify_info_of (snd e) = None) ->
  champ nk l = head (filter (fun e => same_class nk (fst e)) l).
Proof.
  induction l as [|x l IH] using rev_ind; intros Hnone; [done|].
  rewrite champ_snoc, filter_app, IH.
  2:{ intros e He. apply Hnone, elem_of_app. by left. }
  unfold champ_step. case_bool_decide as Hx.
  - rewrite filter_cons_True, filter_nil by done.
    destruct (filter _ l) as [|b l'] eqn:Hf; simpl; [done|].
    assert (b ∈ l) as Hb.
    { eapply list_elem_of_filter. rewrite Hf. left. }
    unfold tracks. rewrite (Hnone b), (Hnone x); [done|..].
    + apply elem_of_app. right. left.
    + apply elem_of_app. by left.
  - rewrite filter_cons_False, filter_nil by done. by rewrite app_nil_r.
Qed.

Lemma head_filter_fst nk (l : albums_t) :
  fst <$> head (filter (fun e => same_class nk (fst e)) l)
  = head (filter (same_class nk) (fst <$> l)).
Proof.
  induction l as [|x l IH]; [done|].
  rewrite fmap_cons, !filter_cons. simpl.
  destruct (decide (same_class nk (fst x))); [done|exact IH].
Qed.

Lemma head_app_nonempty {A : Type} (l1 l2 : list A) :
  l1 <> [] -> head (l1 ++ l2) = head l1.
Proof. by destruct l1. Qed.

(** The keys of the collection are the spellings in the order in which
    they are first mentioned: the first key of a class is the first
    mention of the class. *)
Lemma collect_first_spelling nk ms :
  head (filter (same_class nk) (fst <$> collect ms))
  = head (filter (same_class nk) (snd <$> ms)).
Proof.
  induction ms as [|m ms IH] using rev_ind; [done|].
  rewrite collect_snoc, keys_add_mention, fmap_app, !filter_app.
  destruct (filter (same_class nk) (fst <$> collect ms)) as [|k ks] eqn:Hf.
  - assert (filter (same_class nk) (snd <$> ms) = []) as ->.
    { apply filter_none. intros k Hk Hc.
      apply collect_keys in Hk.
      assert (k ∈ filter (same_class nk) (fst <$> collect ms)) as Hin.
      { by apply list_elem_of_filter. }
      rewrite Hf in Hin. by apply elem_of_nil in Hin. }
    simpl. destruct (has_key (snd m) (collect ms)) eqn:Hk; [|done].
    rewrite filter_nil. simpl. rewrite filter_cons, filter_nil.
    destruct (decide (same_class nk (snd m))) as [Hc|Hc]; [|done].
    apply has_key_spec in Hk.
    assert (snd m ∈ filter (same_class nk) (fst <$> collect ms)) as Hin.
    { by apply list_elem_of_filter. }
    rewrite Hf in Hin. by apply elem_of_nil in Hin.
  - simpl in *.
    destruct (filter (same_class nk) (snd <$> ms)) as [|k' ks']; [done|].
    exact IH.
Qed.

Lemma mention_class_kept
    (sources_data : list (string * list (string * string))) m :
  m ∈ mentions sources_data ->
  exists e, e ∈ deduplicate_albums (process_sources sources_data)
            /\ normalized (fst e) = normalized (snd m).
Proof.
  intros Hm. rewrite process_sources_collect.
  assert (snd m ∈ fst <$> collect (mentions sources_data)) as Hk.
  { apply collect_keys. by apply list_elem_of_fmap_2. }
  apply list_elem_of_fmap in Hk as (e0 & Hk & He0).
  destruct (deduplicate_albums_class_kept _ _
              (collect_keys_NoDup (mentions sources_data)) He0)
    as (c & Hc & Hn).
  exists c. split; [done|]. by rewrite Hn, <- Hk.
Qed.

Lemma kept_entry_first_spelling
    (sources_data : list (string * list (string * string))) e :
  e ∈ deduplicate_albums (process_sources sources_data) ->
  head (filter (same_class (normalized (fst e)))
          (snd <$> mentions sources_data))
  = Some (fst e)
  /\ sources (snd e)
     = fst <$> filter (fun m : string * akey => snd m = fst e)
                 (mentions sources_data).
Proof.
  set (ms := mentions sources_data).
  pose proof (collect_keys_NoDup ms) as Hnd.
  destruct e as [k e]. intros He.
  rewrite process_sources_collect in He. fold ms in He.
  apply deduplicate_albums_elem in He as [Hin Hc]; [|done]. split.
  - rewrite <- collect_first_spelling, <- head_filter_fst.
    rewrite <- champ_unenriched; [by rewrite Hc|].
    intros [k' e'] He'. by apply (collect_entry ms k' e').
  - simpl. by apply (collect_entry ms k e).
Qed.



(** ** The scrapers and the run *)

Lemma scrape_metacritic_Returns td page found :
  scrape_metacritic td page = Returns found ->
  found <> [] /\ exists items,
    page = Some items /\ found = metacritic_rows td items false.
Proof.
  unfold scrape_metacritic. destruct page as [items|]; [|done].
  destruct (metacritic_rows td items false) eqn:Hrows; [done|].
  intros [= <-]. split; [done|]. by exists items.
Qed.

Lemma scrape_genius_Returns td page found :
  scrape_genius td page = Returns found ->
  found <> [] /\ exists items,
    page = Some items /\ found = genius_items td items false.
Proof.
  unfold scrape_genius. destruct page as [items|]; [|done].
  destruct (genius_items td items false) eqn:Hrows; [done|].
  intros [= <-]. split; [done|]. by exists items.
Qed.

Lemma scrape_wikipedia_Returns td page found :
  scrape_wikipedia td page = Returns found ->
  found <> [] /\ exists tables,
    page = Some tables /\ found = concat (wikipedia_table td <$> tables).
Proof.
  unfold scrape_wikipedia. destruct page as [tables|]; [|done].
  destruct (concat (wikipedia_table td <$> tables)) eqn:Hrows; [done|].
  intros [= <-]. split; [done|]. by exists tables.
Qed.



Lemma scrape_all_Returns w td sources_data :
  scrape_all w td = Returns sources_data ->
  exists m g k,
    sources_data = [("Metacritic", m); ("Genius", g); ("Wikipedia", k)]
    /\ scrape_metacritic td (metacritic_page w) = Returns m
    /\ scrape_genius td (genius_page w) = Returns g
    /\ scrape_wikipedia td (wikipedia_page w) = Returns k.
Proof.
  unfold scrape_all.
  destruct (scrape_metacritic td (metacritic_page w)) as [m|]; [|done].
  destruct (scrape_genius td (genius_page w)) as [g|]; [|done].
  destruct (scrape_wikipedia td (wikipedia_page w)) as [k|]; [|done].
  simpl. intros [= <-]. by exists m, g, k.
Qed.




Lemma fmap_nonempty {A B : Type} (f : A -> B) (l : list A) :
  l <> [] -> f <$> l <> [].
Proof. by destruct l. Qed.

(** A run that returns has found at least one album. *)
Lemma collect_albums_nonempty w today albums :
  collect_albums w today = Returns albums -> albums <> [].
Proof.
  unfold collect_albums.
  destruct (scrape_all w (get_tomorrow_date today)) as [sd|] eqn:Hsd; [|done].
  simpl. intros [= <-].
  destruct (scrape_all_Returns _ _ _ Hsd) as (m & g & k & -> & Hm & _ & _).
  apply scrape_metacritic_Returns in Hm as [Hm _].
  unfold enrich. apply fmap_nonempty.
  destruct m as [|key m]; [done|].
  set (sd := [("Metacritic", key :: m); ("Genius", g); ("Wikipedia", k)]).
  assert (("Metacritic", key) ∈ mentions sd) as Hmention by left.
  destruct (mention_class_kept sd _ Hmention) as (e & He & _).
  intros Hnil. rewrite Hnil in He. by apply elem_of_nil in He.
Qed.

Lemma run_once_sends_nonempty w today b :
  b ∈ fst (run_once w today) -> b <> [].
Proof.
  unfold run_once.
  destruct (collect_albums w today) as [albums|] eqn:Hc; simpl.
  - intros Hb. apply list_elem_of_singleton in Hb as ->.
    by eapply collect_albums_nonempty.
  - intros Hb. by apply elem_of_nil in Hb.
Qed.

(** ** The catalog search *)

Lemma max_total_tracks_first_max l : forall best pre mid,
  Forall (fun x => total_tracks x < total_tracks best) pre ->
  Forall (fun x => total_tracks x <= total_tracks best) mid ->
  exists l1 l2,
    pre ++ best :: mid ++ l = l1 ++ max_total_tracks best l :: l2
    /\ Forall (fun x => total_tracks x
                        < total_tracks (max_total_tracks best l)) l1
    /\ Forall (fun x => total_tracks x
                        <= total_tracks (max_total_tracks best l)) l2.
Proof.
  induction l as [|x l IH]; intros best pre mid Hpre Hmid; simpl.
  - exists pre, mid. by rewrite app_nil_r.
  - destruct (Z.ltb_spec (total_tracks best) (total_tracks x)) as [Hlt|Hge].
    + destruct (IH x (pre ++ best :: mid) []) as (l1 & l2 & Heq & H1 & H2).
      * apply Forall_app. split.
        -- eapply Forall_impl; [exact Hpre|]. simpl. intros; lia.
        -- constructor; [done|].
           eapply Forall_impl; [exact Hmid|]. simpl. intros; lia.
      * constructor.
      * exists l1, l2. split; [|done].
        rewrite <- Heq. simpl. by rewrite <- app_assoc.
    + destruct (IH best pre (mid ++ [x])) as (l1 & l2 & Heq & H1 & H2).
      * done.
      * apply Forall_app. split; [done|]. constructor; [done|constructor].
      * exists l1, l2. split; [|done].
        rewrite <- Heq. by rewrite <- app_assoc.
Qed.

Lemma accepted_date_spec td a :
  accepted_date td a = true
  <-> release_date a = spotify_format td
      \/ release_date a = Calendar.strftime_Y_m_d (date_obj td + (-1)).
Proof.
  unfold accepted_date, PyStr.eqb.
  by rewrite orb_true_iff, !bool_decide_eq_true.
Qed.

(** C5. [search_spotify_album] asks the precise query, the artist
    after ["artist:"] and the title after [" album:"], with limit 50 and
    takes its answer when it is not empty, otherwise the answer of the
    broad query, artist and title with a space between them, with limit
    50; of these candidates it keeps those dated the target date (the day
    after [today]) or the day before it and returns the uri, the number
    of tracks, the first image if there is one and the link of the first
    of them with the largest number of tracks; when none is so dated, or
    when a call raises, it returns [None]. A catalog that honours the
    limit gives at most 50 candidates. *)
Theorem search_spotify_album_first_max (w : world) (artist album : string)
    (today : Z) :
  let td := get_tomorrow_date today in
  let precise :=
    spotify_search w ("artist:" +:+ artist +:+ " album:" +:+ album) 50%nat in
  let broad := spotify_search w (artist +:+ " " +:+ album) 50%nat in
  (forall a l, precise = Some (a :: l) ->
     candidates w artist album = Some (a :: l))
  /\ (precise = Some [] -> candidates w artist album = broad)
  /\ (precise = None -> candidates w artist album = None)
  /\ (candidates w artist album = None ->
      search_spotify_album w artist album td = None)
  /\ (precise = None \/ (precise = Some [] /\ broad = None) ->
      search_spotify_album w artist album td = None)
  /\ (forall a, accepted_date td a = true
        <-> release_date a = Calendar.strftime_Y_m_d (today + 1)
            \/ release_date a = Calendar.strftime_Y_m_d (today + 1 + (-1)))
  /\ (forall a day, 1 <= today -> 1 <= day ->
        release_date a = Calendar.strftime_Y_m_d day ->
        accepted_date td a = true <-> day = today + 1 \/ day = today)
  /\ (forall cands, candidates w artist album = Some cands ->
      match search_spotify_album w artist album td with
      | Some info =>
          exists l1 best l2,
            filter (fun a => accepted_date td a = true) cands
            = l1 ++ best :: l2
            /\ info = {| si_uri := uri best;
                         si_tracks := total_tracks best;
                         si_image_url := head (images best);
                         si_spotify_url := spotify_url best |}
            /\ Forall (fun x => total_tracks x < total_tracks best) l1
            /\ Forall (fun x => total_tracks x <= total_tracks best) l2
      | None => forall a, a ∈ cands -> accepted_date td a = false
      end)
  /\ ((forall q n l, spotify_search w q n = Some l -> (length l <= n)%nat) ->
      forall cands, candidates w artist album = Some cands ->
        (length cands <= 50)%nat).
Proof.
  intros td precise broad.
  unfold candidates, precise_query, broad_query. fold precise. fold broad.
  split; [by intros a l ->|]. split; [by intros ->|].
  split; [by intros ->|]. split.
  { unfold search_spotify_album, candidates, precise_query, broad_query.
    fold precise. fold broad. by intros ->. }
  split.
  { unfold search_spotify_album, candidates, precise_query, broad_query.
    fold precise. fold broad. by intros [->|[-> ->]]. }
  split; [intros a; apply accepted_date_spec|]. split.
  { intros a day Htoday Hday Hdate. rewrite accepted_date_spec, Hdate.
    simpl. split.
    - intros [H|H]; apply CalendarFacts.strftime_Y_m_d_inj in H; lia.
    - intros [->| ->]; [by left|right]. f_equal. lia. }
  split.
  - intros cands Hc.
    unfold search_spotify_album, candidates, precise_query, broad_query.
    fold precise. fold broad. rewrite Hc.
    destruct (filter (fun a => accepted_date td a = true) cands)
      as [|first others] eqn:Hf.
    + intros a Ha. destruct (accepted_date td a) eqn:Hacc; [|done].
      assert (a ∈ filter (fun a => accepted_date td a = true) cands) as Hin.
      { by apply list_elem_of_filter. }
      rewrite Hf in Hin. by apply elem_of_nil in Hin.
    + destruct (max_total_tracks_first_max others first [] [])
        as (l1 & l2 & Heq & H1 & H2); [constructor..|].
      by exists l1, (max_total_tracks first others), l2.
  - intros Hlimit cands Hc.
    destruct precise as [[|a l]|] eqn:Hp; [| |done].
    + by apply (Hlimit (artist +:+ " " +:+ album)).
    + apply (Hlimit ("artist:" +:+ artist +:+ " album:" +:+ album)).
      by simplify_eq.
Qed.

(** ** The date window *)

Lemma genius_items_before td pre rest :
  Forall (fun i => g_name i = TagB ->
            PyStr.strip (g_text i) <> genius_format td
            /\ PyStr.strip (g_text i) <> genius_window_end td) pre ->
  genius_items td (pre ++ rest) false = genius_items td rest false.
Proof.
  induction 1 as [|i pre Hi _ IH]; [done|].
  simpl. destruct (g_name i); [|exact IH].
  destruct (Hi eq_refl) as [Hs He].
  unfold see_marker, PyStr.eqb. by rewrite !bool_decide_eq_false_2.
Qed.

Lemma genius_items_window td body stop post :
  genius_format td <> genius_window_end td ->
  Forall (fun i => g_name i = TagB ->
            PyStr.strip (g_text i) <> genius_window_end td) body ->
  g_name stop = TagB ->
  PyStr.strip (g_text stop) = genius_window_end td ->
  genius_items td (body ++ stop :: post) true = genius_entries body.
Proof.
  intros Hdiff Hbody Hstop Hend.
  induction Hbody as [|i body Hi _ IH].
  - simpl. rewrite Hstop, Hend. unfold see_marker, PyStr.eqb.
    rewrite bool_decide_eq_false_2 by congruence.
    by rewrite bool_decide_eq_true_2.
  - unfold genius_entries. rewrite bind_cons. simpl.
    destruct (g_name i).
    + assert (see_marker (genius_format td) (genius_window_end td)
                (PyStr.strip (g_text i)) true = Some true) as ->.
      { unfold see_marker, PyStr.eqb. case_bool_decide; [done|].
        by rewrite bool_decide_eq_false_2 by (by apply Hi). }
      exact IH.
    + by rewrite IH.
Qed.

(** On Genius the window is read exactly: after the marker of the
    target date, the entries that parse are collected in their order up to
    the marker of the day a week later. *)
Lemma genius_window_exact td pre start body stop post :
  genius_format td <> genius_window_end td ->
  Forall (fun i => g_name i = TagB ->
            PyStr.strip (g_text i) <> genius_format td
            /\ PyStr.strip (g_text i) <> genius_window_end td) pre ->
  g_name start = TagB -> PyStr.strip (g_text start) = genius_format td ->
  Forall (fun i => g_name i = TagB ->
            PyStr.strip (g_text i) <> genius_window_end td) body ->
  g_name stop = TagB -> PyStr.strip (g_text stop) = genius_window_end td ->
  genius_items td (pre ++ start :: body ++ stop :: post) false
  = genius_entries body.
Proof.
  intros Hdiff Hpre Hstart Hs Hbody Hstop He.
  rewrite genius_items_before by done. simpl. rewrite Hstart, Hs.
  unfold see_marker at 1. unfold PyStr.eqb.
  rewrite bool_decide_eq_true_2 by done.
  by apply genius_items_window.
Qed.

Lemma metacritic_rows_before td pre rest :
  Forall (fun i => forall t, mc_th i = Some t ->
            PyStr.strip t <> metacritic_format td
            /\ PyStr.strip t <> metacritic_window_end td) pre ->
  metacritic_rows td (pre ++ rest) false = metacritic_rows td rest false.
Proof.
  induction 1 as [|i pre Hi _ IH]; [done|].
  simpl. unfold metacritic_marker.
  destruct (mc_th i) as [t|]; [|exact IH].
  destruct (Hi t eq_refl) as [Hs He].
  unfold see_marker, PyStr.eqb. by rewrite !bool_decide_eq_false_2.
Qed.

Lemma metacritic_rows_window td body stop t post :
  metacritic_format td <> metacritic_window_end td ->
  Forall (fun i => forall t, mc_th i = Some t ->
            PyStr.strip t <> metacritic_window_end td) body ->
  mc_th stop = Some t -> PyStr.strip t = metacritic_window_end td ->
  metacritic_rows td (body ++ stop :: post) true = metacritic_entries body.
Proof.
  intros Hdiff Hbody Hstop Hend.
  induction Hbody as [|i body Hi _ IH].
  - simpl. unfold metacritic_marker. rewrite Hstop, Hend.
    unfold see_marker, PyStr.eqb.
    rewrite bool_decide_eq_false_2 by congruence.
    by rewrite bool_decide_eq_true_2.
  - unfold metacritic_entries. rewrite bind_cons. simpl.
    assert (metacritic_marker td i true = Some true) as ->.
    { unfold metacritic_marker. destruct (mc_th i) as [t'|]; [|done].
      unfold see_marker, PyStr.eqb. case_bool_decide; [done|].
      by rewrite bool_decide_eq_false_2 by (by apply Hi). }
    by rewrite IH.
Qed.

(** On Metacritic the window is read exactly whenever the row of the day
    a week later is recognised, that is, when its stripped text equals the
    unstripped rendering of that day. *)
Lemma metacritic_window_exact td pre start ts body stop t post :
  metacritic_format td <> metacritic_window_end td ->
  Forall (fun i => forall t, mc_th i = Some t ->
            PyStr.strip t <> metacritic_format td
            /\ PyStr.strip t <> metacritic_window_end td) pre ->
  mc_th start = Some ts -> PyStr.strip ts = metacritic_format td ->
  Forall (fun i => forall t, mc_th i = Some t ->
            PyStr.strip t <> metacritic_window_end td) body ->
  mc_th stop = Some t -> PyStr.strip t = metacritic_window_end td ->
  metacritic_rows td (pre ++ start :: body ++ stop :: post) false
  = metacritic_entry start ++ metacritic_entries body.
Proof.
  intros Hdiff Hpre Hstart Hs Hbody Hstop He.
  rewrite metacritic_rows_before by done. simpl.
  unfold metacritic_marker at 1. rewrite Hstart, Hs.
  unfold see_marker at 1. unfold PyStr.eqb.
  rewrite bool_decide_eq_true_2 by done. f_equal.
  by eapply metacritic_rows_window.
Qed.

Lemma lstrip_head s c r : PyStr.lstrip s = String c r -> PyStr.isspace c = false.
Proof.
  induction s as [|c' s IH]; [done|]. simpl.
  destruct (PyStr.isspace c') eqn:Hc'; [exact IH|].
  by intros [= <- _].
Qed.

Lemma rstrip_head s c r :
  PyStr.rstrip s = String c r -> exists r', s = String c r'.
Proof.
  destruct s as [|c' s]; [done|]. simpl.
  destruct (PyStr.rstrip s); [destruct (PyStr.isspace c'); [done|]|];
    intros [= <- _]; by eexists.
Qed.

Lemma strip_head s c r : PyStr.strip s = String c r -> PyStr.isspace c = false.
Proof.
  unfold PyStr.strip. intros H. apply rstrip_head in H as [r' H].
  by eapply lstrip_head.
Qed.

(** When the day a week after the target date is one of the first nine
    of its month, its rendering starts with the space of [%e], which no
    stripped text does: no row ends the scan. *)
Lemma metacritic_end_marker_missed td item date_active :
  Calendar.day (date_obj td + 7) < 10 ->
  metacritic_marker td item date_active <> None.
Proof.
  intros Hday. unfold metacritic_marker.
  destruct (mc_th item) as [t|]; [|done].
  unfold see_marker, PyStr.eqb. case_bool_decide; [done|].
  rewrite bool_decide_eq_false_2; [done|].
  unfold metacritic_window_end, Calendar.strftime_e_B_Y, PyStr.pad2.
  destruct (Z.ltb_spec (Calendar.day (date_obj td + 7)) 10); [|lia].
  intros Heq. by apply strip_head in Heq.
Qed.

Lemma metacritic_rows_past_end td items :
  Calendar.day (date_obj td + 7) < 10 ->
  metacritic_rows td items true = metacritic_entries items.
Proof.
  intros Hday. induction items as [|i items IH]; [done|].
  unfold metacritic_entries. rewrite bind_cons. simpl.
  pose proof (metacritic_end_marker_missed td i true Hday) as Hm.
  assert (metacritic_marker td i true = Some true) as ->; [|by rewrite IH].
  unfold metacritic_marker in *. destruct (mc_th i) as [t|]; [|done].
  unfold see_marker in *. destruct (PyStr.eqb _ _); [done|].
  by destruct (PyStr.eqb _ _).
Qed.

(** C8 at the tables of 2025-06-26. The target date is 27 June and the
    window ends at the row of 4 July; the scan reads that row as
    ["4 July 2025"], compares it with [" 4 July 2025"], goes on, and
    returns the album of the following week as well. *)
Theorem metacritic_runs_past_window_end :
  let td := get_tomorrow_date thursday in
  metacritic_format td = "27 June 2025"
  /\ metacritic_window_end td = " 4 July 2025"
  /\ Calendar.strftime_e_B_Y (date_obj td + 7) = metacritic_window_end td
  /\ metacritic_rows td metacritic_two_weeks false
     = [("Drake", "Iceman"); ("Late Act", "Next Week")]
  /\ metacritic_rows td metacritic_two_weeks false
     <> metacritic_entries [row_album "Drake" "Iceman"].
Proof. vm_compute. repeat split; done. Qed.

(** Whatever the catalog answers, the entries that [collect_albums]
    returns carry the spellings that were mentioned first: no count takes
    part in the choice. *)
Lemma collect_albums_keeps_first_spelling w today kept :
  collect_albums w today = Returns kept ->
  exists sources_data,
    scrape_all w (get_tomorrow_date today) = Returns sources_data
    /\ forall e, e ∈ kept ->
         head (filter (same_class (normalized (fst e)))
                 (snd <$> mentions sources_data))
         = Some (fst e).
Proof.
  unfold collect_albums.
  destruct (scrape_all w (get_tomorrow_date today)) as [sd|] eqn:Hsd; [|done].
  simpl. intros [= <-]. exists sd. split; [done|].
  intros e He. unfold enrich in He.
  apply list_elem_of_fmap in He as (e0 & -> & He0). simpl.
  by apply kept_entry_first_spelling.
Qed.

(** C4 at the pages of 2025-06-26. Metacritic and Wikipedia write
    ["Drake"], Genius writes ["drake"]; the catalog resolves the first
    spelling to 10 tracks and the second to 12. [collect_albums] keeps the
    first spelling: [deduplicate_albums] has run before any count is
    known. *)
Theorem tie_break_runs_before_enrichment :
  let td := get_tomorrow_date thursday in
  (si_tracks <$> search_spotify_album world_two_spellings "Drake" "Iceman" td)
  = Some 10
  /\ (si_tracks <$> search_spotify_album world_two_spellings "drake" "Iceman" td)
     = Some 12
  /\ normalized ("Drake", "Iceman") = normalized ("drake", "Iceman")
  /\ exists kept,
       collect_albums world_two_spellings thursday = Returns kept
       /\ fst <$> kept = [("Drake", "Iceman"); ("Lorde", "Virgin")]
       /\ (tracks <$> kept) = [10; 0].
Proof.
  vm_compute. repeat split; try done.
  eexists. repeat split; done.
Qed.

(** ** The properties at the sample pages *)


End FridayFacts.

(** * Sending, in both programs *)
Module DispatchFacts.

(** C7. A pass of the monitor hands a batch to
    [send_email_notification] only when the batch has an artist, and then
    it has a release; when the pass found no new release nothing is sent.
    A run of the digest hands a collection to [send_email] only when it
    has an album; when a source found nothing the run has sent nothing. *)
Theorem dispatch_only_nonempty :
  (forall strptime sp_artist_albums clock current_time d b,
     b ∈ Monitor.sent
           (Monitor.check_for_new_releases strptime sp_artist_albums clock
              current_time d) ->
     b <> [] /\ Monitor.batch_pairs b <> [])
  /\ (forall strptime sp_artist_albums clock current_time d,
        Monitor.batch_pairs
          (Monitor.ps_batch
             (Monitor.run_pass strptime sp_artist_albums clock current_time d))
        = [] ->
        Monitor.sent
          (Monitor.check_for_new_releases strptime sp_artist_albums clock
             current_time d) = [])
  /\ (forall w today b, b ∈ fst (Friday.run_once w today) -> b <> [])
  /\ (forall w today,
        Friday.collect_albums w today = Friday.SystemExit ->
        fst (Friday.run_once w today) = []).
Proof.
  split; [|split; [|split]].
  - intros strptime sp clock t d b Hb.
    by destruct (MonitorFacts.check_for_new_releases_sent _ _ _ _ _ _ Hb)
      as (_ & ? & ?).
  - intros. by apply MonitorFacts.check_for_new_releases_nothing_new.
  - intros w today b. apply FridayFacts.run_once_sends_nonempty.
  - intros w today Hexit. unfold Friday.run_once. by rewrite Hexit.
Qed.

End DispatchFacts.

(** * Further properties of the release monitor *)
Module MonitorMore.
Import Monitor.

(** ** The list of artists *)

Lemma add_artist_keys arts a :
  fst <$> add_artist arts a
  = (fst <$> arts) ++ (if bool_decide (fst a ∈ fst <$> arts) then [] else [fst a]).
Proof.
  unfold add_artist. case_bool_decide.
  - by rewrite app_nil_r.
  - by rewrite fmap_app.
Qed.

Lemma add_artist_prefix arts a : exists extra,
  add_artist arts a = arts ++ extra
  /\ Forall (fun e => last_check (snd e) = None) extra.
Proof.
  unfold add_artist. case_bool_decide.
  - exists []. by rewrite app_nil_r.
  - eexists. split; [done|]. by repeat constructor.
Qed.

Lemma add_artist_NoDup arts a :
  NoDup (fst <$> arts) -> NoDup (fst <$> add_artist arts a).
Proof.
  intros Hnd. rewrite add_artist_keys. case_bool_decide as Hin.
  - by rewrite app_nil_r.
  - apply NoDup_app. split; [done|]. split; [|apply NoDup_singleton].
    intros k Hk Hk'. apply list_elem_of_singleton in Hk' as ->. done.
Qed.

Lemma fold_add_artist_prefix all arts : exists extra,
  fold_left add_artist all arts = arts ++ extra
  /\ Forall (fun e => last_check (snd e) = None) extra.
Proof.
  revert arts. induction all as [|a all IH]; intros arts; simpl.
  - exists []. by rewrite app_nil_r.
  - destruct (add_artist_prefix arts a) as (x1 & -> & H1).
    destruct (IH (arts ++ x1)) as (x2 & -> & H2).
    exists (x1 ++ x2). rewrite <- app_assoc. split; [done|].
    by apply Forall_app.
Qed.

Lemma fold_add_artist_NoDup all arts :
  NoDup (fst <$> arts) -> NoDup (fst <$> fold_left add_artist all arts).
Proof.
  revert arts. induction all as [|a all IH]; intros arts Hnd; simpl; [done|].
  by apply IH, add_artist_NoDup.
Qed.

Lemma fold_add_artist_keys all arts k :
  k ∈ fst <$> fold_left add_artist all arts
  <-> k ∈ fst <$> arts \/ k ∈ fst <$> all.
Proof.
  revert arts. induction all as [|a all IH]; intros arts; simpl.
  - rewrite elem_of_nil. naive_solver.
  - rewrite IH, add_artist_keys, elem_of_app, elem_of_cons.
    case_bool_decide as Hin.
    + rewrite elem_of_nil. split; [naive_solver|].
      intros [?|[->|?]]; auto.
    + rewrite list_elem_of_singleton. naive_solver.
Qed.

Lemma fold_add_artist_tracked all arts :
  (forall a, a ∈ all -> fst a ∈ fst <$> arts) ->
  fold_left add_artist all arts = arts.
Proof.
  revert arts. induction all as [|a all IH]; intros arts Hin; simpl; [done|].
  assert (add_artist arts a = arts) as ->.
  { unfold add_artist. rewrite bool_decide_eq_true_2; [done|].
    apply Hin. left. }
  apply IH. intros b Hb. apply Hin. by right.
Qed.

(** X1. [update_artist_list] keeps every tracked artist as it is, in its
    place, with its name and its last check; what it adds comes after
    them and has never been checked; afterwards exactly the ids tracked
    before and the ids met are tracked, each once; the ledger is not
    touched. *)
Theorem update_artist_list_adds_absent (all_artists : list (string * string))
    (current_time : Z) (d : data)
    (Hnd : NoDup (fst <$> artists d)) :
  let d' := update_artist_list all_artists current_time d in
  (exists added,
     artists d' = artists d ++ added
     /\ Forall (fun e => last_check (snd e) = None) added)
  /\ NoDup (fst <$> artists d')
  /\ (forall k, k ∈ fst <$> artists d'
        <-> k ∈ fst <$> artists d \/ k ∈ fst <$> all_artists)
  /\ known_releases d' = known_releases d
  /\ last_artist_update d' = Some current_time.
Proof.
  intros d'. simpl. split; [apply fold_add_artist_prefix|].
  split; [by apply fold_add_artist_NoDup|].
  split; [apply fold_add_artist_keys|]. done.
Qed.

(** X2. Updating again with artists that are all tracked, so with the
    same set a second time, in any order and under any names, changes
    nothing but the time of the update. *)
Theorem update_artist_list_again (all1 all2 : list (string * string))
    (t1 t2 : Z) (d : data)
    (Hsame : forall a, a ∈ all2 -> fst a ∈ fst <$> all1) :
  artists (update_artist_list all2 t2 (update_artist_list all1 t1 d))
  = artists (update_artist_list all1 t1 d)
  /\ known_releases (update_artist_list all2 t2 (update_artist_list all1 t1 d))
     = known_releases d.
Proof.
  split; [|done]. simpl. apply fold_add_artist_tracked.
  intros a Ha. apply fold_add_artist_keys. right. by apply Hsame.
Qed.

(** ** The pass *)

Lemma set_last_check_keys k t arts :
  fst <$> set_last_check k t arts = fst <$> arts.
Proof.
  unfold set_last_check. rewrite <- list_fmap_compose.
  apply list_fmap_ext. intros i e _. simpl. by case_bool_decide.
Qed.

Lemma fold_set_last_check t (ids : list (string * artist_info)) arts :
  fold_left (fun a e => set_last_check (fst e) t a) ids arts
  = (fun e => if bool_decide (fst e ∈ fst <$> ids) then stamped t e else e)
      <$> arts.
Proof.
  revert arts. induction ids as [|x ids IH]; intros arts.
  - simpl. symmetry. apply (list_fmap_id arts).
  - cbn [fold_left]. rewrite IH. unfold set_last_check.
    rewrite <- list_fmap_compose.
    apply list_fmap_ext. intros i e _. cbn [compose]. rewrite fmap_cons.
    destruct (decide (fst e = fst x)) as [Heq|Hne].
    + rewrite (bool_decide_eq_true_2 (fst e = fst x)) by done.
      rewrite (bool_decide_eq_true_2 (fst e ∈ fst x :: (fst <$> ids)))
        by (rewrite Heq; left).
      cbn [fst]. by case_bool_decide.
    + rewrite (bool_decide_eq_false_2 (fst e = fst x)) by done.
      case_bool_decide as H1; case_bool_decide as H2; try done.
      * exfalso. apply H2. by right.
      * exfalso. apply elem_of_cons in H2 as [?|?]; done.
Qed.

Lemma batch_add_keys aid info (r : release) (b : batch) :
  fst <$> batch_add aid info r b
  = (fst <$> b) ++ (if bool_decide (aid ∈ fst <$> b) then [] else [aid]).
Proof.
  unfold batch_add. rewrite <- list_fmap_compose.
  rewrite (list_fmap_ext _ fst).
  2:{ intros i e _. simpl. by case_bool_decide. }
  case_bool_decide; [by rewrite app_nil_r|by rewrite fmap_app].
Qed.

Lemma batch_map_add_absent aid (r : release) (b : batch) :
  aid ∉ fst <$> b ->
  (fun e : string * (string * list release) =>
     if bool_decide (fst e = aid)
     then (fst e, (fst (snd e), snd (snd e) ++ [r])) else e) <$> b = b.
Proof.
  intros Hnot. induction b as [|e b IH]; [done|].
  rewrite fmap_cons, not_elem_of_cons in Hnot. destruct Hnot as [He Hb].
  rewrite fmap_cons, IH by done.
  by rewrite bool_decide_eq_false_2 by congruence.
Qed.

Lemma batch_map_add_perm aid (r : release) (b : batch) :
  NoDup (fst <$> b) -> aid ∈ fst <$> b ->
  batch_pairs
    ((fun e : string * (string * list release) =>
        if bool_decide (fst e = aid)
        then (fst e, (fst (snd e), snd (snd e) ++ [r])) else e) <$> b)
  ≡ₚ (aid, r) :: batch_pairs b.
Proof.
  unfold batch_pairs.
  induction b as [|[k [nm rs]] b IH]; intros Hnd Hin.
  - by apply elem_of_nil in Hin.
  - rewrite fmap_cons in Hnd. apply NoDup_cons in Hnd as [Hk Hnd].
    rewrite !fmap_cons, !bind_cons. cbn [fst snd].
    destruct (decide (k = aid)) as [->|Hne].
    + rewrite bool_decide_eq_true_2 by done. cbn [fst snd].
      rewrite batch_map_add_absent by done.
      rewrite fmap_app. cbn [fmap list_fmap].
      rewrite <- app_assoc. cbn [app].
      by rewrite <- Permutation_middle.
    + rewrite bool_decide_eq_false_2 by done. cbn [fst snd].
      rewrite fmap_cons in Hin. apply elem_of_cons in Hin as [?|Hin]; [done|].
      rewrite (IH Hnd Hin). by rewrite Permutation_middle.
Qed.

Lemma batch_add_perm aid info (r : release) (b : batch) :
  NoDup (fst <$> b) ->
  batch_pairs (batch_add aid info r b) ≡ₚ (aid, r) :: batch_pairs b.
Proof.
  intros Hnd. unfold batch_add. case_bool_decide as Hin.
  - by apply batch_map_add_perm.
  - rewrite batch_map_add_perm.
    + rewrite MonitorFacts.batch_pairs_app. unfold batch_pairs at 2.
      simpl. by rewrite app_nil_r.
    + rewrite fmap_app. apply NoDup_app. split; [done|].
      split; [|apply NoDup_singleton].
      intros k Hk Hk'. by apply list_elem_of_singleton in Hk' as ->.
    + rewrite fmap_app, elem_of_app. right. left.
Qed.

Section PassMore.

Variable strptime : string -> option Z.
Variable sp_artist_albums : string -> option page.
Variable clock : nat -> Z.

Lemma process_release_artists aid info s r :
  ps_artists (process_release clock aid info s r) = ps_artists s.
Proof.
  unfold process_release. destruct (is_known _ _); [done|].
  by destruct (_ || _).
Qed.

Lemma check_artist_artists t s e :
  ps_artists (check_artist strptime sp_artist_albums clock t s e)
  = set_last_check (fst e) t (ps_artists s).
Proof.
  unfold check_artist. simpl. f_equal.
  apply (MonitorFacts.fold_left_invariant
           (fun s' => ps_artists s' = ps_artists s)); [done|].
  intros s' r _ Hs'. by rewrite process_release_artists.
Qed.

Lemma run_pass_artists t d :
  ps_artists (run_pass strptime sp_artist_albums clock t d)
  = stamped t <$> artists d.
Proof.
  unfold run_pass.
  assert (forall l s,
            ps_artists
              (fold_left (check_artist strptime sp_artist_albums clock t) l s)
            = fold_left (fun a e => set_last_check (fst e) t a) l
                (ps_artists s)) as Hfold.
  { induction l as [|x l IH]; intros s; simpl; [done|].
    by rewrite IH, check_artist_artists. }
  rewrite Hfold, fold_set_last_check. simpl.
  apply list_fmap_ext. intros i e He.
  rewrite bool_decide_eq_true_2; [done|].
  rewrite (MonitorFacts.sorted_artists_perm (artists d)).
  apply list_elem_of_fmap_2. by eapply list_elem_of_lookup_2.
Qed.

(** X3. After [check_for_new_releases] every artist, whether the
    catalog answered for it or not and whether it had releases or not,
    carries the time at which the pass started as its last check; ids,
    names and the order of the dictionary are as before, and so is the
    time of the last update of the list. *)
Theorem pass_stamps_every_artist (current_time : Z) (d : data) :
  let d' := new_data (check_for_new_releases strptime sp_artist_albums clock
                        current_time d) in
  artists d' = stamped current_time <$> artists d
  /\ (forall e, e ∈ artists d' -> last_check (snd e) = Some current_time)
  /\ fst <$> artists d' = fst <$> artists d
  /\ last_artist_update d' = last_artist_update d.
Proof.
  intros d'. unfold d', check_for_new_releases. simpl.
  rewrite run_pass_artists. split; [done|]. split; [|split; [|done]].
  - intros e He. by apply list_elem_of_fmap in He as (e0 & -> & _).
  - rewrite <- list_fmap_compose. by apply list_fmap_ext.
Qed.

Lemma batch_inv_process_release aid info s r :
  batch_inv s -> batch_inv (process_release clock aid info s r).
Proof.
  intros (Hids & Hkeys & Hknown). unfold process_release.
  destruct (is_known (release_key aid r) (ps_known s)) eqn:Hk; [done|].
  apply MonitorFacts.is_known_false in Hk.
  destruct (_ || _); [|done].
  unfold batch_inv, batch_keys in *. simpl.
  rewrite batch_add_keys, (batch_add_perm aid info r (ps_batch s) Hids).
  rewrite fmap_cons. cbn [fst snd].
  split; [|split].
  - case_bool_decide as Hin; [by rewrite app_nil_r|].
    apply NoDup_app. split; [done|]. split; [|apply NoDup_singleton].
    intros k Hk1 Hk2. by apply list_elem_of_singleton in Hk2 as ->.
  - apply NoDup_cons. split; [|done].
    intros Hin. apply Hknown in Hin as [v Hv]. congruence.
  - intros k Hin. unfold record_release. rewrite lookup_insert.
    case_decide; [by eexists|].
    rewrite (batch_add_perm aid info r (ps_batch s) Hids), fmap_cons in Hin.
    apply elem_of_cons in Hin as [->|Hin]; [done|]. by apply Hknown.
Qed.

Lemma batch_inv_run_pass t d :
  batch_inv (run_pass strptime sp_artist_albums clock t d).
Proof.
  unfold run_pass. apply MonitorFacts.fold_left_invariant.
  - unfold batch_inv, batch_keys. simpl. split; [constructor|].
    split; [constructor|]. intros k Hk. by apply elem_of_nil in Hk.
  - intros s e _ Hs. unfold check_artist.
    set (s' := fold_left _ _ s).
    assert (batch_inv s') as Hs'.
    { apply MonitorFacts.fold_left_invariant; [done|].
      intros. by apply batch_inv_process_release. }
    exact Hs'.
Qed.

End PassMore.

(** X4. No release is announced twice: within a pass the keys of the
    releases of the batch are pairwise distinct, and a release of the
    batch of one pass is not in the batch of the pass that follows,
    whatever the catalog answers and whatever the date is by then. *)
Theorem release_notified_at_most_once
    (strptime strptime' : string -> option Z)
    (sp_artist_albums sp_artist_albums' : string -> option page)
    (clock clock' : nat -> Z) (t t' : Z) (d : data) :
  let first := check_for_new_releases strptime sp_artist_albums clock t d in
  let b1 := ps_batch (run_pass strptime sp_artist_albums clock t d) in
  let b2 := ps_batch (run_pass strptime' sp_artist_albums' clock' t'
                        (new_data first)) in
  NoDup (batch_keys b1)
  /\ NoDup (batch_keys b2)
  /\ (forall k, k ∈ batch_keys b1 -> k ∉ batch_keys b2)
  /\ (forall k, k ∈ batch_keys b1 ->
        is_Some (known_releases (new_data first) !! k)).
Proof.
  intros first b1 b2.
  destruct (batch_inv_run_pass strptime sp_artist_albums clock t d)
    as (_ & Hnd1 & Hknown1).
  destruct (batch_inv_run_pass strptime' sp_artist_albums' clock' t'
              (new_data first)) as (_ & Hnd2 & _).
  split; [done|]. split; [done|]. split; [|exact Hknown1].
  intros k Hk1 Hk2. apply Hknown1 in Hk1 as [v Hv].
  unfold b2, batch_keys in Hk2.
  apply list_elem_of_fmap in Hk2 as ([a r] & -> & Hin).
  destruct (inv_batch _ _
              (MonitorFacts.pass_inv_run_pass strptime' sp_artist_albums'
                 clock' t' (new_data first)) _ _ Hin) as (Hnone & _).
  simpl in Hnone, Hv. congruence.
Qed.

(** ** The first scan and the first round *)

Lemma set_last_check_checked k t arts (ids : list string) :
  (forall e, e ∈ arts -> fst e ∈ ids -> is_Some (last_check (snd e))) ->
  forall e, e ∈ set_last_check k t arts -> fst e ∈ k :: ids ->
    is_Some (last_check (snd e)).
Proof.
  intros Hinv e He Hid. unfold set_last_check in He.
  apply list_elem_of_fmap in He as (e0 & -> & He0).
  case_bool_decide as Hk; simpl in *; [by eexists|].
  apply elem_of_cons in Hid as [?|Hid]; [done|]. by apply Hinv.
Qed.

Lemma first_run_false d :
  artists d <> [] ->
  (forall e, e ∈ artists d -> is_Some (last_check (snd e))) ->
  first_run d = false.
Proof.
  intros Hne Hall. unfold first_run. apply negb_false_iff.
  destruct (artists d) as [|e l]; [done|]. simpl.
  rewrite bool_decide_eq_true_2; [done|]. apply Hall. left.
Qed.

Section ScanMore.

Variable strptime : string -> option Z.
Variable sp_artist_albums : string -> option page.
Variable clock : nat -> Z.

Lemma scan_fold_artists utc_now l : forall s (ids : list string),
  (forall e, e ∈ fst (fst s) -> fst e ∈ ids ->
     is_Some (last_check (snd e))) ->
  let s' := fold_left (scan_artist strptime sp_artist_albums utc_now) l s in
  fst <$> fst (fst s') = fst <$> fst (fst s)
  /\ forall e, e ∈ fst (fst s') -> fst e ∈ (fst <$> l) ++ ids ->
       is_Some (last_check (snd e)).
Proof.
  induction l as [|x l IH]; intros [[arts known] n] ids Hinv; simpl.
  - split; [done|]. intros e He Hid. by apply Hinv.
  - set (s1 := (set_last_check (fst x) (utc_now n) arts,
                fold_left (fun k r => record_release (fst x) (snd x) r k)
                  (get_artist_releases strptime sp_artist_albums (fst x) None)
                  known, S n)).
    destruct (IH s1 (fst x :: ids)) as [Hkeys Hall].
    { simpl. by apply set_last_check_checked. }
    split.
    + rewrite Hkeys. simpl. apply set_last_check_keys.
    + intros e He Hid. apply Hall; [done|].
      apply elem_of_app.
      apply elem_of_cons in Hid as [->|Hid]; [right; left|].
      apply elem_of_app in Hid as [?|?]; [by left|right; by right].
Qed.

Lemma scan_fold_grows utc_now l s k :
  is_Some (snd (fst s) !! k) ->
  is_Some
    (snd (fst (fold_left (scan_artist strptime sp_artist_albums utc_now) l s))
       !! k).
Proof.
  intros Hk. apply MonitorFacts.fold_left_invariant; [done|].
  intros. by apply MonitorFacts.scan_artist_grows.
Qed.

Lemma run_initial_scan_artists utc_now d :
  let res := run_initial_scan strptime sp_artist_albums utc_now d in
  fst <$> artists (new_data res) = fst <$> artists d
  /\ (forall e, e ∈ artists (new_data res) -> is_Some (last_check (snd e)))
  /\ (forall k, is_Some (known_releases d !! k) ->
        is_Some (known_releases (new_data res) !! k))
  /\ sent res = [].
Proof.
  intros res.
  pose proof (scan_fold_grows utc_now (artists d)
                (artists d, known_releases d, O)) as Hgrow.
  destruct (scan_fold_artists utc_now (artists d)
              (artists d, known_releases d, O) [])
    as [Hkeys Hall].
  { intros e _ Hid. by apply elem_of_nil in Hid. }
  unfold res, run_initial_scan.
  destruct (fold_left _ (artists d) (artists d, known_releases d, O))
    as [[arts known] n] eqn:Hfold.
  simpl in *. split; [done|]. split; [|done].
  intros e He. apply Hall; [done|]. rewrite app_nil_r, <- Hkeys.
  by apply list_elem_of_fmap_2.
Qed.

(** X5. [run_initial_scan] sends nothing and filters by no date: every
    release that the catalog lists for a tracked artist is in the ledger
    afterwards, every key that was in the ledger still is, and every
    artist carries a last check, the ids and their order being as
    before. *)
Theorem initial_scan_backfills (utc_now : nat -> Z) (d : data) :
  let res := run_initial_scan strptime sp_artist_albums utc_now d in
  sent res = []
  /\ (forall e r, e ∈ artists d ->
        r ∈ get_artist_releases strptime sp_artist_albums (fst e) None ->
        is_Some (known_releases (new_data res) !! release_key (fst e) r))
  /\ (forall k, is_Some (known_releases d !! k) ->
        is_Some (known_releases (new_data res) !! k))
  /\ fst <$> artists (new_data res) = fst <$> artists d
  /\ (forall e, e ∈ artists (new_data res) -> is_Some (last_check (snd e))).
Proof.
  intros res.
  destruct (run_initial_scan_artists utc_now d) as (Hkeys & Hall & Hgrow & Hsent).
  split; [done|]. split; [|done].
  intros e r He Hr.
  by destruct (MonitorFacts.run_initial_scan_records_all strptime
                 sp_artist_albums utc_now d e r He Hr).
Qed.

(** X6. The first scan runs when no tracked artist has a last check,
    and after a scan or a pass every artist has one, so that with an
    artist tracked it does not run again. With the structure of a new
    installation it runs before any artist is tracked and records
    nothing: after the first round the ledger holds exactly the records
    of the releases that the pass tested and found dated the day of the
    first reading of their own check or the day before that of the second,
    each of an artist met by the update, never checked, and listed for
    it without a bound on the date. *)
Theorem first_scan_on_new_installation (utc_now : nat -> Z)
    (all_artists : list (string * string)) (update_time current_time : Z) :
  let res :=
    run_monitor_first_round strptime sp_artist_albums clock utc_now
      all_artists update_time current_time fresh_data in
  first_run fresh_data = true
  /\ new_data (run_initial_scan strptime sp_artist_albums utc_now fresh_data)
     = fresh_data
  /\ (forall k v, known_releases (new_data res) !! k = Some v
        <-> exists n e r,
              (n, e, r) ∈ pass_checks strptime sp_artist_albums clock
                             current_time
                             (update_artist_list all_artists update_time
                                fresh_data)
              /\ (r_release_date r = Calendar.strftime_Y_m_d (clock n)
                  \/ r_release_date r
                     = Calendar.strftime_Y_m_d (clock (S n) + (-1)))
              /\ k = release_key (fst e) r
              /\ v = record_of (fst e) (snd e) r)
  /\ (forall n e r,
        (n, e, r) ∈ pass_checks strptime sp_artist_albums clock current_time
                       (update_artist_list all_artists update_time
                          fresh_data) ->
        fst e ∈ fst <$> all_artists
        /\ last_check (snd e) = None
        /\ r ∈ get_artist_releases strptime sp_artist_albums (fst e) None)
  /\ (forall d, artists d <> [] ->
        first_run (new_data (check_for_new_releases strptime sp_artist_albums
                               clock current_time d)) = false
        /\ first_run (new_data (run_initial_scan strptime sp_artist_albums
                                  utc_now d)) = false).
Proof.
  intros res. split; [done|]. split; [done|]. split; [|split].
  - intros k v. unfold res, run_monitor_first_round. simpl.
    destruct (MonitorFacts.run_pass_accounts strptime sp_artist_albums
                clock current_time
                (update_artist_list all_artists update_time fresh_data))
      as [_ HK].
    rewrite HK. simpl. rewrite lookup_empty. unfold fresh_date.
    split; [|by right]. by intros [?|?].
  - intros n e r Hin.
    destruct (MonitorFacts.pass_checks_listed strptime sp_artist_albums
                clock current_time _ n e r Hin) as (He & Hr & _).
    simpl in He.
    destruct (fold_add_artist_prefix all_artists []) as (extra & Heq & Hnone).
    rewrite Heq in He. simpl in He.
    rewrite Forall_forall in Hnone. pose proof (Hnone e He) as Hlc.
    split; [|split; [done|by rewrite <- Hlc]].
    assert (fst e ∈ fst <$> fold_left add_artist all_artists []) as Hk.
    { rewrite Heq. simpl. by apply list_elem_of_fmap_2. }
    apply fold_add_artist_keys in Hk as [Hk|Hk]; [|done].
    by apply elem_of_nil in Hk.
  - intros d Hne. split.
    + apply first_run_false; simpl;
        rewrite (run_pass_artists strptime sp_artist_albums clock).
      * by destruct (artists d).
      * intros e He. apply list_elem_of_fmap in He as (e0 & -> & _).
        by eexists.
    + destruct (run_initial_scan_artists utc_now d) as (Hkeys & Hall & _).
      apply first_run_false; [|done].
      intros Hnil. rewrite Hnil in Hkeys. by destruct (artists d).
Qed.

End ScanMore.

(** ** The artists to follow *)

Lemma find_app {A : Type} (f : A -> bool) (l1 l2 : list A) :
  List.find f (l1 ++ l2)
  = match List.find f l1 with
    | Some x => Some x
    | None => List.find f l2
    end.
Proof.
  induction l1 as [|x l1 IH]; [done|]. simpl. by destruct (f x).
Qed.

Lemma find_playlist_received playlist_name playlists :
  find_playlist playlist_name playlists
  = match List.find (named playlist_name) (received playlists) with
    | Some target_playlist => Some (Some target_playlist)
    | None => (fun _ => None) <$> all_items playlists
    end.
Proof.
  induction playlists as [items|items rest IH|items]; simpl.
  - by destruct (List.find _ items).
  - rewrite find_app. destruct (List.find _ items); [done|].
    rewrite IH. destruct (List.find _ (received rest)); [done|].
    by destruct (all_items rest).
  - by destruct (List.find _ items).
Qed.

Lemma playlist_artists_all_items tracks artists :
  playlist_artists tracks artists
  = (fun items => artists ∪ list_to_set (items ≫= item_artists))
      <$> all_items tracks.
Proof.
  revert artists. induction tracks as [items|items rest IH|items];
    intros artists; simpl; [done| |done].
  rewrite IH. destruct (all_items rest) as [more|]; [|done]. simpl.
  by rewrite bind_app, list_to_set_app_L, (assoc_L (∪)).
Qed.

(** X17. The set that [get_artists_from_playlist] returns is that of
    the artists of the tracks of the first playlist with the name, in
    the order of the pages, among the playlists received: pages after
    the one that has it are not asked for, so a failure there does no
    harm. An item without a track adds nothing. When no playlist has the
    name the set is empty. *)
Theorem playlist_artists_of_first_match
    (playlists : paged playlist)
    (playlist_tracks : string -> option (paged (option (list (string * string)))))
    (playlist_name : string) :
  match List.find (named playlist_name) (received playlists) with
  | Some target_playlist =>
      pl_name target_playlist = playlist_name
      /\ target_playlist ∈ received playlists
      /\ match playlist_tracks (pl_id target_playlist) ≫= all_items with
         | Some items =>
             exists artists,
               get_artists_from_playlist (Some playlists) playlist_tracks
                 playlist_name = Some artists
               /\ forall a, a ∈ artists
                    <-> exists track, Some track ∈ items /\ a ∈ track
         | None =>
             get_artists_from_playlist (Some playlists) playlist_tracks
               playlist_name = None
         end
  | None =>
      Forall (fun pl => pl_name pl <> playlist_name) (received playlists)
      /\ get_artists_from_playlist (Some playlists) playlist_tracks
           playlist_name
         = match all_items playlists with
           | Some _ => Some ∅
           | None => None
           end
  end.
Proof.
  unfold get_artists_from_playlist. rewrite find_playlist_received.
  destruct (List.find _ (received playlists)) as [pl|] eqn:Hfind.
  - apply List.find_some in Hfind as [Hin Hname].
    unfold named, PyStr.eqb in Hname. apply bool_decide_eq_true in Hname.
    split; [done|]. split; [by apply list_elem_of_In|].
    destruct (playlist_tracks (pl_id pl)) as [tracks|]; [|done]. simpl.
    rewrite playlist_artists_all_items.
    destruct (all_items tracks) as [items|]; [|done]. simpl.
    eexists. split; [done|]. intros a.
    rewrite elem_of_union, elem_of_list_to_set, list_elem_of_bind.
    split.
    + intros [Hempty|(item & Ha & Hitem)]; [by apply elem_of_empty in Hempty|].
      destruct item as [track|]; [|by apply elem_of_nil in Ha].
      by exists track.
    + intros (track & Hitem & Ha). right. by exists (Some track).
  - split.
    + apply Forall_forall. intros pl Hin Hname.
      apply list_elem_of_In in Hin.
      eapply List.find_none in Hfind; [|done].
      unfold named, PyStr.eqb in Hfind.
      by apply bool_decide_eq_false in Hfind.
    + by destruct (all_items playlists).
Qed.

Lemma elem_of_concat {A : Type} (x : A) (ls : list (list A)) :
  x ∈ concat ls <-> exists l, l ∈ ls /\ x ∈ l.
Proof.
  induction ls as [|l ls IH]; simpl.
  - split; [by intros ?%elem_of_nil|]. by intros (l & ?%elem_of_nil & _).
  - rewrite elem_of_app, IH. split.
    + intros [?|(l' & ? & ?)]; [exists l; split; [left|done]|].
      exists l'. split; [by right|done].
    + intros (l' & [->|?]%elem_of_cons & ?); [by left|].
      right. by exists l'.
Qed.

Lemma fold_add_top_None ta tt ranges :
  fold_left (add_top_of_range ta tt) ranges None = None.
Proof. by induction ranges. Qed.

Lemma fold_add_top ta tt ranges : forall acc artists,
  fold_left (add_top_of_range ta tt) ranges (Some acc) = Some artists ->
  Forall (fun r => is_Some (ta r ≫= all_items)
                   /\ is_Some (tt r ≫= all_items)) ranges
  /\ forall a, a ∈ artists
       <-> a ∈ acc
           \/ exists r, r ∈ ranges
                /\ ((exists items, ta r ≫= all_items = Some items
                                   /\ a ∈ items)
                    \/ (exists tracks track,
                          tt r ≫= all_items = Some tracks
                          /\ track ∈ tracks /\ a ∈ track)).
Proof.
  induction ranges as [|r ranges IH]; intros acc artists Hfold.
  - injection Hfold as <-. split; [constructor|]. intros a.
    split; [by left|]. intros [?|(r & Hr & _)]; [done|].
    by apply elem_of_nil in Hr.
  - cbn [fold_left] in Hfold. unfold add_top_of_range at 2 in Hfold.
    destruct (ta r ≫= all_items) as [items|] eqn:Hta;
      [|by rewrite fold_add_top_None in Hfold].
    destruct (tt r ≫= all_items) as [tracks|] eqn:Htt;
      [|by rewrite fold_add_top_None in Hfold].
    destruct (IH _ _ Hfold) as [Hall Hiff]. split.
    + constructor; [|done]. by rewrite Hta, Htt.
    + intros a. rewrite Hiff, !elem_of_union, !elem_of_list_to_set.
      rewrite elem_of_concat. split.
      * intros [[[?|Ha]|(track & Htrack & Ha)]|(r' & Hr' & Hcase)].
        -- by left.
        -- right. exists r. split; [left|]. left. by exists items.
        -- right. exists r. split; [left|]. right. by exists tracks, track.
        -- right. exists r'. split; [by right|done].
      * intros [?|(r' & Hr' & Hcase)]; [by left; left; left|].
        apply elem_of_cons in Hr' as [->|Hr'].
        -- destruct Hcase as [(items' & Hi & Ha)
                             |(tracks' & track & Ht & Htrack & Ha)].
           ++ left. left. right. congruence.
           ++ left. right. exists track.
              assert (tracks' = tracks) as -> by congruence. done.
        -- right. by exists r'.
Qed.

(** X18. When [get_top_artists] returns, every call of the catalog for
    the three time ranges had answered, and the set is that of the top
    artists and of the artists of the top tracks of the three ranges,
    with nothing else in it; when a call raises, for whichever range and
    on whichever page, nothing is returned. *)
Theorem top_artists_of_all_ranges
    (current_user_top_artists : string -> option (paged (string * string)))
    (current_user_top_tracks : string -> option (paged (list (string * string)))) :
  match get_top_artists current_user_top_artists current_user_top_tracks with
  | Some artists =>
      Forall (fun r => is_Some (current_user_top_artists r ≫= all_items)
                       /\ is_Some (current_user_top_tracks r ≫= all_items))
        time_ranges
      /\ forall a, a ∈ artists
           <-> exists r, r ∈ time_ranges
                 /\ ((exists items,
                        current_user_top_artists r ≫= all_items = Some items
                        /\ a ∈ items)
                     \/ (exists tracks track,
                           current_user_top_tracks r ≫= all_items
                           = Some tracks
                           /\ track ∈ tracks /\ a ∈ track))
  | None =>
      exists r, r ∈ time_ranges
        /\ (current_user_top_artists r ≫= all_items = None
            \/ current_user_top_tracks r ≫= all_items = None)
  end.
Proof.
  unfold get_top_artists.
  destruct (fold_left _ time_ranges (Some ∅)) as [artists|] eqn:Hfold.
  - destruct (fold_add_top _ _ _ _ _ Hfold) as [Hall Hiff].
    split; [done|]. intros a. rewrite Hiff. split; [|by right].
    intros [Ha|?]; [|done]. by apply elem_of_empty in Ha.
  - revert Hfold. generalize (∅ : gset (string * string)).
    induction time_ranges as [|r ranges IH]; intros acc Hfold; [done|].
    cbn [fold_left] in Hfold. unfold add_top_of_range at 2 in Hfold.
    destruct (current_user_top_artists r ≫= all_items) as [items|] eqn:Hta.
    2:{ exists r. split; [left|by left]. }
    destruct (current_user_top_tracks r ≫= all_items) as [tracks|] eqn:Htt.
    2:{ exists r. split; [left|by right]. }
    destruct (IH _ Hfold) as (r' & Hr' & Hcase).
    exists r'. split; [by right|done].
Qed.

(** ** The theorems at the samples *)

Lemma update_artist_list_adds_absent_witness :
  NoDup (fst <$> artists sample_data)
  /\ fst <$> artists (update_artist_list
                        [("sza", "SZA"); ("drake", "Drizzy")] 0 sample_data)
     = ["lorde"; "drake"; "sza"]
  /\ NoDup (fst <$> artists (update_artist_list
                               [("sza", "SZA"); ("drake", "Drizzy")] 0
                               sample_data)).
Proof.
  assert (NoDup (fst <$> artists sample_data)) as Hnd.
  { apply (bool_decide_unpack _). vm_compute. exact I. }
  split; [exact Hnd|]. split; [vm_compute; reflexivity|].
  exact (proj1 (proj2 (update_artist_list_adds_absent
                         [("sza", "SZA"); ("drake", "Drizzy")] 0
                         sample_data Hnd))).
Defined.

Lemma update_artist_list_again_witness :
  artists (update_artist_list [("sza", "S.Z.A.")] 1
             (update_artist_list [("sza", "SZA")] 0 sample_data))
  = artists (update_artist_list [("sza", "SZA")] 0 sample_data).
Proof.
  apply (update_artist_list_again [("sza", "SZA")] [("sza", "S.Z.A.")] 0 1
           sample_data).
  intros a Ha. apply list_elem_of_singleton in Ha as ->.
  simpl. apply list_elem_of_singleton. reflexivity.
Defined.

End MonitorMore.

(** * Further properties of the Friday digest *)
Module FridayMore.
Import Friday.

(** ** The schedule *)

Lemma dt_ltb_spec a b :
  dt_ltb a b = true
  <-> dt_date a < dt_date b \/ (dt_date a = dt_date b /\ dt_time a < dt_time b).
Proof.
  unfold dt_ltb.
  rewrite orb_true_iff, andb_true_iff, !Z.ltb_lt, Z.eqb_eq. done.
Qed.

(** X7. Whenever it is read, the time that
    [get_next_thursday_11_05_pm] gives is a Thursday at 23:05:00, is not
    before now and is less than seven days after now; it is the first
    such Thursday: no Thursday 23:05 that is not before now is earlier. *)
Theorem next_thursday_is_next (now : datetime)
    (Htime : 0 <= dt_time now < Calendar.microseconds_per_day) :
  let target := get_next_thursday_11_05_pm now in
  Calendar.weekday (dt_date target) = 3
  /\ dt_time target = time_23_05
  /\ dt_le now target
  /\ 0 <= dt_diff target now < 7 * Calendar.microseconds_per_day
  /\ (forall other,
        Calendar.weekday (dt_date other) = 3 -> dt_time other = time_23_05 ->
        dt_le now other -> dt_le target other).
Proof.
  unfold get_next_thursday_11_05_pm, Calendar.weekday, dt_le, dt_diff,
    Calendar.microseconds_per_day in *.
  destruct now as [d t]. cbn [dt_date dt_time] in *.
  destruct (dt_ltb (replace_23_05 {| dt_date := d; dt_time := t |})
              {| dt_date := d; dt_time := t |}) eqn:Hlt.
  - apply dt_ltb_spec in Hlt. cbn in Hlt.
    destruct (Z.eqb_spec ((3 - (d + 6) mod 7) mod 7) 0) as [H0|H0];
      cbn [andb]; [|rewrite (proj2 (Z.eqb_neq _ _) H0)];
      cbn; unfold time_23_05 in *;
      (split_and!; [..|intros other ? ? ?]);
      Z.to_euclidean_division_equations; lia.
  - assert (t <= time_23_05) as Hle.
    { destruct (Z.le_gt_cases t time_23_05); [done|].
      assert (dt_ltb (replace_23_05 {| dt_date := d; dt_time := t |})
                {| dt_date := d; dt_time := t |} = true); [|congruence].
      apply dt_ltb_spec. cbn. lia. }
    destruct (Z.eqb_spec ((3 - (d + 6) mod 7) mod 7) 0) as [H0|H0];
      cbn [andb]; [rewrite (proj2 (Z.eqb_eq _ _) H0)
                  |rewrite (proj2 (Z.eqb_neq _ _) H0)];
      cbn; unfold time_23_05 in *;
      (split_and!; [..|intros other ? ? ?]);
      Z.to_euclidean_division_equations; lia.
Qed.

(** X8. [wait_until_thursday] sleeps, when it sleeps, for more than
    nothing and less than seven days, and to the very time that
    [get_next_thursday_11_05_pm] gave; it does not sleep only when that
    time has come by the second reading of the clock. *)
Theorem wait_until_thursday_bounds (now now' : datetime)
    (Htime : 0 <= dt_time now < Calendar.microseconds_per_day)
    (Htime' : 0 <= dt_time now' < Calendar.microseconds_per_day)
    (Hlater : dt_le now now') :
  match wait_until_thursday now now' with
  | Some sleep =>
      0 < sleep < 7 * Calendar.microseconds_per_day
      /\ sleep = dt_diff (get_next_thursday_11_05_pm now) now'
  | None => dt_le (get_next_thursday_11_05_pm now) now'
  end.
Proof.
  unfold wait_until_thursday.
  destruct (dt_ltb now' (get_next_thursday_11_05_pm now)) eqn:Hsleep.
  - apply dt_ltb_spec in Hsleep. split; [|done]. revert Hsleep.
    unfold get_next_thursday_11_05_pm, Calendar.weekday, dt_le, dt_diff,
      Calendar.microseconds_per_day in *.
    destruct now as [d t], now' as [d' t']. cbn [dt_date dt_time] in *.
    destruct (dt_ltb (replace_23_05 {| dt_date := d; dt_time := t |})
                {| dt_date := d; dt_time := t |}) eqn:Hlt.
    + apply dt_ltb_spec in Hlt. cbn in Hlt.
      destruct (Z.eqb_spec ((3 - (d + 6) mod 7) mod 7) 0) as [H0|H0];
        cbn [andb]; [|rewrite (proj2 (Z.eqb_neq _ _) H0)];
        cbn; unfold time_23_05 in *; intros Hsleep;
        Z.to_euclidean_division_equations; lia.
    + destruct (Z.eqb_spec ((3 - (d + 6) mod 7) mod 7) 0) as [H0|H0];
        cbn [andb]; [rewrite (proj2 (Z.eqb_eq _ _) H0)
                    |rewrite (proj2 (Z.eqb_neq _ _) H0)];
        cbn; unfold time_23_05 in *; intros Hsleep;
        Z.to_euclidean_division_equations; lia.
  - assert (~ (dt_date now' < dt_date (get_next_thursday_11_05_pm now)
               \/ dt_date now' = dt_date (get_next_thursday_11_05_pm now)
                  /\ dt_time now' < dt_time (get_next_thursday_11_05_pm now)))
      as Hnot.
    { rewrite <- dt_ltb_spec. congruence. }
    unfold dt_le. lia.
Qed.

(** ** The artist *)

(** X9. What [get_artist_info] returns never has an empty list of
    genres nor more than three of them, and never more than three popular
    works; when the search raises or finds no artist, or when the top
    tracks cannot be had, it is the default record: no genre but
    ["Unknown"], no follower, no work and no link. *)
Theorem get_artist_info_bounded
    (artist_search : string -> nat -> option (list sp_artist))
    (artist_top_tracks : string -> option (list string)) (artist : string) :
  let info := get_artist_info_from artist_search artist_top_tracks artist in
  genres info <> []
  /\ (length (genres info) <= 3)%nat
  /\ (length (popular_works info) <= 3)%nat
  /\ (artist_search ("artist:" +:+ artist) 1%nat = None
      \/ artist_search ("artist:" +:+ artist) 1%nat = Some []
      \/ (exists a rest,
            artist_search ("artist:" +:+ artist) 1%nat = Some (a :: rest)
            /\ artist_top_tracks (sa_id a) = None) ->
      info = default_details)
  /\ (forall a rest top_tracks,
        artist_search ("artist:" +:+ artist) 1%nat = Some (a :: rest) ->
        artist_top_tracks (sa_id a) = Some top_tracks ->
        popular_works info = take 3 top_tracks
        /\ (forall g, sa_genres a = Some g -> g <> [] ->
              genres info = take 3 g)
        /\ (sa_genres a = None \/ sa_genres a = Some [] ->
            genres info = ["Unknown"])).
Proof.
  intros info. unfold info, get_artist_info_from.
  destruct (artist_search ("artist:" +:+ artist) 1%nat) as [[|a rest]|] eqn:Hs;
    simpl.
  - split; [done|]. split; [lia|]. split; [lia|]. split; [done|].
    intros; discriminate.
  - destruct (artist_top_tracks (sa_id a)) as [tt|] eqn:Ht; simpl.
    + assert (forall g : list string, g <> [] ->
                take 3 g <> [] /\ (length (take 3 g) <= 3)%nat) as Htake.
      { intros g Hg. split; [by destruct g|]. rewrite length_take. lia. }
      split; [|split; [|split; [|split]]].
      * destruct (sa_genres a) as [[|g gs]|]; simpl; try done.
      * destruct (sa_genres a) as [[|g gs]|]; simpl; try lia.
        destruct gs as [|? [|? ?]]; simpl; lia.
      * rewrite length_take. lia.
      * intros [?|[?|(a' & rest' & [= <- <-] & ?)]]; congruence.
      * intros a' rest' tt' [= <- <-] Htt. rewrite Ht in Htt.
        injection Htt as <-. split; [done|]. split.
        -- intros g -> Hg. simpl. by destruct g.
        -- intros [->| ->]; done.
    + split; [done|]. split; [lia|]. split; [lia|]. split; [done|].
      intros a' rest' tt' [= <- <-]. congruence.
  - split; [done|]. split; [lia|]. split; [lia|]. split; [done|].
    intros; discriminate.
Qed.

(** ** Wikipedia *)







(** ** Deduplication and the collection *)







(** X13. When [collect_albums] returns, each of the three sources had
    found an album; no two entries of the collection have the same
    normalized key; every entry names at least one source, each name
    being that of a source that lists the pair as the entry spells it;
    and every entry carries the answer of the catalog search for its
    own spelling and the details of its artist. *)
Theorem collect_albums_entries (w : world) (today : Z) (kept : albums_t)
    (Hret : collect_albums w today = Returns kept) :
  let td := get_tomorrow_date today in
  exists m g k,
    scrape_all w td
    = Returns [("Metacritic", m); ("Genius", g); ("Wikipedia", k)]
    /\ m <> [] /\ g <> [] /\ k <> []
    /\ NoDup ((fun e => normalized (fst e)) <$> kept)
    /\ forall e, e ∈ kept ->
         sources (snd e) <> []
         /\ (forall src, src ∈ sources (snd e) ->
               (src = "Metacritic" /\ fst e ∈ m)
               \/ (src = "Genius" /\ fst e ∈ g)
               \/ (src = "Wikipedia" /\ fst e ∈ k))
         /\ spotify_info_of (snd e)
            = search_spotify_album w (fst (fst e)) (snd (fst e)) td
         /\ artist_info_of (snd e) = Some (get_artist_info w (fst (fst e))).
Proof.
  intros td. revert Hret. unfold collect_albums. fold td.
  destruct (scrape_all w td) as [sd|] eqn:Hsd; [|done].
  simpl. intros [= <-].
  destruct (FridayFacts.scrape_all_Returns _ _ _ Hsd)
    as (m & g & k & -> & Hm & Hg & Hk).
  apply FridayFacts.scrape_metacritic_Returns in Hm as [Hm _].
  apply FridayFacts.scrape_genius_Returns in Hg as [Hg _].
  apply FridayFacts.scrape_wikipedia_Returns in Hk as [Hk _].
  exists m, g, k. split; [done|]. split_and!; [done..| |].
  - unfold enrich. rewrite <- list_fmap_compose.
    rewrite FridayFacts.process_sources_collect.
    apply (FridayFacts.deduplicate_albums_classes_distinct
             (collect _) (FridayFacts.collect_keys_NoDup _)).
  - intros e He. unfold enrich in He.
    apply list_elem_of_fmap in He as (e0 & -> & He0). cbn [fst snd sources
      spotify_info_of artist_info_of].
    destruct (FridayFacts.kept_entry_first_spelling _ _ He0)
      as [Hhead Hsrc].
    split_and!; [| |done..].
    + rewrite Hsrc. apply FridayFacts.fmap_nonempty.
      apply head_Some_elem_of, list_elem_of_filter in Hhead as [_ Hin].
      apply list_elem_of_fmap in Hin as (m0 & Hkey & Hm0).
      intros Hnil.
      assert (m0 ∈ filter (fun m1 : string * akey => snd m1 = fst e0)
                     (mentions
                        [("Metacritic", m); ("Genius", g); ("Wikipedia", k)]))
        as Hin; [by apply list_elem_of_filter|].
      rewrite Hnil in Hin. by apply elem_of_nil in Hin.
    + intros src. rewrite Hsrc. intros Hin.
      apply list_elem_of_fmap in Hin as ([s key] & -> & Hin).
      apply list_elem_of_filter in Hin as [Hkey Hin]. simpl in Hkey.
      subst key. unfold mentions in Hin.
      cbn [mbind list_bind fst snd] in Hin.
      rewrite !elem_of_app, !list_elem_of_fmap in Hin. simpl.
      destruct Hin as [(x & [= -> ->] & ?)|[(x & [= -> ->] & ?)
                      |[(x & [= -> ->] & ?)|Hin]]]; [by left|by right; left
                      |by right; right|by apply elem_of_nil in Hin].
Qed.

(** ** The formats of the target date *)

Lemma formats_ok_all m d :
  1 <= m <= 12 -> 1 <= d <= 31 -> Calendar.formats_ok m d = true.
Proof.
  intros Hm Hd.
  assert (forallb (fun m => forallb (Calendar.formats_ok m) (seqZ 1 31))
            (seqZ 1 12) = true) as Hall.
  { vm_compute. reflexivity. }
  rewrite forallb_forall in Hall.
  specialize (Hall m). rewrite forallb_forall in Hall.
  apply Hall; apply list_elem_of_In, elem_of_seqZ; lia.
Qed.

Lemma append_cons c (s r : string) : String c s +:+ r = String c (s +:+ r).
Proof. reflexivity. Qed.

Lemma append_assoc (a b c : string) : (a +:+ b) +:+ c = a +:+ (b +:+ c).
Proof.
  induction a as [|x a IH]; [done|]. rewrite !append_cons. by rewrite IH.
Qed.

Lemma lstrip_app s s' r :
  PyStr.lstrip s = s' -> s' <> "" -> PyStr.lstrip (s +:+ r) = s' +:+ r.
Proof.
  revert s'. induction s as [|c s IH]; intros s' Hs Hne.
  - simpl in Hs. congruence.
  - rewrite append_cons. simpl in *.
    destruct (PyStr.isspace c); [by apply IH|]. by subst s'.
Qed.

Lemma rstrip_nonspace c s :
  PyStr.isspace c = false -> PyStr.rstrip s = s ->
  PyStr.rstrip (String c s) = String c s.
Proof.
  intros Hc Hs. simpl. rewrite Hs, Hc. by destruct s.
Qed.

Lemma rstrip_no_space s : Calendar.no_space s -> PyStr.rstrip s = s.
Proof.
  induction s as [|c s IH]; [done|].
  intros [Hc Hs]. apply rstrip_nonspace; [done|]. by apply IH.
Qed.

Lemma rstrip_app s t :
  t <> "" -> PyStr.rstrip t = t -> PyStr.rstrip (s +:+ t) = s +:+ t.
Proof.
  intros Hne Ht. induction s as [|c s IH]; [exact Ht|].
  rewrite append_cons. simpl. rewrite IH.
  destruct (s +:+ t) eqn:Hst; [|done].
  destruct s, t; done.
Qed.

Lemma pretty_N_go_no_space x s :
  Calendar.no_space s -> Calendar.no_space (pretty_N_go x s).
Proof.
  revert s. induction (N.lt_wf_0 x) as [x _ IH]; intros s Hs.
  destruct (decide (x = 0)%N) as [->|Hx].
  - by rewrite pretty_N_go_0.
  - rewrite pretty_N_go_step by lia.
    apply IH; [apply N.div_lt; lia|].
    split; [|done].
    unfold pretty_N_char. by repeat case_match.
Qed.

Lemma pretty_N_go_nonempty x s : s <> "" -> pretty_N_go x s <> "".
Proof.
  revert s. induction (N.lt_wf_0 x) as [x _ IH]; intros s Hs.
  destruct (decide (x = 0)%N) as [->|Hx].
  - by rewrite pretty_N_go_0.
  - rewrite pretty_N_go_step by lia.
    apply IH; [apply N.div_lt; lia|done].
Qed.

Lemma pretty_Z_no_space (y : Z) :
  Calendar.no_space (pretty y) /\ pretty y <> "".
Proof.
  assert (forall p : positive,
            Calendar.no_space (pretty p) /\ pretty p <> "") as Hpos.
  { intros p. unfold pretty, pretty_positive, pretty, pretty_N.
    case_decide; [done|]. split; [by apply pretty_N_go_no_space|].
    rewrite pretty_N_go_step by lia. by apply pretty_N_go_nonempty. }
  destruct y as [|p|p]; [by compute|apply Hpos|].
  unfold pretty, pretty_Z. destruct (Hpos p) as [Hs _].
  split; [by split|done].
Qed.

(** X14. The markers that [get_tomorrow_date] builds for the day after
    today are written without padding: on Genius the month and the day as
    plain numbers with a stroke between them, on Wikipedia the name of
    the month with the day put straight after it, on Metacritic the day,
    the name of the month and the year with one space between them; the
    markers that end the windows of Genius and of Wikipedia are written
    in the same way for the day a week later. *)
Theorem get_tomorrow_date_formats (today : Z) :
  let t := today + 1 in
  let td := get_tomorrow_date today in
  date_obj td = t
  /\ genius_format td
     = pretty (Calendar.month t) +:+ "/" +:+ pretty (Calendar.day t)
  /\ wikipedia_format td
     = Calendar.month_name (Calendar.month t) +:+ pretty (Calendar.day t)
  /\ metacritic_format td
     = pretty (Calendar.day t) +:+ " "
         +:+ Calendar.month_name (Calendar.month t) +:+ " "
         +:+ pretty (Calendar.year t)
  /\ genius_window_end td
     = pretty (Calendar.month (t + 7)) +:+ "/"
         +:+ pretty (Calendar.day (t + 7))
  /\ wikipedia_window_end td
     = Calendar.month_name (Calendar.month (t + 7))
         +:+ pretty (Calendar.day (t + 7)).
Proof.
  intros t td.
  destruct (CalendarFacts.ord2ymd_inverse t) as (_ & Hm & Hd & _).
  destruct (CalendarFacts.ord2ymd_inverse (t + 7)) as (_ & Hm' & Hd' & _).
  pose proof (formats_ok_all _ _ Hm Hd) as Hok.
  pose proof (formats_ok_all _ _ Hm' Hd') as Hok'.
  unfold Calendar.formats_ok in Hok, Hok'.
  rewrite !andb_true_iff, !bool_decide_eq_true in Hok, Hok'.
  destruct Hok as [[Hg Hw] Hmc], Hok' as [[Hg' Hw'] _].
  split; [done|]. split; [exact Hg|]. split; [exact Hw|].
  split; [|split; [exact Hg'|exact Hw']].
  unfold td, get_tomorrow_date, metacritic_format. fold t.
  unfold Calendar.strftime_e_B_Y, PyStr.strip.
  destruct (pretty_Z_no_space (Calendar.year t)) as [Hy Hne].
  destruct (pretty_Z_no_space (Calendar.day t)) as [_ Hdne].
  replace (PyStr.pad2 " " (Calendar.day t) +:+ " "
             +:+ Calendar.month_name (Calendar.month t) +:+ " "
             +:+ pretty (Calendar.year t))
    with ((PyStr.pad2 " " (Calendar.day t) +:+ " "
             +:+ Calendar.month_name (Calendar.month t))
            +:+ (" " +:+ pretty (Calendar.year t))).
  2:{ by rewrite !append_assoc. }
  rewrite (lstrip_app _ _ _ Hmc).
  2:{ destruct (pretty (Calendar.day t)); done. }
  transitivity ((pretty (Calendar.day t) +:+ " "
                   +:+ Calendar.month_name (Calendar.month t))
                  +:+ (" " +:+ pretty (Calendar.year t)));
    [|by rewrite !append_assoc].
  change (" " +:+ pretty (Calendar.year t))
    with (String " "%char (pretty (Calendar.year t))).
  apply rstrip_app; [discriminate|].
  simpl. rewrite (rstrip_no_space _ Hy).
  by destruct (pretty (Calendar.year t)).
Qed.

(** ** One run a week *)

(** The day that [get_next_thursday_11_05_pm] picks, by the number of
    days from today. *)
Lemma next_thursday_days (now : datetime) :
  0 <= dt_time now < Calendar.microseconds_per_day ->
  exists k,
    get_next_thursday_11_05_pm now
    = {| dt_date := dt_date now + k; dt_time := time_23_05 |}
    /\ 0 <= k <= 7
    /\ (dt_date now + k + 6) mod 7 = 3
    /\ (k = 0 -> dt_time now <= time_23_05)
    /\ (k = 7 -> time_23_05 < dt_time now).
Proof.
  intros Htime.
  unfold get_next_thursday_11_05_pm, Calendar.weekday,
    Calendar.microseconds_per_day in *.
  destruct now as [d t]. cbn [dt_date dt_time] in *.
  destruct (dt_ltb (replace_23_05 {| dt_date := d; dt_time := t |})
              {| dt_date := d; dt_time := t |}) eqn:Hlt.
  - apply dt_ltb_spec in Hlt. cbn in Hlt.
    destruct (Z.eqb_spec ((3 - (d + 6) mod 7) mod 7) 0) as [H0|H0];
      cbn [andb]; [|rewrite (proj2 (Z.eqb_neq _ _) H0)]; cbn.
    + exists 7. split; [done|]. Z.to_euclidean_division_equations. lia.
    + exists ((3 - (d + 6) mod 7) mod 7). split; [done|].
      Z.to_euclidean_division_equations. lia.
  - assert (t <= time_23_05) as Hle.
    { destruct (Z.le_gt_cases t time_23_05); [done|].
      assert (dt_ltb (replace_23_05 {| dt_date := d; dt_time := t |})
                {| dt_date := d; dt_time := t |} = true); [|congruence].
      apply dt_ltb_spec. cbn. lia. }
    destruct (Z.eqb_spec ((3 - (d + 6) mod 7) mod 7) 0) as [H0|H0];
      cbn [andb]; [rewrite (proj2 (Z.eqb_eq _ _) H0)
                  |rewrite (proj2 (Z.eqb_neq _ _) H0)]; cbn.
    + exists 0. split; [by rewrite Z.add_0_r|].
      Z.to_euclidean_division_equations. lia.
    + exists ((3 - (d + 6) mod 7) mod 7). split; [done|].
      Z.to_euclidean_division_equations. lia.
Qed.

(** X15. A time read after the time of a run, as the time is that
    [run_continuous] reads when it comes back to [wait_until_thursday],
    gets a Thursday that is a whole number of weeks after that of the
    run, and at least one: no Thursday is served twice. When the reading
    is not more than a week after the run, it is the Thursday that
    follows. *)
Theorem thursdays_a_week_apart (now later : datetime)
    (Htime : 0 <= dt_time now < Calendar.microseconds_per_day)
    (Htime' : 0 <= dt_time later < Calendar.microseconds_per_day)
    (Hafter : dt_ltb (get_next_thursday_11_05_pm now) later = true) :
  let target := get_next_thursday_11_05_pm now in
  (exists weeks, 1 <= weeks
     /\ get_next_thursday_11_05_pm later = add_days target (7 * weeks))
  /\ (dt_diff later target <= 7 * Calendar.microseconds_per_day ->
      get_next_thursday_11_05_pm later = add_days target 7).
Proof.
  intros target. unfold target. clear target.
  destruct (next_thursday_days now Htime) as (k & Hnext & Hk & Hday & _).
  destruct (next_thursday_days later Htime')
    as (k' & -> & Hk' & Hday' & Hk0 & Hk7).
  rewrite Hnext in *. clear Hnext.
  apply dt_ltb_spec in Hafter. cbn [dt_date dt_time] in Hafter.
  unfold add_days, dt_diff, Calendar.microseconds_per_day in *.
  cbn [dt_date dt_time]. unfold time_23_05 in *.
  assert (exists weeks,
            dt_date later + k' = dt_date now + k + 7 * weeks /\ 1 <= weeks)
    as (weeks & Heq & Hweeks).
  { exists ((dt_date later + k' - (dt_date now + k)) / 7).
    Z.to_euclidean_division_equations. lia. }
  split.
  - exists weeks. split; [done|]. by f_equal.
  - intros Hweek. f_equal. lia.
Qed.

(** ** The text of a link of Genius *)









(** ** The theorems at the samples *)

Lemma next_thursday_is_next_witness :
  0 <= dt_time wednesday_morning < Calendar.microseconds_per_day
  /\ get_next_thursday_11_05_pm wednesday_morning
     = {| dt_date := thursday; dt_time := time_23_05 |}
  /\ Calendar.weekday (dt_date (get_next_thursday_11_05_pm wednesday_morning))
     = 3.
Proof.
  assert (0 <= dt_time wednesday_morning < Calendar.microseconds_per_day)
    as Htime.
  { unfold Calendar.microseconds_per_day. simpl. lia. }
  split; [exact Htime|]. split; [vm_compute; reflexivity|].
  exact (proj1 (next_thursday_is_next wednesday_morning Htime)).
Defined.

Lemma wait_until_thursday_bounds_witness :
  match wait_until_thursday wednesday_morning wednesday_morning with
  | Some sleep =>
      0 < sleep < 7 * Calendar.microseconds_per_day
      /\ sleep = dt_diff (get_next_thursday_11_05_pm wednesday_morning)
                   wednesday_morning
  | None =>
      dt_le (get_next_thursday_11_05_pm wednesday_morning) wednesday_morning
  end.
Proof.
  apply (wait_until_thursday_bounds wednesday_morning wednesday_morning).
  - unfold Calendar.microseconds_per_day. simpl. lia.
  - unfold Calendar.microseconds_per_day. simpl. lia.
  - right. split; [reflexivity|]. simpl. lia.
Defined.

Lemma thursdays_a_week_apart_witness :
  get_next_thursday_11_05_pm thursday_after_run
  = add_days (get_next_thursday_11_05_pm wednesday_morning) 7.
Proof.
  apply (thursdays_a_week_apart wednesday_morning thursday_after_run).
  - unfold Calendar.microseconds_per_day. simpl. lia.
  - unfold Calendar.microseconds_per_day. simpl. lia.
  - vm_compute. reflexivity.
  - vm_compute. discriminate.
Defined.




Lemma collect_albums_entries_witness :
  exists kept,
    collect_albums world_two_spellings thursday = Returns kept
    /\ NoDup ((fun e => normalized (fst e)) <$> kept)
    /\ forall e, e ∈ kept -> sources (snd e) <> [].
Proof.
  destruct (collect_albums world_two_spellings thursday) as [kept|] eqn:Hret;
    [|vm_compute in Hret; discriminate].
  exists kept. split; [reflexivity|].
  destruct (collect_albums_entries world_two_spellings thursday kept Hret)
    as (m & g & k & _ & _ & _ & _ & Hnd & Hall).
  split; [exact Hnd|]. intros e He. exact (proj1 (Hall e He)).
Defined.

End FridayMore.
